(** * bun-typed-sqlite: the table facade, the row codec, the predicate
      compiler, schema validation and the connection pool of [src/class.ts],
      embedded as executable definitions, with the properties of the
      specification stated and settled against them. *)

From Stdlib Require Import List String Ascii ZArith Bool Lia PeanoNat.
From Stdlib Require Import DecimalString Sorted Permutation.
Import ListNotations.
Open Scope string_scope.
Set Warnings "-register-all".

(* ===================================================================== *)
(** * 1. JavaScript values *)
(* ===================================================================== *)

Module Js.

(** Run-time values as the code sees them.  Numbers are the integers that
    occur in the modelled paths (row ids, 0/1 flags, millisecond epochs,
    limits); a [Date] carries its [getTime()] value.  [VOther] stands for a
    value of any remaining type (function, symbol, bigint) and carries what
    [String(v)] yields for it. *)
Inductive value : Type :=
| VUndefined
| VNull
| VBool (b : bool)
| VNum (n : Z)
| VStr (s : string)
| VDate (ms : Z)
| VArr (xs : list value)
| VObj (fields : list (string * value))
| VOther (repr : string).

(** A plain object: its own enumerable properties in the order in which
    [Object.keys] enumerates them (insertion order for names that are not
    array indices). *)
Definition obj := list (string * value).

Definition string_of_nat (n : nat) : string :=
  NilZero.string_of_uint (Nat.to_uint n).

Definition string_of_Z (z : Z) : string :=
  NilZero.string_of_int (Z.to_int z).

(** [ToBoolean]. *)
Definition truthy (v : value) : bool :=
  match v with
  | VUndefined | VNull => false
  | VBool b => b
  | VNum n => negb (n =? 0)%Z
  | VStr s => negb (s =? EmptyString)
  | VDate _ | VArr _ | VObj _ | VOther _ => true
  end.

(** [typeof v === "object"] (which holds of [null] too). *)
Definition typeof_object (v : value) : bool :=
  match v with
  | VNull | VDate _ | VArr _ | VObj _ => true
  | _ => false
  end.

Definition isArray (v : value) : bool :=
  match v with VArr _ => true | _ => false end.

(** [o[k]] on a plain object. *)
Fixpoint get (o : obj) (k : string) : value :=
  match o with
  | [] => VUndefined
  | (k', v) :: o' => if k' =? k then v else get o' k
  end.

(** [k in o] on a plain object. *)
Definition has (o : obj) (k : string) : bool :=
  existsb (fun kv => fst kv =? k) o.

Definition chars (s : string) : list string :=
  map (fun c => String c EmptyString) (list_ascii_of_string s).

Definition indices (n : nat) : list string := map string_of_nat (seq 0 n).

(** [Object.keys(v)] for a value that is neither [null] nor [undefined]
    (on those it throws; the callers test truthiness first). *)
Definition keys (v : value) : list string :=
  match v with
  | VObj fs => map fst fs
  | VArr xs => indices (List.length xs)
  | VStr s => indices (String.length s)
  | _ => []
  end.

(** [Object.values(v)], same domain. *)
Definition values (v : value) : list value :=
  match v with
  | VObj fs => map snd fs
  | VArr xs => xs
  | VStr s => map VStr (chars s)
  | _ => []
  end.

(** [v.k] / [v[k]] for a property name that is not an index: only plain
    objects carry such properties here. *)
Definition prop (v : value) (k : string) : value :=
  match v with
  | VObj fs => get fs k
  | _ => VUndefined
  end.

(** [k in v] for a value with [typeof v === "object"], [v !== null] and a
    property name that is not an index. *)
Definition has_prop (v : value) (k : string) : bool :=
  match v with
  | VObj fs => has fs k
  | _ => false
  end.

(** Thrown values: an [Error] with its [name] and [message]. *)
Record error : Type := mkError { err_name : string; err_message : string }.

Definition Error (msg : string) : error := mkError "Error" msg.
Definition TypeError (msg : string) : error := mkError "TypeError" msg.
Definition SyntaxError (msg : string) : error := mkError "SyntaxError" msg.
Definition SQLiteError (msg : string) : error := mkError "SQLiteError" msg.

(** [`${error}`], that is [Error.prototype.toString]: the name alone when
    the message is empty, the message alone when the name is empty. *)
Definition error_to_string (e : error) : string :=
  if err_name e =? EmptyString then err_message e
  else if err_message e =? EmptyString then err_name e
  else err_name e ++ ": " ++ err_message e.

(** [sep.join(xs)]. *)
Fixpoint join (sep : string) (xs : list string) : string :=
  match xs with
  | [] => EmptyString
  | [x] => x
  | x :: rest => x ++ sep ++ join sep rest
  end.

(** [s.includes(sub)]. *)
Definition includes (s sub : string) : bool :=
  match String.index 0 sub s with Some _ => true | None => false end.

(** A pure computation that may throw. *)
Definition res (A : Type) : Type := (error + A)%type.

Definition res_bind {A B : Type} (r : res A) (f : A -> res B) : res B :=
  match r with
  | inl e => inl e
  | inr a => f a
  end.

(** [xs.map(f)] where [f] may throw: the first throw aborts the loop. *)
Fixpoint res_map {A B : Type} (f : A -> res B) (xs : list A) : res (list B) :=
  match xs with
  | [] => inr []
  | x :: rest =>
      res_bind (f x) (fun y =>
      res_bind (res_map f rest) (fun ys => inr (y :: ys)))
  end.

(** The message text of a run-time [TypeError] is the engine's own; one
    text stands for all of them. *)
Definition nullish_TypeError : error :=
  TypeError "null or undefined is not an object".

(** [Object.keys(v)] on any value. *)
Definition objectKeys (v : value) : res (list string) :=
  match v with
  | VNull | VUndefined => inl nullish_TypeError
  | _ => inr (keys v)
  end.

(** [Object.values(v)] on any value. *)
Definition objectValues (v : value) : res (list value) :=
  match v with
  | VNull | VUndefined => inl nullish_TypeError
  | _ => inr (values v)
  end.

(** The position a property name denotes in an array or a string of
    length [n], when it is the canonical decimal text of an index. *)
Definition index_of_key (n : nat) (k : string) : option nat :=
  find (fun i => string_of_nat i =? k) (seq 0 n).

(** [v.k] for a property name that is written in the code and that no
    built-in prototype defines (the two read this way are [data] and
    [count]): own properties of plain objects, elements of arrays,
    characters of strings and [length]; it throws on [null] and
    [undefined].  A name computed at run time is read by [getMember]
    below. *)
Definition getProp (v : value) (k : string) : res value :=
  match v with
  | VNull | VUndefined => inl nullish_TypeError
  | VObj fs => inr (get fs k)
  | VArr xs =>
      if k =? "length" then inr (VNum (Z.of_nat (List.length xs)))
      else match index_of_key (List.length xs) k with
           | Some i => inr (nth i xs VUndefined)
           | None => inr VUndefined
           end
  | VStr s =>
      if k =? "length" then inr (VNum (Z.of_nat (String.length s)))
      else match index_of_key (String.length s) k with
           | Some i => inr (nth i (map VStr (chars s)) VUndefined)
           | None => inr VUndefined
           end
  | _ => inr VUndefined
  end.

(** The built-ins of the run time that the repository calls but does not
    define.  [JSON_parse] answers [None] where [JSON.parse] throws;
    [Date_toString] is [String(d)] of a [Date] with the given epoch;
    [Number_toString] is [String(n)] of a number, which the model asks for
    from 1e21 on, where the text is in exponent notation;
    [Prototype_get v k] is what [v[k]] yields when [v] does not own [k]:
    the member that the prototype chain of [v] has under that name
    ([constructor], [toString], ...), or [undefined]. *)
Record Runtime : Type := {
  JSON_stringify : value -> string;
  JSON_parse : string -> option value;
  Date_toString : Z -> string;
  Number_toString : Z -> string;
  Prototype_get : value -> string -> value
}.

(** [v[k]] for any property name: the own properties as [getProp] reads
    them, then the prototype chain; it throws on [null] and
    [undefined]. *)
Definition getMember (J : Runtime) (v : value) (k : string) : res value :=
  match v with
  | VNull | VUndefined => inl nullish_TypeError
  | VObj fs => inr (if has fs k then get fs k else Prototype_get J v k)
  | VArr xs =>
      if k =? "length" then inr (VNum (Z.of_nat (List.length xs)))
      else match index_of_key (List.length xs) k with
           | Some i => inr (nth i xs VUndefined)
           | None => inr (Prototype_get J v k)
           end
  | VStr s =>
      if k =? "length" then inr (VNum (Z.of_nat (String.length s)))
      else match index_of_key (String.length s) k with
           | Some i => inr (nth i (map VStr (chars s)) VUndefined)
           | None => inr (Prototype_get J v k)
           end
  | _ => inr (Prototype_get J v k)
  end.

End Js.
Export Js.

(** A small JSON engine over the fragment made of [null], booleans,
    integers, strings (escaping the quote and the backslash), arrays and
    objects.  It instantiates [Runtime] where a concrete run is evaluated;
    the general statements quantify over every [Runtime].  Values outside
    the fragment print as [null], number syntax with a fraction or an
    exponent is refused, and a [Date] prints as its epoch. *)
Module MiniJson.

Local Open Scope char_scope.

Definition dquote : ascii := ascii_of_nat 34.
Definition bslash : ascii := ascii_of_nat 92.

Fixpoint escape (s : string) : string :=
  match s with
  | EmptyString => EmptyString
  | String c r =>
      if (c =? dquote) || (c =? bslash)
      then String bslash (String c (escape r))
      else String c (escape r)
  end.

Definition quote (s : string) : string :=
  String dquote (escape s ++ String dquote EmptyString)%string.

Fixpoint stringify (v : value) : string :=
  match v with
  | VNull | VUndefined | VOther _ | VDate _ => "null"%string
  | VBool b => if b then "true"%string else "false"%string
  | VNum n => string_of_Z n
  | VStr s => quote s
  | VArr xs => ("[" ++ join "," (map stringify xs) ++ "]")%string
  | VObj fs =>
      ("{" ++ join ","
         (map (fun kv => match kv with
                         | (k, x) => (quote k ++ ":" ++ stringify x)%string
                         end) fs) ++ "}")%string
  end.

Definition is_ws (c : ascii) : bool :=
  (c =? " ") || (c =? ascii_of_nat 9) || (c =? ascii_of_nat 10)
  || (c =? ascii_of_nat 13).

Fixpoint skip_ws (s : list ascii) : list ascii :=
  match s with
  | c :: r => if is_ws c then skip_ws r else s
  | [] => []
  end.

Definition is_digit (c : ascii) : bool :=
  (48 <=? nat_of_ascii c)%nat && (nat_of_ascii c <=? 57)%nat.

Fixpoint take_digits (s : list ascii) : list ascii * list ascii :=
  match s with
  | c :: r =>
      if is_digit c
      then let (ds, rest) := take_digits r in (c :: ds, rest)
      else ([], s)
  | [] => ([], [])
  end.

Definition digits_to_Z (ds : list ascii) : Z :=
  fold_left (fun acc d => (acc * 10 + (Z.of_nat (nat_of_ascii d) - 48))%Z) ds 0%Z.

Definition parse_digits (s : list ascii) : option (Z * list ascii) :=
  let (ds, rest) := take_digits s in
  match ds with
  | [] => None
  | "0" :: _ :: _ => None
  | _ =>
      match rest with
      | "." :: _ | "e" :: _ | "E" :: _ => None
      | _ => Some (digits_to_Z ds, rest)
      end
  end.

Definition parse_number (s : list ascii) : option (value * list ascii) :=
  match s with
  | "-" :: r =>
      match parse_digits r with
      | Some (n, rest) => Some (VNum (- n), rest)
      | None => None
      end
  | _ =>
      match parse_digits s with
      | Some (n, rest) => Some (VNum n, rest)
      | None => None
      end
  end.

(** The characters after an opening quote, up to the closing one. *)
Fixpoint parse_string_body (s : list ascii) (acc : string)
  : option (string * list ascii) :=
  match s with
  | [] => None
  | c :: r =>
      if c =? dquote then Some (acc, r)
      else if c =? bslash then
        match r with
        | c2 :: r2 =>
            if (c2 =? dquote) || (c2 =? bslash)
            then parse_string_body r2 (acc ++ String c2 EmptyString)%string
            else None
        | [] => None
        end
      else parse_string_body r (acc ++ String c EmptyString)%string
  end.

Fixpoint parse_value (fuel : nat) (s : list ascii) {struct fuel}
  : option (value * list ascii) :=
  match fuel with
  | O => None
  | S f =>
      match skip_ws s with
      | "n" :: "u" :: "l" :: "l" :: r => Some (VNull, r)
      | "t" :: "r" :: "u" :: "e" :: r => Some (VBool true, r)
      | "f" :: "a" :: "l" :: "s" :: "e" :: r => Some (VBool false, r)
      | "[" :: r =>
          match skip_ws r with
          | "]" :: r' => Some (VArr [], r')
          | _ =>
              match parse_elems f r [] with
              | Some (xs, r') => Some (VArr xs, r')
              | None => None
              end
          end
      | "{" :: r =>
          match skip_ws r with
          | "}" :: r' => Some (VObj [], r')
          | _ =>
              match parse_members f r [] with
              | Some (fs, r') => Some (VObj fs, r')
              | None => None
              end
          end
      | c :: r =>
          if c =? dquote then
            match parse_string_body r EmptyString with
            | Some (str, r') => Some (VStr str, r')
            | None => None
            end
          else parse_number (c :: r)
      | [] => None
      end
  end
with parse_elems (fuel : nat) (s : list ascii) (acc : list value) {struct fuel}
  : option (list value * list ascii) :=
  match fuel with
  | O => None
  | S f =>
      match parse_value f s with
      | Some (v, r) =>
          match skip_ws r with
          | "," :: r' => parse_elems f r' (acc ++ [v])%list
          | "]" :: r' => Some ((acc ++ [v])%list, r')
          | _ => None
          end
      | None => None
      end
  end
with parse_members (fuel : nat) (s : list ascii) (acc : list (string * value))
  {struct fuel} : option (list (string * value) * list ascii) :=
  match fuel with
  | O => None
  | S f =>
      match skip_ws s with
      | c :: r =>
          if c =? dquote then
            match parse_string_body r EmptyString with
            | Some (k, r1) =>
                match skip_ws r1 with
                | ":" :: r2 =>
                    match parse_value f r2 with
                    | Some (v, r3) =>
                        match skip_ws r3 with
                        | "," :: r4 => parse_members f r4 (acc ++ [(k, v)])%list
                        | "}" :: r4 => Some ((acc ++ [(k, v)])%list, r4)
                        | _ => None
                        end
                    | None => None
                    end
                | _ => None
                end
            | None => None
            end
          else None
      | [] => None
      end
  end.

Definition parse (s : string) : option value :=
  let cs := list_ascii_of_string s in
  match parse_value (2 * List.length cs + 2) cs with
  | Some (v, r) => match skip_ws r with [] => Some v | _ => None end
  | None => None
  end.

(** [String(n)] in exponent notation, for an integer whose shortest
    digits are its own without the trailing zeros (1e21 is one). *)
Fixpoint strip_zeros (reversed : list ascii) : list ascii :=
  match reversed with
  | "0" :: r => strip_zeros r
  | _ => reversed
  end.

Definition exponent_text (n : Z) : string :=
  let ds := list_ascii_of_string (string_of_Z (Z.abs n)) in
  let significant := rev (strip_zeros (rev ds)) in
  ((if (n <? 0)%Z then "-" else EmptyString)
   ++ match significant with
      | [] => "0"
      | [d] => String d EmptyString
      | d :: more => String d ("." ++ string_of_list_ascii more)
      end
   ++ "e+" ++ string_of_nat (List.length ds - 1))%string.

(** The functions of [Object.prototype]. *)
Definition objectPrototypeFunctions : list string :=
  [ "constructor"; "hasOwnProperty"; "isPrototypeOf"; "propertyIsEnumerable";
    "toLocaleString"; "toString"; "valueOf"; "__defineGetter__";
    "__defineSetter__"; "__lookupGetter__"; "__lookupSetter__" ]%string.

(** A native function, carrying the text that [String] gives it. *)
Definition native_function (name : string) : value :=
  let newline := String (ascii_of_nat 10) EmptyString in
  VOther ("function " ++ name ++ "() {" ++ newline ++ "    [native code]"
          ++ newline ++ "}")%string.

(** What a plain object inherits: the functions of [Object.prototype]
    ([constructor] is [Object]) and, under [__proto__], the prototype
    itself, an object without enumerable properties.  Other receivers are
    outside the fragment. *)
Definition prototype_get (v : value) (k : string) : value :=
  match v with
  | VObj _ =>
      if (k =? "constructor")%string then native_function "Object"
      else if existsb (String.eqb k) objectPrototypeFunctions
      then native_function k
      else if (k =? "__proto__")%string then VObj []
      else VUndefined
  | _ => VUndefined
  end.

Definition impl : Runtime :=
  {| JSON_stringify := stringify;
     JSON_parse := parse;
     Date_toString := string_of_Z;
     Number_toString := exponent_text;
     Prototype_get := prototype_get |}.

End MiniJson.

(* ===================================================================== *)
(** * 2. Schema descriptors ([schema.ts]) *)
(* ===================================================================== *)

(** [ColumnsSchema["type"]]. *)
Inductive column_type : Type :=
| TNumber | TString | TDate | TJson | TFloat | TBoolean.

Definition column_type_eqb (a b : column_type) : bool :=
  match a, b with
  | TNumber, TNumber | TString, TString | TDate, TDate
  | TJson, TJson | TFloat, TFloat | TBoolean, TBoolean => true
  | _, _ => false
  end.

(** A column object.  The declared type puts [autoIncrement] on number
    columns only; the flag is kept on every column because the run-time
    object may carry it anywhere.  [col_default = VUndefined] is an absent
    [default]. *)
Record ColumnsSchema : Type := {
  col_name : string;
  col_type : column_type;
  col_primary : bool;
  col_autoIncrement : bool;
  col_nullable : bool;
  col_unique : bool;
  col_default : value
}.

(** A table object; [None] is a missing ([undefined] or [null]) property. *)
Record TableSchema : Type := {
  tbl_name : option string;
  tbl_columns : option (list ColumnsSchema)
}.

(* ===================================================================== *)
(** * 3. Row codec ([Table.parseParameters], [Table.restoreDataTypes]) *)
(* ===================================================================== *)

Section Codec.

Variable J : Runtime.

(** The body of the [params.map] callback of [parseParameters]. *)
Definition parseParameter (param : value) : value :=
  match param with
  | VNum _ | VStr _ => param
  | VBool b => VNum (if b then 1 else 0)
  | VDate ms => VNum ms
  | VArr _ | VObj _ => VStr (JSON_stringify J param)
  | VNull | VUndefined => VStr EmptyString
  | VOther repr => VStr repr
  end.

Definition parseParameters (params : list value) : list value :=
  map parseParameter params.

(** [formatRecordValuesForInsert]: one bound value per column of the
    statement, read off the record by column name. *)
Definition formatRecordValuesForInsert (record : value) (columns : list string)
  : res (list value) :=
  res_map (fun column =>
             res_bind (getMember J record column) (fun val =>
             inr (hd VUndefined (parseParameters [val]))))
          columns.

(** The [switch (column.type)] of [restoreDataTypes]. *)
Definition restoreColumnValue (t : column_type) (val : value) : value :=
  match t with
  | TDate => match val with VNum n => VDate n | _ => val end
  | TJson =>
      match val with
      | VStr s => match JSON_parse J s with Some v => v | None => val end
      | _ => val
      end
  | TBoolean => VBool (match val with VNum 1 => true | _ => false end)
  | _ => val
  end.

(** [this.schema.find(col => col.name === key)]. *)
Definition find_column (schema : list ColumnsSchema) (key : string)
  : option ColumnsSchema :=
  find (fun col => col_name col =? key) schema.

Definition restoreDataTypes (schema : list ColumnsSchema) (row : obj) : obj :=
  map (fun kv =>
         match find_column schema (fst kv) with
         | None => kv
         | Some column => (fst kv, restoreColumnValue (col_type column) (snd kv))
         end)
      row.

End Codec.


(* ===================================================================== *)
(** * 4. Predicate compiler ([Table.buildWhereClause] and friends) *)
(* ===================================================================== *)

Section Predicates.

Variable J : Runtime.

(** The keys that [buildWhereClause] treats as operators. *)
Definition operatorKeys : list string :=
  ["LIKE"; "OR"; "greaterThan"; "lessThan"; "notEqual";
   "greaterThanOrEqual"; "lessThanOrEqual"].

(** [Object.keys(where).filter(key => !operatorKeys.includes(key))]. *)
Definition regularFields (where_ : obj) : list string :=
  filter (fun key => negb (existsb (String.eqb key) operatorKeys))
         (map fst where_).

(** [k in where && where[k]]. *)
Definition present (where_ : obj) (k : string) : bool :=
  has where_ k && truthy (get where_ k).

(** The template [`${key} ${op} ?`] of every clause. *)
Definition conditionText (op key : string) : string :=
  key ++ " " ++ op ++ " ?".

(** One operator block of [buildWhereClause]:
    [Object.keys(where[k]).map(key => `${key} ${op} ?`)]. *)
Definition operatorConditions (where_ : obj) (k op : string) : list string :=
  if present where_ k
  then map (conditionText op) (keys (get where_ k))
  else [].

(** The test that selects the [LIKE] form of an [OR] alternative. *)
Definition isLikeCondition (condition : value) : bool :=
  typeof_object condition
  && negb (match condition with VNull => true | _ => false end)
  && has_prop condition "LIKE" && truthy (prop condition "LIKE").

(** The callback of [where.OR.map] in [buildWhereClause]. *)
Definition orCondition (condition : value) : res string :=
  if isLikeCondition condition
  then inr (join " AND "
              (map (conditionText "LIKE") (keys (prop condition "LIKE"))))
  else res_bind (objectKeys condition) (fun ks =>
       inr (join " AND " (map (conditionText "=") ks))).

(** [k in where && where.OR && Array.isArray(where.OR)], with the array. *)
Definition orAlternatives (where_ : obj) : option (list value) :=
  if present where_ "OR"
  then match get where_ "OR" with VArr xs => Some xs | _ => None end
  else None.

(** The [conditions] array that [buildWhereClause] fills. *)
Definition whereConditions (where_ : obj) : res (list string) :=
  res_bind
    (match orAlternatives where_ with
     | Some alts =>
         res_bind (res_map orCondition alts) (fun orConditions =>
         inr ["(" ++ join " OR " orConditions ++ ")"])
     | None => inr []
     end)
    (fun orPart =>
       inr (operatorConditions where_ "LIKE" "LIKE"
            ++ operatorConditions where_ "greaterThan" ">"
            ++ operatorConditions where_ "lessThan" "<"
            ++ operatorConditions where_ "notEqual" "!="
            ++ operatorConditions where_ "greaterThanOrEqual" ">="
            ++ operatorConditions where_ "lessThanOrEqual" "<="
            ++ orPart
            ++ map (conditionText "=") (regularFields where_))%list).

Definition buildWhereClause (where_ : obj) : res string :=
  match where_ with
  | [] => inr EmptyString
  | _ =>
      res_bind (whereConditions where_) (fun conditions =>
      inr (match conditions with
           | [] => EmptyString
           | _ => "WHERE " ++ join " AND " conditions
           end))
  end.

(** One operator block of [extractWhereParameters]. *)
Definition operatorParameters (where_ : obj) (k : string) : list value :=
  if present where_ k
  then parseParameters J (values (get where_ k))
  else [].

(** The body of the [for (const condition of where.OR)] loop. *)
Definition orParameters (condition : value) : res (list value) :=
  if isLikeCondition condition
  then inr (parseParameters J (values (prop condition "LIKE")))
  else res_bind (objectValues condition) (fun vs =>
       inr (parseParameters J vs)).

Definition extractWhereParameters (where_ : obj) : res (list value) :=
  res_bind
    (match orAlternatives where_ with
     | Some alts =>
         res_bind (res_map orParameters alts) (fun ps => inr (List.concat ps))
     | None => inr []
     end)
    (fun orPart =>
       inr (operatorParameters where_ "LIKE"
            ++ operatorParameters where_ "greaterThan"
            ++ operatorParameters where_ "lessThan"
            ++ operatorParameters where_ "notEqual"
            ++ operatorParameters where_ "greaterThanOrEqual"
            ++ operatorParameters where_ "lessThanOrEqual"
            ++ orPart
            ++ parseParameters J (map (get where_) (regularFields where_)))%list).

(** One structured test of [hasValidWhereConditions]:
    [k in where && where[k] && Object.keys(where[k]).length > 0]. *)
Definition nonEmptyOperator (where_ : obj) (k : string) : bool :=
  present where_ k
  && negb (Nat.eqb (List.length (keys (get where_ k))) 0).

Definition hasValidWhereConditions (where_ : obj) : bool :=
  match where_ with
  | [] => false
  | _ =>
      if negb (Nat.eqb (List.length (regularFields where_)) 0) then true
      else if nonEmptyOperator where_ "LIKE" then true
      else if present where_ "OR" && isArray (get where_ "OR")
              && negb (Nat.eqb (List.length (values (get where_ "OR"))) 0)
           then true
      else if nonEmptyOperator where_ "greaterThan" then true
      else if nonEmptyOperator where_ "lessThan" then true
      else if nonEmptyOperator where_ "notEqual" then true
      else if nonEmptyOperator where_ "greaterThanOrEqual" then true
      else if nonEmptyOperator where_ "lessThanOrEqual" then true
      else false
  end.

(** The guard "Handle empty OR conditions" of [select], [count] and
    [delete]: ['OR' in where && Array.isArray(where.OR) &&
    where.OR.length === 0]. *)
Definition hasEmptyOr (where_ : obj) : bool :=
  has where_ "OR"
  && match get where_ "OR" with VArr [] => true | _ => false end.

End Predicates.

(* ===================================================================== *)
(** * 5. Schema validation and DDL ([DatabaseManager]) *)
(* ===================================================================== *)

Section Ddl.

Variable J : Runtime.

(** [String(v)]. *)
Fixpoint js_String (v : value) : string :=
  match v with
  | VUndefined => "undefined"
  | VNull => "null"
  | VBool b => if b then "true" else "false"
  | VNum n =>
      if (Z.abs n <? 10 ^ 21)%Z then string_of_Z n else Number_toString J n
  | VStr s => s
  | VDate ms => Date_toString J ms
  | VArr xs =>
      join ","
        (map (fun x => match x with
                       | VUndefined | VNull => EmptyString
                       | _ => js_String x
                       end) xs)
  | VObj _ => "[object Object]"
  | VOther repr => repr
  end.

(** The code units that [String.prototype.trim] strips, among the code
    units below 256 that a character of the model denotes. *)
Definition is_js_whitespace (c : ascii) : bool :=
  existsb (Nat.eqb (nat_of_ascii c)) [9; 10; 11; 12; 13; 32; 160]%nat.

(** [s.trim() === ''] *)
Definition trims_to_empty (s : string) : bool :=
  forallb is_js_whitespace (list_ascii_of_string s).

(** [new Set(names).size] *)
Definition set_size (names : list string) : nat :=
  List.length (nodup string_dec names).

Definition validateTableSchema (schema : TableSchema) : res unit :=
  match tbl_name schema with
  | None => inl (Error "Table name cannot be empty")
  | Some name =>
      if (name =? EmptyString) || trims_to_empty name
      then inl (Error "Table name cannot be empty")
      else
        match tbl_columns schema with
        | None | Some [] => inl (Error "Table must have at least one column")
        | Some columns =>
            if negb (existsb col_primary columns)
            then inl (Error ("Table '" ++ name
                             ++ "' must have at least one primary key column"))
            else
              let columnNames := map col_name columns in
              if negb (Nat.eqb (List.length columnNames) (set_size columnNames))
              then inl (Error ("Table '" ++ name
                               ++ "' has duplicate column names"))
              else inr tt
        end
  end.

(** [getSQLiteDataType] on the six column types of the schema.  On any
    other value the [default] branch of its [switch] throws; [createTable]
    accounts for that throw through its [buildQuery]. *)
Definition getSQLiteDataType (column : ColumnsSchema) : string :=
  match col_type column with
  | TNumber => "INTEGER"
  | TFloat => "REAL"
  | TDate | TBoolean => "INTEGER"
  | TString | TJson => "TEXT"
  end.

(** [formatDefaultValue] where [JSON.stringify] and [String] return a
    text.  Where one of them throws (a [BigInt] or a cycle in a default of
    a json column) the throw leaves [buildCreateTableQuery]; [createTable]
    accounts for it through its [buildQuery]. *)
Definition formatDefaultValue (defaultValue : value) (type : column_type)
  : string :=
  match defaultValue with
  | VNull => "NULL"
  | _ =>
      match type with
      | TString | TJson =>
          if typeof_object defaultValue
          then "'" ++ JSON_stringify J defaultValue ++ "'"
          else "'" ++ js_String defaultValue ++ "'"
      | TBoolean => if truthy defaultValue then "1" else "0"
      | TDate =>
          match defaultValue with
          | VDate ms => string_of_Z ms
          | _ => js_String defaultValue
          end
      | TNumber | TFloat => js_String defaultValue
      end
  end.

(** The [constraints] array of [buildColumnConstraints]. *)
Definition columnConstraints (column : ColumnsSchema) : list string :=
  ((if col_primary column then ["PRIMARY KEY"] else [])
   ++ (if column_type_eqb (col_type column) TNumber && col_autoIncrement column
       then ["AUTOINCREMENT"] else [])
   ++ (if negb (col_nullable column) && negb (col_primary column)
       then ["NOT NULL"] else [])
   ++ (if col_unique column && negb (col_primary column)
       then ["UNIQUE"] else [])
   ++ (match col_default column with
       | VUndefined => []
       | d => [("DEFAULT " ++ formatDefaultValue d (col_type column))%string]
       end))%list.

Definition buildColumnConstraints (column : ColumnsSchema) : string :=
  match columnConstraints column with
  | [] => EmptyString
  | constraints => " " ++ join " " constraints
  end.

Definition buildColumnDefinition (column : ColumnsSchema) : string :=
  col_name column ++ " " ++ getSQLiteDataType column
  ++ buildColumnConstraints column.

(** The text that [buildCreateTableQuery] returns when it returns, on a
    table whose name and columns are present. *)
Definition buildCreateTableQuery (name : string) (columns : list ColumnsSchema)
  : string :=
  "CREATE TABLE IF NOT EXISTS " ++ name ++ " ("
  ++ join ", " (map buildColumnDefinition columns) ++ ")".

End Ddl.


(* ===================================================================== *)
(** * 6. The storage engine and the monad of the facade *)
(* ===================================================================== *)

(** What the facade asks of [bun:sqlite]. *)
Inductive call : Type :=
| Prepare (sql : string)
| StmtAll (sql : string) (params : list value)
| StmtGet (sql : string) (params : list value)
| StmtRun (sql : string) (params : list value)
| Finalize (sql : string)
| TxBegin
| TxCommit
| TxRollback.

Inductive reply : Type :=
| Done
| Rows (rows : list obj)
| Row (row : value)
| Changes (lastInsertRowid : Z).

(** The engine is external: a state and a transition that answers each
    call with a reply or a thrown error. *)
Record Engine : Type := {
  db : Type;
  exec : db -> call -> db * (error + reply)
}.

Inductive outcome (A : Type) : Type :=
| Ok (a : A)
| Throw (e : error)
| Diverge.
Arguments Ok {A} a.
Arguments Throw {A} e.
Arguments Diverge {A}.

(** State passing with exceptions and divergence. *)
Definition M (S A : Type) : Type := S -> S * outcome A.

Definition ret {S A : Type} (a : A) : M S A := fun s => (s, Ok a).

Definition bind {S A B : Type} (m : M S A) (f : A -> M S B) : M S B :=
  fun s =>
    match m s with
    | (s', Ok a) => f a s'
    | (s', Throw e) => (s', Throw e)
    | (s', Diverge) => (s', Diverge)
    end.

Definition throw {S A : Type} (e : error) : M S A := fun s => (s, Throw e).

Definition diverge {S A : Type} : M S A := fun s => (s, Diverge).

(** [try { m } catch (e) { h e }] *)
Definition try_catch {S A : Type} (m : M S A) (h : error -> M S A) : M S A :=
  fun s =>
    match m s with
    | (s', Throw e) => h e s'
    | r => r
    end.

Definition lift_res {S A : Type} (r : res A) : M S A :=
  match r with
  | inl e => throw e
  | inr a => ret a
  end.

(** A computation on the first component of a larger state. *)
Definition on_fst {S X A : Type} (m : M S A) : M (S * X) A :=
  fun sx => let (s', r) := m (fst sx) in ((s', snd sx), r).

Definition modify_snd {S X : Type} (f : X -> X) : M (S * X) unit :=
  fun sx => ((fst sx, f (snd sx)), Ok tt).

Declare Scope js_scope.
Delimit Scope js_scope with js.
Notation "x <- m ;; k" := (bind m (fun x => k))
  (at level 61, m at next level, right associativity) : js_scope.
Notation "m ;;; k" := (bind m (fun _ => k))
  (at level 61, right associativity) : js_scope.

(** [for (const x of xs) body(x)] *)
Fixpoint for_each {S A : Type} (xs : list A) (body : A -> M S unit) : M S unit :=
  match xs with
  | [] => ret tt
  | x :: rest => bind (body x) (fun _ => for_each rest body)
  end.

(** [Table.chunk]: the loop [for (i = 0; i < array.length; i += size)].  On
    a non-empty array it ends only when [size] is positive. *)
Fixpoint chunk_loop {A : Type} (fuel : nat) (array : list A) (size : nat)
  : list (list A) :=
  match fuel with
  | O => []
  | S f =>
      match array with
      | [] => []
      | _ => firstn size array :: chunk_loop f (skipn size array) size
      end
  end.

Definition chunk {A : Type} (array : list A) (size : Z) : option (list (list A)) :=
  match array with
  | [] => Some []
  | _ =>
      if (size <=? 0)%Z then None
      else Some (chunk_loop (List.length array) array (Z.to_nat size))
  end.

(* ===================================================================== *)
(** * 7. The table facade ([class Table]) *)
(* ===================================================================== *)

Section Facade.

Variable E : Engine.
Variable J : Runtime.

Local Open Scope js_scope.

(** The connection together with the log of every call made on it. *)
Record world : Type := { w_db : db E; w_log : list call }.

Definition T (A : Type) : Type := M world A.

(** Every path to the engine goes through here. *)
Definition engine (c : call) : T reply :=
  fun w =>
    let (d', r) := exec E (w_db w) c in
    let w' := {| w_db := d'; w_log := (w_log w ++ [c])%list |} in
    match r with
    | inl e => (w', Throw e)
    | inr rep => (w', Ok rep)
    end.

Definition prepare (sql : string) : T unit :=
  engine (Prepare sql) ;;; ret tt.

Definition finalize (sql : string) : T unit :=
  engine (Finalize sql) ;;; ret tt.

Definition stmt_all (sql : string) (params : list value) : T (list obj) :=
  r <- engine (StmtAll sql params) ;;
  ret (match r with Rows rows => rows | _ => [] end).

Definition stmt_get (sql : string) (params : list value) : T value :=
  r <- engine (StmtGet sql params) ;;
  ret (match r with Row row => row | _ => VNull end).

Definition stmt_run (sql : string) (params : list value) : T Z :=
  r <- engine (StmtRun sql params) ;;
  ret (match r with Changes rowid => rowid | _ => 0%Z end).

(** [db.transaction(fn)(...)]: [BEGIN], the body, [COMMIT]; on a throw
    [ROLLBACK] and the throw again. *)
Definition transaction {S A : Type} (lift : forall B, T B -> M S B)
  (body : M S A) : M S A :=
  lift _ (engine TxBegin) ;;;
  try_catch
    (a <- body ;; lift _ (engine TxCommit) ;;; ret a)
    (fun ex => lift _ (engine TxRollback) ;;; throw ex).

Definition is_locked (e : error) : bool :=
  (err_name e =? "SQLiteError")
  && includes (err_message e) "database is locked".

(** The [while (retries < maxRetries)] loop of [executeWithErrorWrapper];
    [attemptsLeft] is [maxRetries - retries]. *)
Fixpoint retryLoop {S A : Type} (attemptsLeft : nat) (callback : M S A)
  : M S A :=
  match attemptsLeft with
  | O => throw (Error "Unexpected error in executeWithErrorWrapper")
  | S n =>
      try_catch callback
        (fun lastError =>
           if is_locked lastError
           then if Nat.eqb n 0
                then throw (Error "Database is locked after multiple retry attempts")
                else retryLoop n callback
           else throw lastError)
  end.

Definition executeWithErrorWrapper {S A : Type} (callback : M S A) : M S A :=
  retryLoop 3 callback.

Variable tableName : string.
Variable schema : list ColumnsSchema.

(** ** Options *)

Record SelectOptions : Type := {
  so_where : option obj;
  so_select : option obj;
  so_limit : option Z;
  so_skip : option Z
}.

Record UpdateOptions : Type := {
  uo_where : option obj;
  uo_values : option obj
}.

Record PaginateOptions : Type := {
  po_page : Z;
  po_pageSize : Z;
  po_where : option obj;
  po_select : option obj;
  po_orderBy : option (string * option string)
}.

Record Page : Type := {
  pg_data : list obj;
  pg_total : value;
  pg_page : Z;
  pg_pageSize : Z;
  pg_totalPages : option Z
}.

(** [n && n < 0] for an optional number. *)
Definition negative_option (n : option Z) : bool :=
  match n with
  | Some z => negb (z =? 0)%Z && (z <? 0)%Z
  | None => false
  end.

Definition validateSelectOptions (options : SelectOptions) : res unit :=
  if negative_option (so_limit options)
  then inl (Error "Limit must be a positive number")
  else if negative_option (so_skip options)
  then inl (Error "Skip must be a positive number")
  else inr tt.

Definition validateUpdateOptions (options : UpdateOptions) : res unit :=
  match uo_values options with
  | None | Some [] => inl (Error "Update values cannot be empty")
  | Some _ =>
      match uo_where options with
      | None =>
          inl (Error "Update operation requires a WHERE clause for safety")
      | Some where_ =>
          if negb (hasValidWhereConditions where_)
          then inl (Error "Update operation requires a non-empty WHERE clause for safety")
          else inr tt
      end
  end.

Definition validateDeleteOptions (where_ : option obj) : res unit :=
  match where_ with
  | None => inl (Error "Delete operation requires a WHERE clause for safety")
  | Some where_ =>
      if negb (hasValidWhereConditions where_)
      then inl (Error "Delete operation requires a non-empty WHERE clause for safety")
      else inr tt
  end.

(** ** Query building *)

Definition truthy_number (n : option Z) : option Z :=
  match n with
  | Some z => if (z =? 0)%Z then None else Some z
  | None => None
  end.

Definition buildSelectQuery (options : SelectOptions) : res string :=
  let columns :=
    match so_select options with
    | None => "*"
    | Some sel =>
        join ", " (filter (fun col => truthy (get sel col)) (map fst sel))
    end in
  res_bind
    (match so_where options with
     | Some where_ =>
         res_bind (buildWhereClause where_) (fun w => inr (" " ++ w))
     | None => inr EmptyString
     end)
    (fun wherePart =>
       inr ("SELECT " ++ columns ++ " FROM " ++ tableName ++ wherePart
            ++ match truthy_number (so_limit options) with
               | Some l => " LIMIT " ++ string_of_Z l
               | None => EmptyString
               end
            ++ match truthy_number (so_skip options) with
               | Some k => " OFFSET " ++ string_of_Z k
               | None => EmptyString
               end)).

Definition extractQueryParameters (where_ : option obj) : res (list value) :=
  match where_ with
  | None => inr []
  | Some where_ => extractWhereParameters J where_
  end.

(** The guard "Handle empty OR conditions" on an optional [where]. *)
Definition whereHasEmptyOr (where_ : option obj) : bool :=
  match where_ with
  | Some where_ => hasEmptyOr where_
  | None => false
  end.

(** ** Reads *)

Definition select (options : SelectOptions) : T (list obj) :=
  lift_res (validateSelectOptions options) ;;;
  if whereHasEmptyOr (so_where options) then ret []
  else
    queryString <- lift_res (buildSelectQuery options) ;;
    params <- lift_res (extractQueryParameters (so_where options)) ;;
    executeWithErrorWrapper
      (prepare queryString ;;;
       results <- stmt_all queryString params ;;
       finalize queryString ;;;
       ret (map (restoreDataTypes J schema) results)).

Definition countQueryOf (where_ : option obj) : res (string * list value) :=
  match where_ with
  | Some where_ =>
      res_bind (buildWhereClause where_) (fun w =>
      res_bind (extractWhereParameters J where_) (fun params =>
      inr ("SELECT COUNT(*) as count FROM " ++ tableName ++ " " ++ w, params)))
  | None => inr ("SELECT COUNT(*) as count FROM " ++ tableName, [])
  end.

Definition count (where_ : option obj) : T value :=
  if whereHasEmptyOr where_ then ret (VNum 0)
  else
    qp <- lift_res (countQueryOf where_) ;;
    result <- executeWithErrorWrapper
                (prepare (fst qp) ;;;
                 result <- stmt_get (fst qp) (snd qp) ;;
                 finalize (fst qp) ;;;
                 ret result) ;;
    lift_res (getProp result "count").

(** [Math.ceil(total / pageSize)] where it is a finite number. *)
Definition totalPagesOf (total : value) (pageSize : Z) : option Z :=
  match total with
  | VNum t => if (pageSize =? 0)%Z then None else Some (- ((- t) / pageSize))%Z
  | _ => None
  end.

Definition paginate (options : PaginateOptions) : T Page :=
  let page := po_page options in
  let pageSize := po_pageSize options in
  let offset := ((page - 1) * pageSize)%Z in
  qp <- lift_res (countQueryOf (po_where options)) ;;
  total <- executeWithErrorWrapper
             (prepare (fst qp) ;;;
              result <- stmt_get (fst qp) (snd qp) ;;
              finalize (fst qp) ;;;
              lift_res (getProp result "count")) ;;
  let selectOptions :=
    {| so_where := po_where options; so_select := po_select options;
       so_limit := None; so_skip := None |} in
  query0 <- lift_res (buildSelectQuery selectOptions) ;;
  let query :=
    query0
    ++ match po_orderBy options with
       | Some (column, direction) =>
           " ORDER BY " ++ column ++ " "
           ++ match direction with
              | Some d => if d =? EmptyString then "ASC" else d
              | None => "ASC"
              end
       | None => EmptyString
       end
    ++ " LIMIT " ++ string_of_Z pageSize ++ " OFFSET " ++ string_of_Z offset in
  params <- lift_res (extractQueryParameters (po_where options)) ;;
  data <- executeWithErrorWrapper
            (prepare query ;;;
             results <- stmt_all query params ;;
             finalize query ;;;
             ret (map (restoreDataTypes J schema) results)) ;;
  ret {| pg_data := data; pg_total := total; pg_page := page;
         pg_pageSize := pageSize;
         pg_totalPages := totalPagesOf total pageSize |}.

(** ** Writes *)

Definition insertQuery (columns : list string) : string :=
  "INSERT INTO " ++ tableName ++ " (" ++ join ", " columns ++ ") VALUES ("
  ++ join ", " (map (fun _ => "?") columns) ++ ")".

(** The loop body shared by [insert], [bulkInsert] and [upsert]: format
    the record against [columns], then run the prepared statement. *)
Definition runRecord (queryString : string) (columns : list string)
  (record : value) : T Z :=
  formattedValues <- lift_res (formatRecordValuesForInsert J record columns) ;;
  stmt_run queryString formattedValues.

Definition insert (records : list value) : T unit :=
  match records with
  | [] => throw (Error "No records provided for insertion")
  | sampleRecord :: _ =>
      columns <- lift_res (objectKeys sampleRecord) ;;
      let queryString := insertQuery columns in
      executeWithErrorWrapper
        (prepare queryString ;;;
         transaction (fun _ m => m)
           (for_each records (fun record =>
              runRecord queryString columns record ;;; ret tt)) ;;;
         finalize queryString)
  end.

(** [bulkInsert]; the array [insertedIds] lives outside the retried
    callback, so it is a second component of the state. *)
Definition bulkInsert (records : list value) (batchSize : Z) : T (list Z) :=
  match records with
  | [] => throw (Error "No records provided for bulk insertion")
  | sampleRecord :: _ =>
      match chunk records batchSize with
      | None => diverge
      | Some batches =>
          fun w =>
            let '((w', _), r) :=
              executeWithErrorWrapper
                (columns <- lift_res (objectKeys sampleRecord) ;;
                 let queryString := insertQuery columns in
                 on_fst (prepare queryString) ;;;
                 for_each batches (fun batch =>
                   transaction (fun _ m => on_fst m)
                     (for_each batch (fun record =>
                        rowid <- on_fst (runRecord queryString columns record) ;;
                        modify_snd (fun ids => (ids ++ [rowid])%list)))) ;;;
                 on_fst (finalize queryString) ;;;
                 fun s => (s, Ok (snd s)))
                (w, @nil Z) in
            (w', r)
      end
  end.

Definition newline : string := String (ascii_of_nat 10) EmptyString.

Definition upsertQuery (columns conflictColumns : list string)
  (updateColumns : option (list string)) : string :=
  let conflictCols := join ", " conflictColumns in
  let excluded := fun col => col ++ " = excluded." ++ col in
  let updateCols :=
    match updateColumns with
    | Some ucs => join ", " (map excluded ucs)
    | None =>
        join ", "
          (map excluded
             (filter (fun col => negb (existsb (String.eqb col) conflictColumns))
                     columns))
    end in
  newline ++ "      INSERT INTO " ++ tableName ++ " (" ++ join ", " columns ++ ")"
  ++ newline ++ "      VALUES (" ++ join ", " (map (fun _ => "?") columns) ++ ")"
  ++ newline ++ "      ON CONFLICT(" ++ conflictCols ++ ") DO UPDATE SET "
  ++ updateCols ++ newline ++ "    ".

Definition upsert (records : list value) (conflictColumns : list string)
  (updateColumns : option (list string)) : T unit :=
  match records with
  | [] => throw (Error "No records provided for upsert")
  | sampleRecord :: _ =>
      columns <- lift_res (objectKeys sampleRecord) ;;
      let queryString := upsertQuery columns conflictColumns updateColumns in
      executeWithErrorWrapper
        (prepare queryString ;;;
         transaction (fun _ m => m)
           (for_each records (fun record =>
              runRecord queryString columns record ;;; ret tt)) ;;;
         finalize queryString)
  end.

Definition update (options : UpdateOptions) : T unit :=
  lift_res (validateUpdateOptions options) ;;;
  match uo_where options, uo_values options with
  | Some where_, Some vals =>
      w <- lift_res (buildWhereClause where_) ;;
      let queryString :=
        "UPDATE " ++ tableName ++ " SET "
        ++ join ", " (map (fun key => key ++ " = ?") (map fst vals))
        ++ " " ++ w in
      let setParams := parseParameters J (map snd vals) in
      whereParams <- lift_res (extractWhereParameters J where_) ;;
      let allParams := (setParams ++ whereParams)%list in
      executeWithErrorWrapper
        (prepare queryString ;;;
         stmt_run queryString allParams ;;;
         finalize queryString)
  | _, _ => ret tt
  end.

Definition delete (where_ : option obj) : T unit :=
  lift_res (validateDeleteOptions where_) ;;;
  match where_ with
  | Some where_ =>
      if hasEmptyOr where_ then ret tt
      else
        w <- lift_res (buildWhereClause where_) ;;
        let queryString := "DELETE FROM " ++ tableName ++ " " ++ w in
        params <- lift_res (extractWhereParameters J where_) ;;
        executeWithErrorWrapper
          (prepare queryString ;;;
           stmt_run queryString params ;;;
           finalize queryString)
  | None => ret tt
  end.

(** ** JSON import *)

Inductive ConflictResolution : Type := Replace | Ignore | Fail.

Record ImportOptions : Type := {
  io_conflictResolution : option ConflictResolution;
  io_batchSize : option Z;
  io_validateSchema : option bool
}.

Record ImportStats : Type := {
  imported : Z;
  skipped : Z;
  errors : list string
}.

Definition add_imported (n : Z) (st : ImportStats) : ImportStats :=
  {| imported := imported st + n; skipped := skipped st; errors := errors st |}.

Definition add_skipped (n : Z) (st : ImportStats) : ImportStats :=
  {| imported := imported st; skipped := skipped st + n; errors := errors st |}.

Definition push_error (msg : string) (st : ImportStats) : ImportStats :=
  {| imported := imported st; skipped := skipped st;
     errors := (errors st ++ [msg])%list |}.

(** [this.schema.find(col => col.primary)?.name], when truthy. *)
Definition primaryKeyCol : option string :=
  match find col_primary schema with
  | Some col => if col_name col =? EmptyString then None else Some (col_name col)
  | None => None
  end.

(** The inner [try] block of the batch loop. *)
Definition importBatch (conflictResolution : ConflictResolution)
  (batch : list value) : M (world * ImportStats) unit :=
  match conflictResolution with
  | Replace =>
      match primaryKeyCol with
      | Some pk => on_fst (upsert batch [pk] None)
      | None => on_fst (insert batch)
      end
  | _ => on_fst (insert batch)
  end ;;;
  modify_snd (add_imported (Z.of_nat (List.length batch))).

(** The message of the [SyntaxError] of [JSON.parse] is the engine's. *)
Definition json_SyntaxError : error := SyntaxError "JSON Parse error".

Definition importFromJson (jsonData : value) (options : ImportOptions)
  : T ImportStats :=
  let conflictResolution :=
    match io_conflictResolution options with Some c => c | None => Ignore end in
  let batchSize :=
    match io_batchSize options with Some b => b | None => 1000%Z end in
  fun w =>
    let '((w', _), r) :=
      try_catch
        (data <- match jsonData with
                 | VStr text =>
                     match JSON_parse J text with
                     | Some v => ret v
                     | None => throw json_SyntaxError
                     end
                 | _ => ret jsonData
                 end ;;
         rows <- lift_res (getProp data "data") ;;
         match rows with
         | VArr elements =>
             match chunk elements batchSize with
             | None => diverge
             | Some batches =>
                 for_each batches (fun batch =>
                   try_catch (importBatch conflictResolution batch)
                     (fun error =>
                        match conflictResolution with
                        | Fail => throw error
                        | _ =>
                            modify_snd (push_error
                              ("Batch error: " ++ error_to_string error)) ;;;
                            modify_snd
                              (add_skipped (Z.of_nat (List.length batch)))
                        end)) ;;;
                 fun s => (s, Ok (snd s))
             end
         | _ => throw (Error "Invalid JSON format: expected 'data' array")
         end)
        (fun error =>
           modify_snd (push_error ("Import failed: " ++ error_to_string error)) ;;;
           fun s => (s, Ok (snd s)))
        (w, {| imported := 0; skipped := 0; errors := [] |}) in
    (w', r).

(** ** [DatabaseManager.createTable] *)

(** [buildQuery] stands for [this.buildCreateTableQuery]: it returns the
    text of the statement or throws (an unsupported column type, a default
    value that does not print), and it is called before the [try]. *)
Definition createTable (buildQuery : TableSchema -> res string)
  (tableSchema : TableSchema) : T unit :=
  lift_res (validateTableSchema tableSchema) ;;;
  queryString <- lift_res (buildQuery tableSchema) ;;
  try_catch
    (prepare queryString ;;;
     stmt_run queryString [] ;;;
     finalize queryString)
    (fun error =>
       throw (Error ("Failed to create table '"
                     ++ match tbl_name tableSchema with
                        | Some name => name
                        | None => "undefined"
                        end
                     ++ "': " ++ error_to_string error))).

End Facade.

(** [buildCreateTableQuery] where its columns all have a supported type and
    a default value that prints: it returns the text of the statement.
    Without columns [schema.columns.map] throws. *)
Definition printedCreateTableQuery (J : Runtime) (tableSchema : TableSchema)
  : res string :=
  match tbl_columns tableSchema with
  | Some columns =>
      inr (buildCreateTableQuery J
             match tbl_name tableSchema with
             | Some name => name
             | None => "undefined"
             end
             columns)
  | None => inl nullish_TypeError
  end.

(** Engines for concrete runs: each answers every call with a reply of its
    kind and counts the calls; [rejectingEngine] refuses every [run] the
    way a violated constraint does. *)
Definition quietReply (n : nat) (c : call) : reply :=
  match c with
  | StmtAll _ _ => Rows []
  | StmtGet _ _ => Row (VObj [("count", VNum 0)])
  | StmtRun _ _ => Changes (Z.of_nat n)
  | _ => Done
  end.

Definition quietEngine : Engine :=
  {| db := nat; exec := fun n c => (S n, inr (quietReply n c)) |}.

Definition rejectingEngine : Engine :=
  {| db := nat;
     exec := fun n c =>
       match c with
       | StmtRun _ _ =>
           (S n, inl (SQLiteError "UNIQUE constraint failed: Users.id"))
       | _ => (S n, inr (quietReply n c))
       end |}.

(* ===================================================================== *)
(** * 8. The connection pool ([class AdvancedConnectionPool]) *)
(* ===================================================================== *)

Module Pool.

(** Connection ids are the strings [conn_<time>_<uuid>]; only their
    identity matters, so a number stands for each. *)
Definition ident : Type := nat.

Record PoolConfig : Type := {
  maxConnections : nat;
  minConnections : nat;
  acquireTimeout : Z;
  idleTimeout : Z;
  reapInterval : Z;
  maxConnectionAge : Z
}.

Definition defaultConfig : PoolConfig :=
  {| maxConnections := 10; minConnections := 2; acquireTimeout := 10000;
     idleTimeout := 30000; reapInterval := 10000;
     maxConnectionAge := 3600000 |}.

Record PooledConnection : Type := {
  id : ident;
  createdAt : Z;
  lastUsed : Z;
  inUse : bool;
  queryCount : nat;
  errorCount : nat
}.

(** The counters of [PoolStats]; the two averages are floating-point
    quotients of other fields and are left out. *)
Record PoolStats : Type := {
  totalConnections : nat;
  activeConnections : nat;
  idleConnections : nat;
  waitingClients : nat;
  totalCreated : nat;
  totalDestroyed : nat;
  totalAcquired : nat;
  totalReleased : nat;
  totalErrors : nat
}.

(** An entry of [waitingQueue]; [promise] is the identity of its
    [resolve] function. *)
Record Waiter : Type := { promise : nat; timestamp : Z }.

(** An [acquire] suspended at [await this.createConnection()]: the id of
    the connection it created, or [None] when opening the database threw. *)
Record PendingCreate : Type := {
  pc_promise : nat;
  pc_startTime : Z;
  pc_created : option ident
}.

(** Why a promise of [acquire] was rejected. *)
Inductive rejection : Type :=
| AcquireTimeout
| PoolClosing
| CreateFailed.

(** The message of the [Error] a rejection carries ([CreateFailed] is
    followed by the text of the engine's own error). *)
Definition rejection_message (r : rejection) : string :=
  match r with
  | AcquireTimeout => "Connection acquire timeout"
  | PoolClosing => "Pool is closing"
  | CreateFailed => "Failed to create connection: "
  end.

(** The pool.  [connections] is the [Map] in insertion order; the
    statement cache and the result cache take no part in the properties
    below and are left out.  The last
    five fields are not data of the class: [nextPromise] numbers the
    promises that [acquire] allocates, [pending] holds the suspended
    continuations, and the three logs record, in order, the waiters pushed
    and the promises settled. *)
Record pool : Type := {
  connections : list PooledConnection;
  availableConnections : list ident;
  waitingQueue : list Waiter;
  stats : PoolStats;
  acquireTimes : list Z;
  nextPromise : nat;
  pending : list PendingCreate;
  enqueued : list nat;
  resolved : list (nat * ident);
  rejected : list (nat * rejection)
}.

Definition emptyStats : PoolStats :=
  {| totalConnections := 0; activeConnections := 0; idleConnections := 0;
     waitingClients := 0; totalCreated := 0; totalDestroyed := 0;
     totalAcquired := 0; totalReleased := 0; totalErrors := 0 |}.

Definition newPool : pool :=
  {| connections := []; availableConnections := []; waitingQueue := [];
     stats := emptyStats; acquireTimes := []; nextPromise := 0;
     pending := []; enqueued := []; resolved := []; rejected := [] |}.

(** ** The [Map] of connections *)

Definition conn_get (cs : list PooledConnection) (i : ident)
  : option PooledConnection :=
  find (fun c => Nat.eqb (id c) i) cs.

Definition conn_has (cs : list PooledConnection) (i : ident) : bool :=
  existsb (fun c => Nat.eqb (id c) i) cs.

(** [Map.set]: an existing key keeps its place. *)
Fixpoint conn_set (cs : list PooledConnection) (c : PooledConnection)
  : list PooledConnection :=
  match cs with
  | [] => [c]
  | c' :: rest =>
      if Nat.eqb (id c') (id c) then c :: rest else c' :: conn_set rest c
  end.

Definition conn_delete (cs : list PooledConnection) (i : ident)
  : list PooledConnection :=
  filter (fun c => negb (Nat.eqb (id c) i)) cs.

(** A write through the shared connection object: it reaches the entry of
    the map when the object is still in it. *)
Definition conn_update (cs : list PooledConnection) (i : ident)
  (f : PooledConnection -> PooledConnection) : list PooledConnection :=
  map (fun c => if Nat.eqb (id c) i then f c else c) cs.

Definition set_inUse (b : bool) (c : PooledConnection) : PooledConnection :=
  {| id := id c; createdAt := createdAt c; lastUsed := lastUsed c;
     inUse := b; queryCount := queryCount c; errorCount := errorCount c |}.

Definition set_lastUsed (t : Z) (c : PooledConnection) : PooledConnection :=
  {| id := id c; createdAt := createdAt c; lastUsed := t;
     inUse := inUse c; queryCount := queryCount c; errorCount := errorCount c |}.

(** [xs.splice(xs.indexOf(i), 1)] when the index is not [-1]. *)
Fixpoint remove_first (i : ident) (xs : list ident) : list ident :=
  match xs with
  | [] => []
  | x :: rest => if Nat.eqb x i then rest else x :: remove_first i rest
  end.

(** ** Field updates *)

Definition with_connections (cs : list PooledConnection) (p : pool) : pool :=
  {| connections := cs; availableConnections := availableConnections p;
     waitingQueue := waitingQueue p; stats := stats p;
     acquireTimes := acquireTimes p; nextPromise := nextPromise p;
     pending := pending p; enqueued := enqueued p; resolved := resolved p;
     rejected := rejected p |}.

Definition with_available (av : list ident) (p : pool) : pool :=
  {| connections := connections p; availableConnections := av;
     waitingQueue := waitingQueue p; stats := stats p;
     acquireTimes := acquireTimes p; nextPromise := nextPromise p;
     pending := pending p; enqueued := enqueued p; resolved := resolved p;
     rejected := rejected p |}.

Definition with_waitingQueue (q : list Waiter) (p : pool) : pool :=
  {| connections := connections p;
     availableConnections := availableConnections p;
     waitingQueue := q; stats := stats p;
     acquireTimes := acquireTimes p; nextPromise := nextPromise p;
     pending := pending p; enqueued := enqueued p; resolved := resolved p;
     rejected := rejected p |}.

Definition with_stats (st : PoolStats) (p : pool) : pool :=
  {| connections := connections p;
     availableConnections := availableConnections p;
     waitingQueue := waitingQueue p; stats := st;
     acquireTimes := acquireTimes p; nextPromise := nextPromise p;
     pending := pending p; enqueued := enqueued p; resolved := resolved p;
     rejected := rejected p |}.

Definition with_acquireTimes (ts : list Z) (p : pool) : pool :=
  {| connections := connections p;
     availableConnections := availableConnections p;
     waitingQueue := waitingQueue p; stats := stats p;
     acquireTimes := ts; nextPromise := nextPromise p;
     pending := pending p; enqueued := enqueued p; resolved := resolved p;
     rejected := rejected p |}.

Definition with_pending (pd : list PendingCreate) (p : pool) : pool :=
  {| connections := connections p;
     availableConnections := availableConnections p;
     waitingQueue := waitingQueue p; stats := stats p;
     acquireTimes := acquireTimes p; nextPromise := nextPromise p;
     pending := pd; enqueued := enqueued p; resolved := resolved p;
     rejected := rejected p |}.

(** Allocating the promise of one [acquire] call. *)
Definition alloc_promise (p : pool) : pool :=
  {| connections := connections p;
     availableConnections := availableConnections p;
     waitingQueue := waitingQueue p; stats := stats p;
     acquireTimes := acquireTimes p; nextPromise := S (nextPromise p);
     pending := pending p; enqueued := enqueued p; resolved := resolved p;
     rejected := rejected p |}.

Definition log_enqueued (w : nat) (p : pool) : pool :=
  {| connections := connections p;
     availableConnections := availableConnections p;
     waitingQueue := waitingQueue p; stats := stats p;
     acquireTimes := acquireTimes p; nextPromise := nextPromise p;
     pending := pending p; enqueued := (enqueued p ++ [w])%list;
     resolved := resolved p; rejected := rejected p |}.

(** [resolve(connection)] of promise [w]. *)
Definition resolve (w : nat) (i : ident) (p : pool) : pool :=
  {| connections := connections p;
     availableConnections := availableConnections p;
     waitingQueue := waitingQueue p; stats := stats p;
     acquireTimes := acquireTimes p; nextPromise := nextPromise p;
     pending := pending p; enqueued := enqueued p;
     resolved := (resolved p ++ [(w, i)])%list; rejected := rejected p |}.

(** [reject(new Error(...))] of promise [w]. *)
Definition reject (w : nat) (msg : rejection) (p : pool) : pool :=
  {| connections := connections p;
     availableConnections := availableConnections p;
     waitingQueue := waitingQueue p; stats := stats p;
     acquireTimes := acquireTimes p; nextPromise := nextPromise p;
     pending := pending p; enqueued := enqueued p; resolved := resolved p;
     rejected := (rejected p ++ [(w, msg)])%list |}.

Definition bump (f : PoolStats -> PoolStats) (p : pool) : pool :=
  with_stats (f (stats p)) p.

Definition incCreated (s : PoolStats) : PoolStats :=
  {| totalConnections := totalConnections s;
     activeConnections := activeConnections s;
     idleConnections := idleConnections s;
     waitingClients := waitingClients s;
     totalCreated := S (totalCreated s); totalDestroyed := totalDestroyed s;
     totalAcquired := totalAcquired s; totalReleased := totalReleased s;
     totalErrors := totalErrors s |}.

Definition incDestroyed (s : PoolStats) : PoolStats :=
  {| totalConnections := totalConnections s;
     activeConnections := activeConnections s;
     idleConnections := idleConnections s;
     waitingClients := waitingClients s;
     totalCreated := totalCreated s; totalDestroyed := S (totalDestroyed s);
     totalAcquired := totalAcquired s; totalReleased := totalReleased s;
     totalErrors := totalErrors s |}.

Definition incAcquired (s : PoolStats) : PoolStats :=
  {| totalConnections := totalConnections s;
     activeConnections := activeConnections s;
     idleConnections := idleConnections s;
     waitingClients := waitingClients s;
     totalCreated := totalCreated s; totalDestroyed := totalDestroyed s;
     totalAcquired := S (totalAcquired s); totalReleased := totalReleased s;
     totalErrors := totalErrors s |}.

Definition incReleased (s : PoolStats) : PoolStats :=
  {| totalConnections := totalConnections s;
     activeConnections := activeConnections s;
     idleConnections := idleConnections s;
     waitingClients := waitingClients s;
     totalCreated := totalCreated s; totalDestroyed := totalDestroyed s;
     totalAcquired := totalAcquired s; totalReleased := S (totalReleased s);
     totalErrors := totalErrors s |}.

Definition incErrors (s : PoolStats) : PoolStats :=
  {| totalConnections := totalConnections s;
     activeConnections := activeConnections s;
     idleConnections := idleConnections s;
     waitingClients := waitingClients s;
     totalCreated := totalCreated s; totalDestroyed := totalDestroyed s;
     totalAcquired := totalAcquired s; totalReleased := totalReleased s;
     totalErrors := S (totalErrors s) |}.

(** ** Operations *)

Definition updateStats (p : pool) : pool :=
  let total := List.length (connections p) in
  let active := List.length (filter inUse (connections p)) in
  with_stats
    {| totalConnections := total;
       activeConnections := active;
       idleConnections := total - active;
       waitingClients := List.length (waitingQueue p);
       totalCreated := totalCreated (stats p);
       totalDestroyed := totalDestroyed (stats p);
       totalAcquired := totalAcquired (stats p);
       totalReleased := totalReleased (stats p);
       totalErrors := totalErrors (stats p) |} p.

Definition recordAcquireTime (time : Z) (p : pool) : pool :=
  let ts := (acquireTimes p ++ [time])%list in
  with_acquireTimes (if Nat.ltb 100 (List.length ts) then tl ts else ts) p.

(** [createConnection] once the database has opened; [uuid] is the id it
    draws. *)
Definition createConnection (now : Z) (uuid : ident) (p : pool) : pool :=
  let connection :=
    {| id := uuid; createdAt := now; lastUsed := now; inUse := false;
       queryCount := 0; errorCount := 0 |} in
  updateStats
    (bump incCreated
       (with_available (availableConnections p ++ [uuid])%list
          (with_connections (conn_set (connections p) connection) p))).

Definition destroyConnection (connectionId : ident) (p : pool) : pool :=
  match conn_get (connections p) connectionId with
  | None => p
  | Some _ =>
      updateStats
        (bump incDestroyed
           (with_available (remove_first connectionId (availableConnections p))
              (with_connections (conn_delete (connections p) connectionId) p)))
  end.

(** The executor of [acquire] up to its first suspension.  [opens] tells
    whether the database opens should a connection be created; the clock
    is read once per step. *)
Definition acquire (cfg : PoolConfig) (now : Z) (uuid : ident) (opens : bool)
  (p0 : pool) : pool :=
  let w := nextPromise p0 in
  let p := alloc_promise p0 in
  match availableConnections p with
  | connectionId :: rest =>
      let p1 := with_available rest p in
      match conn_get (connections p1) connectionId with
      | None => p1
      | Some _ =>
          resolve w connectionId
            (updateStats
               (recordAcquireTime 0
                  (bump incAcquired
                     (with_connections
                        (conn_update (connections p1) connectionId
                           (fun c => set_lastUsed now (set_inUse true c)))
                        p1))))
      end
  | [] =>
      if Nat.ltb (List.length (connections p)) (maxConnections cfg)
      then
        if opens
        then with_pending
               (pending p ++ [{| pc_promise := w; pc_startTime := now;
                                 pc_created := Some uuid |}])%list
               (createConnection now uuid p)
        else with_pending
               (pending p ++ [{| pc_promise := w; pc_startTime := now;
                                 pc_created := None |}])%list
               p
      else
        updateStats
          (log_enqueued w
             (with_waitingQueue
                (waitingQueue p ++ [{| promise := w; timestamp := now |}])%list
                p))
  end.

(** The continuation of the oldest [acquire] suspended at its [await]. *)
Definition resume (now : Z) (p : pool) : pool :=
  match pending p with
  | [] => p
  | pc :: rest =>
      let p1 := with_pending rest p in
      match pc_created pc with
      | Some connectionId =>
          resolve (pc_promise pc) connectionId
            (updateStats
               (recordAcquireTime (now - pc_startTime pc)
                  (bump incAcquired
                     (with_available (removelast (availableConnections p1))
                        (with_connections
                           (conn_update (connections p1) connectionId
                              (set_inUse true))
                           p1)))))
      | None => reject (pc_promise pc) CreateFailed (bump incErrors p1)
      end
  end.

Definition release (cfg : PoolConfig) (connectionId : ident) (now : Z)
  (p : pool) : pool :=
  match conn_get (connections p) connectionId with
  | None => p
  | Some connection =>
      let p1 :=
        bump incReleased
          (with_connections
             (conn_update (connections p) connectionId
                (fun c => set_lastUsed now (set_inUse false c)))
             p) in
      if (maxConnectionAge cfg <? now - createdAt connection)%Z
      then destroyConnection connectionId p1
      else
        match waitingQueue p1 with
        | waiter :: rest =>
            updateStats
              (resolve (promise waiter) connectionId
                 (recordAcquireTime (now - timestamp waiter)
                    (bump incAcquired
                       (with_connections
                          (conn_update (connections p1) connectionId
                             (fun c => set_lastUsed now (set_inUse true c)))
                          (with_waitingQueue rest p1)))))
        | [] =>
            updateStats
              (with_available (availableConnections p1 ++ [connectionId])%list
                 p1)
        end
  end.

(** [waitingQueue.splice(index, 1)] at the first entry of promise [w]. *)
Fixpoint remove_waiter (w : nat) (q : list Waiter) : list Waiter :=
  match q with
  | [] => []
  | x :: rest => if Nat.eqb (promise x) w then rest else x :: remove_waiter w rest
  end.

(** The timer callback that [acquire] sets for the waiter of promise [w]. *)
Definition timeout (w : nat) (p : pool) : pool :=
  if existsb (fun x => Nat.eqb (promise x) w) (waitingQueue p)
  then reject w AcquireTimeout
         (updateStats (with_waitingQueue (remove_waiter w (waitingQueue p)) p))
  else p.

Definition cleanupIdleConnections (cfg : PoolConfig) (now : Z) (p : pool)
  : pool :=
  let connectionsToDestroy :=
    map id
      (filter (fun connection =>
                 negb (inUse connection)
                 && (idleTimeout cfg <? now - lastUsed connection)%Z
                 && Nat.ltb (minConnections cfg) (List.length (connections p)))
              (connections p)) in
  fold_left (fun q i => destroyConnection i q) connectionsToDestroy p.

(** [healthy i] tells whether the probe [SELECT 1] on connection [i]
    returns. *)
Definition performHealthChecks (healthy : ident -> bool) (p : pool) : pool :=
  fold_left
    (fun q connection =>
       if negb (inUse connection) && negb (healthy (id connection))
       then destroyConnection (id connection) q
       else q)
    (connections p) p.

Definition close (p : pool) : pool :=
  let p1 :=
    fold_left (fun q waiter => reject (promise waiter) PoolClosing q)
              (waitingQueue p) p in
  with_available [] (with_connections [] (with_waitingQueue [] p1)).

(** ** The pool as a transition system *)

(** One step is one uninterrupted run of pool code: a call from outside, a
    timer callback, or the continuation of a suspended [acquire]. *)
Inductive event : Type :=
| Create (now : Z) (uuid : ident)
| Acquire (now : Z) (uuid : ident) (opens : bool)
| Resume (now : Z)
| Release (connectionId : ident) (now : Z)
| Timeout (w : nat)
| Reap (now : Z)
| HealthCheck (healthy : ident -> bool)
| GetStats
| Close.

Definition step (cfg : PoolConfig) (p : pool) (e : event) : pool :=
  match e with
  | Create now uuid => createConnection now uuid p
  | Acquire now uuid opens => acquire cfg now uuid opens p
  | Resume now => resume now p
  | Release connectionId now => release cfg connectionId now p
  | Timeout w => timeout w p
  | Reap now => cleanupIdleConnections cfg now p
  | HealthCheck healthy => performHealthChecks healthy p
  | GetStats => updateStats p
  | Close => close p
  end.

Definition run (cfg : PoolConfig) (p : pool) (es : list event) : pool :=
  fold_left (step cfg) es p.

(** The id an event draws for a new connection, if it creates one. *)
Definition draws (cfg : PoolConfig) (p : pool) (e : event) : option ident :=
  match e with
  | Create _ uuid => Some uuid
  | Acquire _ uuid true =>
      match availableConnections p with
      | [] => if Nat.ltb (List.length (connections p)) (maxConnections cfg)
              then Some uuid else None
      | _ => None
      end
  | _ => None
  end.

(** Ids are drawn fresh: a run is admissible when no event draws the id of
    a connection that is in the pool. *)
Fixpoint admissible (cfg : PoolConfig) (p : pool) (es : list event) : Prop :=
  match es with
  | [] => True
  | e :: rest =>
      match draws cfg p e with
      | Some uuid => conn_has (connections p) uuid = false
      | None => True
      end
      /\ admissible cfg (step cfg p e) rest
  end.

Definition is_close (e : event) : bool :=
  match e with Close => true | _ => false end.

(** ** The properties of the specification, in its words *)

(** Pool conservation. *)
Definition conservation (p : pool) : Prop :=
  (Z.of_nat (totalCreated (stats p)) - Z.of_nat (totalDestroyed (stats p))
   = Z.of_nat (List.length (connections p)))%Z
  /\ activeConnections (stats p) + idleConnections (stats p)
     = totalConnections (stats p)
  /\ totalConnections (stats p) = List.length (connections p)
  /\ waitingClients (stats p) = List.length (waitingQueue p).

(** [a] occurs before [b] in [l]. *)
Definition before {A : Type} (l : list A) (a b : A) : Prop :=
  exists l1 l2 l3, l = (l1 ++ a :: l2 ++ b :: l3)%list.

Definition resolvedPromises (p : pool) : list nat := map fst (resolved p).

Definition rejectedWith (r : rejection) (p : pool) : list nat :=
  map fst
    (filter (fun x => match snd x, r with
                      | AcquireTimeout, AcquireTimeout
                      | PoolClosing, PoolClosing
                      | CreateFailed, CreateFailed => true
                      | _, _ => false
                      end) (rejected p)).

(** ** Invariants *)

(** The first equation of conservation, on the counters alone. *)
Definition balanced (p : pool) : Prop :=
  (Z.of_nat (totalCreated (stats p)) - Z.of_nat (totalDestroyed (stats p))
   = Z.of_nat (List.length (connections p)))%Z.

Definition unique_ids (p : pool) : Prop := NoDup (map id (connections p)).

(** The invariant carried along a run. *)
Definition sound (p : pool) : Prop := unique_ids p /\ conservation p.

(** [remove_waiter] on the promise ids. *)
Fixpoint remove_id (w : nat) (q : list nat) : list nat :=
  match q with
  | [] => []
  | x :: rest => if Nat.eqb x w then rest else x :: remove_id w rest
  end.

(** ** The view of a pool that FIFO service depends on *)

Record view : Type := {
  v_next : nat;
  v_enqueued : list nat;
  v_pending : list nat;
  v_queue : list nat;
  v_resolved : list nat;
  v_timedOut : list nat;
  v_closedOut : list nat
}.

Definition view_of (p : pool) : view :=
  {| v_next := nextPromise p;
     v_enqueued := enqueued p;
     v_pending := map pc_promise (pending p);
     v_queue := map promise (waitingQueue p);
     v_resolved := resolvedPromises p;
     v_timedOut := rejectedWith AcquireTimeout p;
     v_closedOut := rejectedWith PoolClosing p |}.

Record fifo_inv (v : view) : Prop := {
  enq_below : Forall (fun w => w < v_next v) (v_enqueued v);
  pend_below : Forall (fun w => w < v_next v) (v_pending v);
  res_below : Forall (fun w => w < v_next v) (v_resolved v);
  pend_apart : forall w, In w (v_pending v) -> ~ In w (v_enqueued v);
  queue_sorted : StronglySorted lt (v_queue v);
  queue_enq : forall w, In w (v_queue v) -> In w (v_enqueued v);
  enq_accounted :
    forall w, In w (v_enqueued v) ->
      In w (v_queue v) \/ In w (v_resolved v)
      \/ In w (v_timedOut v) \/ In w (v_closedOut v);
  served_in_order :
    forall w1 w2,
      In w1 (v_enqueued v) -> In w2 (v_enqueued v) -> w1 < w2 ->
      In w2 (v_resolved v) ->
      before (v_resolved v) w1 w2
      \/ In w1 (v_timedOut v) \/ In w1 (v_closedOut v);
  enq_sorted : StronglySorted lt (v_enqueued v)
}.

(** ** Sample data for concrete runs *)

(** A pool of at most two connections. *)
Definition saturatedConfig : PoolConfig :=
  {| maxConnections := 2; minConnections := 0; acquireTimeout := 10000;
     idleTimeout := 30000; reapInterval := 10000;
     maxConnectionAge := 3600000 |}.

(** Two callers take the two connections, two more wait, and the
    connections are released one after the other. *)
Definition fairnessEvents : list event :=
  [ Acquire 0 10 true; Resume 0; Acquire 0 11 true; Resume 0;
    Acquire 1 12 true; Acquire 2 13 true;
    Release 10 5; Release 11 6 ].

End Pool.

(* ===================================================================== *)
(** * 9. The specification's own readings, for comparison with the code *)
(* ===================================================================== *)

(** ** Row codec *)

(** The encoding table of the specification, in its words: numbers and
    strings pass through, booleans become 0/1, dates their epoch, objects
    and arrays their JSON text, [null] and [undefined] become [NULL],
    anything else its string. *)
Definition spec_encode (J : Runtime) (v : value) : value :=
  match v with
  | VNum _ | VStr _ => v
  | VBool b => VNum (if b then 1 else 0)
  | VDate ms => VNum ms
  | VArr _ | VObj _ => VStr (JSON_stringify J v)
  | VNull | VUndefined => VNull
  | VOther repr => VStr repr
  end.

(** The values a column of each type holds, after [ColumnToType] and
    [JSONDataTypeToType] of [schema.ts]: a json column holds an object, an
    array, or a literal of a [Union] (a string or a number). *)
Definition logical_value (t : column_type) (v : value) : bool :=
  match t, v with
  | TNumber, VNum _ | TFloat, VNum _ => true
  | TString, VStr _ => true
  | TBoolean, VBool _ => true
  | TDate, VDate _ => true
  | TJson, VObj _ | TJson, VArr _ | TJson, VStr _ | TJson, VNum _ => true
  | _, _ => false
  end.

(** The values on which decoding undoes encoding. *)
Definition round_trips (J : Runtime) (t : column_type) (v : value) : Prop :=
  match t, v with
  | TNumber, VNum _ | TFloat, VNum _ => True
  | TString, VStr _ => True
  | TBoolean, VBool _ => True
  | TDate, VDate _ => True
  | TJson, VObj _ | TJson, VArr _ =>
      JSON_parse J (JSON_stringify J v) = Some v
  | TJson, VNum _ => True
  | TJson, VStr s => JSON_parse J s = None
  | _, _ => False
  end.

(** ** Schema validation *)

Definition autoinc_nonint (columns : list ColumnsSchema) : bool :=
  existsb (fun c => col_autoIncrement c
                    && negb (column_type_eqb (col_type c) TNumber))
          columns.

Definition name_is_blank (s : TableSchema) : bool :=
  match tbl_name s with
  | None => true
  | Some name => trims_to_empty name
  end.

Definition columns_of (s : TableSchema) : list ColumnsSchema :=
  match tbl_columns s with
  | None => []
  | Some columns => columns
  end.

(** ** Error taxonomy *)

Inductive error_kind : Type :=
| InvalidArgument
| MissingPredicate
| EmptyUpdate
| Unexpected.

(** The kind the specification gives to each message of the facade. *)
Definition kind_of (e : error) : error_kind :=
  let m := err_message e in
  if m =? "Update values cannot be empty" then EmptyUpdate
  else if (m =? "Update operation requires a WHERE clause for safety")
          || (m =? "Update operation requires a non-empty WHERE clause for safety")
          || (m =? "Delete operation requires a WHERE clause for safety")
          || (m =? "Delete operation requires a non-empty WHERE clause for safety")
  then MissingPredicate
  else if (m =? "Limit must be a positive number")
          || (m =? "Skip must be a positive number")
          || (m =? "No records provided for insertion")
          || (m =? "No records provided for bulk insertion")
          || (m =? "No records provided for upsert")
  then InvalidArgument
  else Unexpected.

(** ** Predicates *)

(** The predicate [{OR: []}]. *)
Definition emptyOrPredicate : obj := [("OR", VArr [])].

Definition emptyOperand (v : value) : bool :=
  match v with
  | VObj [] | VArr [] | VUndefined | VNull => true
  | _ => false
  end.

(** A predicate with no meaningful condition: the empty object, or one
    whose every key is a recognized operator with an empty operand. *)
Definition meaningless (P : obj) : bool :=
  forallb (fun kv => existsb (String.eqb (fst kv)) operatorKeys
                     && emptyOperand (snd kv)) P.

(** One placeholder with the field, the operator and the value bound. *)
Record atom : Type := { a_field : string; a_op : string; a_value : value }.

(** A clause of the [AND]-combination: one comparison, or the
    parenthesized disjunction of conjunctions of the [OR] key. *)
Inductive clause : Type :=
| Single (a : atom)
| AnyOf (alternatives : list (list atom)).

Definition render_atom (a : atom) : string :=
  a_field a ++ " " ++ a_op a ++ " ?".

Definition render_clause (c : clause) : string :=
  match c with
  | Single a => render_atom a
  | AnyOf alts =>
      "(" ++ join " OR " (map (fun alt => join " AND " (map render_atom alt)) alts)
      ++ ")"
  end.

Definition render_where (cs : list clause) : string :=
  match cs with
  | [] => EmptyString
  | _ => "WHERE " ++ join " AND " (map render_clause cs)
  end.

(** The values of a clause, placeholder by placeholder, left to right. *)
Definition clause_values (c : clause) : list value :=
  match c with
  | Single a => [a_value a]
  | AnyOf alts => List.concat (map (map a_value) alts)
  end.

Definition bound_values (cs : list clause) : list value :=
  List.concat (map clause_values cs).

(** [Object.entries(v)]. *)
Definition entries (v : value) : list (string * value) :=
  combine (keys v) (values v).

Definition atoms_of (op : string) (kvs : list (string * value)) : list atom :=
  map (fun kv => {| a_field := fst kv; a_op := op; a_value := snd kv |}) kvs.

Definition operator_clauses (where_ : obj) (k op : string) : list clause :=
  if present where_ k
  then map Single (atoms_of op (entries (get where_ k)))
  else [].

Definition alternative_atoms (condition : value) : list atom :=
  if isLikeCondition condition
  then atoms_of "LIKE" (entries (prop condition "LIKE"))
  else atoms_of "=" (entries condition).

Definition equality_clauses (where_ : obj) : list clause :=
  map (fun key => Single {| a_field := key; a_op := "="; a_value := get where_ key |})
      (regularFields where_).

Definition like_clauses (where_ : obj) : list clause :=
  operator_clauses where_ "LIKE" "LIKE".

Definition comparison_clauses (where_ : obj) : list clause :=
  (operator_clauses where_ "greaterThan" ">"
   ++ operator_clauses where_ "lessThan" "<"
   ++ operator_clauses where_ "notEqual" "!="
   ++ operator_clauses where_ "greaterThanOrEqual" ">="
   ++ operator_clauses where_ "lessThanOrEqual" "<=")%list.

Definition or_clauses (where_ : obj) : list clause :=
  match orAlternatives where_ with
  | Some alts => [AnyOf (map alternative_atoms alts)]
  | None => []
  end.

(** The order the specification states. *)
Definition spec_order (where_ : obj) : list clause :=
  (equality_clauses where_ ++ like_clauses where_
   ++ comparison_clauses where_ ++ or_clauses where_)%list.

(** The order with implicit equality last. *)
Definition equality_last_order (where_ : obj) : list clause :=
  (like_clauses where_ ++ comparison_clauses where_
   ++ or_clauses where_ ++ equality_clauses where_)%list.

(** An [OR] alternative on which [Object.keys] throws. *)
Definition nullish (v : value) : bool :=
  match v with VNull | VUndefined => true | _ => false end.

Definition has_nullish_alternative (where_ : obj) : bool :=
  match orAlternatives where_ with
  | Some alts => existsb nullish alts
  | None => false
  end.

(** ** The calls a computation adds to the log *)

(** [emits P lg m]: whatever its outcome, [m] only appends to the log read
    by [lg], and every call it appends satisfies [P]. *)
Definition emits (P : call -> Prop) {S : Type} (lg : S -> list call)
  {A : Type} (m : M S A) : Prop :=
  forall s, exists l, lg (fst (m s)) = (lg s ++ l)%list /\ Forall P l.

Definition wlog (E : Engine) : world E -> list call := @w_log E.

Definition wlog1 (E : Engine) (X : Type) : world E * X -> list call :=
  fun s => w_log E (fst s).

(** What the log may gain while [records] are written with statement [q]
    over [columns]: [q] is the one statement prepared and finalized, a
    [run] carries [q] and the values of one record of the batch read off
    by [columns], and nothing is fetched. *)
Definition bound_to (J : Runtime) (records : list value) (q : string)
  (columns : list string) (c : call) : Prop :=
  match c with
  | StmtRun sql params =>
      sql = q
      /\ exists record,
           In record records
           /\ formatRecordValuesForInsert J record columns = inr params
  | Prepare sql | Finalize sql => sql = q
  | StmtAll _ _ | StmtGet _ _ => False
  | TxBegin | TxCommit | TxRollback => True
  end.

(** What [record[column]] reads off a plain object: the property it owns,
    else what it inherits. *)
Definition member (J : Runtime) (fields : obj) (column : string) : value :=
  if has fields column then get fields column
  else Prototype_get J (VObj fields) column.

(** The values bound for each record of a list, record by record. *)
Definition bound_rows (J : Runtime) (columns : list string)
  (records : list value) : res (list (list value)) :=
  res_map (fun record => formatRecordValuesForInsert J record columns) records.

(** The values the specification gives a record: a column the record has
    no key for is bound as the encoding of [undefined]. *)
Definition spec_bound_values (J : Runtime) (fields : obj)
  (columns : list string) : list value :=
  map (fun column =>
         parseParameter J
           (if has fields column then get fields column else VUndefined))
      columns.

(** The calls of one [insert] or [upsert] that goes through: the statement,
    one transaction with one [run] for each row of values in order, the
    finalization. *)
Definition written_once (q : string) (bound : list (list value)) : list call :=
  ([Prepare q; TxBegin] ++ map (StmtRun q) bound ++ [TxCommit; Finalize q])%list.

(** The calls of one [bulkInsert] that goes through: the statement, one
    transaction for each batch, the finalization. *)
Definition written_in_batches (q : string)
  (batches : list (list (list value))) : list call :=
  ([Prepare q]
   ++ List.concat
        (map (fun bound =>
                (TxBegin :: map (StmtRun q) bound ++ [TxCommit])%list)
             batches)
   ++ [Finalize q])%list.

(** An engine that answers every call with a reply. *)
Definition accepting (E : Engine) : Prop :=
  forall (d : db E) (c : call), exists d' rep, exec E d c = (d', inr rep).

(** ** Outcomes *)

(** [m] returns or throws from every state. *)
Definition terminates {S A : Type} (m : M S A) : Prop :=
  forall s, snd (m s) <> Diverge.

(** The number of records in a list of batches. *)
Definition batch_total (batches : list (list value)) : Z :=
  fold_right (fun batch n => (Z.of_nat (List.length batch) + n)%Z) 0%Z batches.

(** ** Sample data for concrete runs *)

(** A text primary key flagged [autoIncrement]. *)
Definition autoincText : ColumnsSchema :=
  {| col_name := "id"; col_type := TString; col_primary := true;
     col_autoIncrement := true; col_nullable := false; col_unique := false;
     col_default := VUndefined |}.

(** A fresh connection with an empty log. *)
Definition quietWorld : world quietEngine := Build_world quietEngine 0%nat [].

Definition rejectingWorld : world rejectingEngine :=
  Build_world rejectingEngine 0%nat [].

Definition usersSchema : list ColumnsSchema :=
  [ {| col_name := "id"; col_type := TNumber; col_primary := true;
       col_autoIncrement := true; col_nullable := false; col_unique := false;
       col_default := VUndefined |};
    {| col_name := "name"; col_type := TString; col_primary := false;
       col_autoIncrement := false; col_nullable := false; col_unique := false;
       col_default := VUndefined |} ].

(** [paginate({page: 1, pageSize: 10, where: {OR: []}})] *)
Definition emptyOrPage : PaginateOptions :=
  {| po_page := 1; po_pageSize := 10; po_where := Some emptyOrPredicate;
     po_select := None; po_orderBy := None |}.

(** [{data: [{id: 1, name: "Ann"}]}] imported under [fail]. *)
Definition oneRowExport : value :=
  VObj [("data", VArr [VObj [("id", VNum 1); ("name", VStr "Ann")]])].

Definition failOptions : ImportOptions :=
  {| io_conflictResolution := Some Fail; io_batchSize := None;
     io_validateSchema := None |}.

(** [{data: [{id: 1}, {id: 2}]}] imported under [ignore], one row a batch. *)
Definition twoRowExport : value :=
  VObj [("data", VArr [VObj [("id", VNum 1)]; VObj [("id", VNum 2)]])].

Definition ignoreOptions : ImportOptions :=
  {| io_conflictResolution := Some Ignore; io_batchSize := Some 1%Z;
     io_validateSchema := None |}.

(* ===================================================================== *)
(** * 9a. Further operations of the facade and of the manager *)
(* ===================================================================== *)

(** [c.toLowerCase()] on one code unit below 256. *)
Definition lower_ascii (c : ascii) : ascii :=
  let n := nat_of_ascii c in
  if ((65 <=? n)%nat && (n <=? 90)%nat)
     || ((192 <=? n)%nat && (n <=? 222)%nat && negb (n =? 215)%nat)
  then ascii_of_nat (n + 32)
  else c.

(** [s.toLowerCase()] *)
Fixpoint toLowerCase (s : string) : string :=
  match s with
  | EmptyString => EmptyString
  | String c rest => String (lower_ascii c) (toLowerCase rest)
  end.

Section MoreFacade.

Variable E : Engine.
Variable J : Runtime.
Variable tableName : string.
Variable schema : list ColumnsSchema.

Local Open Scope js_scope.

(** [findFirst]: [select] with [limit: 1], then the first row or [null]. *)
Definition findFirst (where_ : option obj) (sel : option obj) : T E value :=
  results <- select E J tableName schema
               {| so_where := where_; so_select := sel;
                  so_limit := Some 1%Z; so_skip := None |} ;;
  ret (match results with
       | row :: _ => VObj row
       | [] => VNull
       end).

(** The statement and the parameters of [exists]. *)
Definition existsQueryOf (where_ : option obj) : res (string * list value) :=
  match where_ with
  | Some where_ =>
      res_bind (buildWhereClause where_) (fun w =>
      res_bind (extractWhereParameters J where_) (fun params =>
      inr ("SELECT 1 FROM " ++ tableName ++ " " ++ w ++ " LIMIT 1", params)))
  | None => inr ("SELECT 1 FROM " ++ tableName ++ " LIMIT 1", [])
  end.

(** [exists] (the name is taken in Rocq). *)
Definition exists_ (where_ : option obj) : T E bool :=
  qp <- lift_res (existsQueryOf where_) ;;
  executeWithErrorWrapper
    (prepare E (fst qp) ;;;
     result <- stmt_get E (fst qp) (snd qp) ;;
     finalize E (fst qp) ;;;
     ret (truthy result)).

(** The statement and the parameters of [distinct]. *)
Definition distinctQueryOf (column : string) (where_ : option obj)
  (limit : option Z) : res (string * list value) :=
  res_bind
    (match where_ with
     | Some where_ =>
         res_bind (buildWhereClause where_) (fun w =>
         res_bind (extractWhereParameters J where_) (fun params =>
         inr (" " ++ w, params)))
     | None => inr (EmptyString, [])
     end)
    (fun wp =>
       inr ("SELECT DISTINCT " ++ column ++ " FROM " ++ tableName ++ fst wp
            ++ match truthy_number limit with
               | Some l => " LIMIT " ++ string_of_Z l
               | None => EmptyString
               end,
            snd wp)).

Definition distinct (column : string) (where_ : option obj) (limit : option Z)
  : T E (list value) :=
  qp <- lift_res (distinctQueryOf column where_ limit) ;;
  executeWithErrorWrapper
    (prepare E (fst qp) ;;;
     results <- stmt_all E (fst qp) (snd qp) ;;
     finalize E (fst qp) ;;;
     ret (map (fun row => get (restoreDataTypes J schema row) column) results)).

(** The statement and the parameters of [aggregate]. *)
Definition aggregateQueryOf (column : string) (functions : list string)
  (where_ : option obj) : res (string * list value) :=
  let selectClauses :=
    join ", " (map (fun fn => fn ++ "(" ++ column ++ ") as " ++ fn) functions) in
  match where_ with
  | Some where_ =>
      res_bind (buildWhereClause where_) (fun w =>
      res_bind (extractWhereParameters J where_) (fun params =>
      inr ("SELECT " ++ selectClauses ++ " FROM " ++ tableName ++ " " ++ w,
           params)))
  | None => inr ("SELECT " ++ selectClauses ++ " FROM " ++ tableName, [])
  end.

Definition aggregate (column : string) (functions : list string)
  (where_ : option obj) : T E value :=
  qp <- lift_res (aggregateQueryOf column functions where_) ;;
  executeWithErrorWrapper
    (prepare E (fst qp) ;;;
     result <- stmt_get E (fst qp) (snd qp) ;;
     finalize E (fst qp) ;;;
     ret (if truthy result then result else VObj [])).

(** [rawQuery]: the parameters are bound as given, and the rows are decoded
    when there are some and the statement mentions the table. *)
Definition rawQuery (query : string) (params : list value) : T E (list obj) :=
  executeWithErrorWrapper
    (prepare E query ;;;
     results <- stmt_all E query params ;;
     finalize E query ;;;
     ret (if negb (Nat.eqb (List.length results) 0)
             && includes (toLowerCase query) (toLowerCase tableName)
          then map (restoreDataTypes J schema) results
          else results)).

Record IntegrityReport : Type := {
  isValid : bool;
  integrityErrors : list value
}.

(** [value === 'ok'] *)
Definition is_ok (v : value) : bool :=
  match v with
  | VStr s => s =? "ok"
  | _ => false
  end.

(** [DatabaseManager.checkIntegrity] *)
Definition checkIntegrity : T E IntegrityReport :=
  try_catch
    (engine E (Prepare "PRAGMA integrity_check") ;;;
     result <- stmt_all E "PRAGMA integrity_check" [] ;;
     let valid :=
       match result with
       | row :: _ => is_ok (get row "integrity_check")
       | [] => false
       end in
     ret {| isValid := valid;
            integrityErrors :=
              if valid then []
              else map (fun row => get row "integrity_check") result |})
    (fun error =>
       ret {| isValid := false;
              integrityErrors :=
                [VStr ("Integrity check failed: " ++ error_to_string error)] |}).

End MoreFacade.

(** ** Placeholders *)

(** The number of [?] in a text. *)
Fixpoint question_marks (s : string) : nat :=
  match s with
  | EmptyString => 0
  | String c rest =>
      (if Ascii.eqb c "?"%char then 1 else 0) + question_marks rest
  end.

(** The comparisons of a clause, left to right. *)
Definition clause_atoms (c : clause) : list atom :=
  match c with
  | Single a => [a]
  | AnyOf alts => List.concat alts
  end.

(** ** Predicates on calls and engines *)

(** A call that reads: preparing, fetching rows, finalizing. *)
Definition read_call (c : call) : Prop :=
  match c with
  | Prepare _ | StmtAll _ _ | StmtGet _ _ | Finalize _ => True
  | _ => False
  end.

(** A statement that carries a [WHERE] clause. *)
Definition filtered_sql (sql : string) : Prop :=
  exists before_ text, sql = before_ ++ " WHERE " ++ text.

Definition filtered_call (c : call) : Prop :=
  match c with
  | Prepare sql | Finalize sql => filtered_sql sql
  | StmtAll sql _ | StmtGet sql _ | StmtRun sql _ => filtered_sql sql
  | _ => True
  end.

(** An error other than a lock error. *)
Definition unlocked (e : error) : Prop := is_locked e = false.

(** An engine that never reports that the database is locked. *)
Definition never_locked (E : Engine) : Prop :=
  forall (d : db E) (c : call) (d' : db E) (e : error),
    exec E d c = (d', inl e) -> is_locked e = false.

(** A callback instrumented with the number of times it has run. *)
Definition counted {S A : Type} (callback : M S A) : M (S * nat) A :=
  fun sn =>
    let (s', r) := callback (fst sn) in ((s', Datatypes.S (snd sn)), r).

(** What holds of the result of a computation, when it returns. *)
Definition returns {S A : Type} (Q : A -> Prop) (m : M S A) : Prop :=
  forall s s' a, m s = (s', Ok a) -> Q a.

(** What a computation throws, when it throws. *)
Definition throws_only {S A : Type} (Q : error -> Prop) (m : M S A) : Prop :=
  forall s s' e, m s = (s', Throw e) -> Q e.

(** On a state paired with a list, a computation that, when it returns,
    has appended exactly [k] entries. *)
Definition grows {S X A : Type} (k : nat) (m : M (S * list X) A) : Prop :=
  forall s s' a, m s = (s', Ok a) ->
                 List.length (snd s') = List.length (snd s) + k.

(* ===================================================================== *)
(** * 9b. The caches of the pool *)
(* ===================================================================== *)

Module PoolCaches.

Record CacheConfig : Type := {
  enableQueryCache : bool;
  maxCacheSize : nat;
  enableStatementPooling : bool
}.

(** An entry of [queryCache]. *)
Record CacheEntry : Type := {
  ce_result : list value;
  ce_timestamp : Z;
  ce_ttl : Z
}.

(** The result cache with its two counters; [queryCache] is the [Map] in
    insertion order. *)
Record QueryCache : Type := {
  queryCache : list (string * CacheEntry);
  cacheHits : nat;
  cacheRequests : nat
}.

Definition emptyCache : QueryCache :=
  {| queryCache := []; cacheHits := 0; cacheRequests := 0 |}.

Fixpoint map_get {V : Type} (m : list (string * V)) (key : string) : option V :=
  match m with
  | [] => None
  | (k, v) :: rest => if k =? key then Some v else map_get rest key
  end.

(** [Map.set]: an existing key keeps its place. *)
Fixpoint map_set {V : Type} (m : list (string * V)) (key : string) (v : V)
  : list (string * V) :=
  match m with
  | [] => [(key, v)]
  | (k, v') :: rest =>
      if k =? key then (k, v) :: rest else (k, v') :: map_set rest key v
  end.

Definition map_delete {V : Type} (m : list (string * V)) (key : string)
  : list (string * V) :=
  filter (fun kv => negb (fst kv =? key)) m.

Definition fresh_enough (now : Z) (cached : CacheEntry) : bool :=
  (now - ce_timestamp cached <=? ce_ttl cached)%Z.

(** [getCachedQuery] at time [now]. *)
Definition getCachedQuery (cfg : CacheConfig) (now : Z) (key : string)
  (c : QueryCache) : QueryCache * option (list value) :=
  if negb (enableQueryCache cfg) then (c, None)
  else
    let requests := S (cacheRequests c) in
    match map_get (queryCache c) key with
    | Some cached =>
        if fresh_enough now cached
        then ({| queryCache := queryCache c; cacheHits := S (cacheHits c);
                 cacheRequests := requests |}, Some (ce_result cached))
        else ({| queryCache := map_delete (queryCache c) key;
                 cacheHits := cacheHits c; cacheRequests := requests |}, None)
    | None =>
        ({| queryCache := queryCache c; cacheHits := cacheHits c;
            cacheRequests := requests |}, None)
    end.

(** [setCachedQuery] at time [now]; [ttl] is the argument after its
    default has been applied. *)
Definition setCachedQuery (cfg : CacheConfig) (now : Z) (key : string)
  (result : list value) (ttl : Z) (c : QueryCache) : QueryCache :=
  if negb (enableQueryCache cfg) then c
  else
    let evicted :=
      if Nat.leb (maxCacheSize cfg) (List.length (queryCache c))
      then match queryCache c with
           | (firstKey, _) :: _ =>
               if firstKey =? EmptyString then queryCache c
               else map_delete (queryCache c) firstKey
           | [] => []
           end
      else queryCache c in
    {| queryCache :=
         map_set evicted key
           {| ce_result := result; ce_timestamp := now; ce_ttl := ttl |};
       cacheHits := cacheHits c; cacheRequests := cacheRequests c |}.

(** [cleanupExpiredCache] at time [now]. *)
Definition cleanupExpiredCache (cfg : CacheConfig) (now : Z) (c : QueryCache)
  : QueryCache :=
  if negb (enableQueryCache cfg) then c
  else {| queryCache := filter (fun kv => fresh_enough now (snd kv))
                               (queryCache c);
          cacheHits := cacheHits c; cacheRequests := cacheRequests c |}.

Definition clearCache (c : QueryCache) : QueryCache := emptyCache.

(** What the callers do to the result cache. *)
Inductive cache_op : Type :=
| CacheGet (now : Z) (key : string)
| CacheSet (now : Z) (key : string) (result : list value) (ttl : Z)
| CacheCleanup (now : Z)
| CacheClear.

Definition cache_step (cfg : CacheConfig) (c : QueryCache) (o : cache_op)
  : QueryCache :=
  match o with
  | CacheGet now key => fst (getCachedQuery cfg now key c)
  | CacheSet now key result ttl => setCachedQuery cfg now key result ttl c
  | CacheCleanup now => cleanupExpiredCache cfg now c
  | CacheClear => clearCache c
  end.

Definition cache_run (cfg : CacheConfig) (c : QueryCache) (os : list cache_op)
  : QueryCache :=
  fold_left (cache_step cfg) os c.

(** The key a cache operation writes, if it writes one. *)
Definition written_key (o : cache_op) : option string :=
  match o with
  | CacheSet _ key _ _ => Some key
  | _ => None
  end.

(** The invariant of the result cache: keys are unique and not empty,
    the size is within [maxCacheSize], hits are requests. *)
Record cache_ok (cfg : CacheConfig) (c : QueryCache) : Prop := {
  keys_unique : NoDup (map fst (queryCache c));
  keys_named : Forall (fun k => k <> EmptyString) (map fst (queryCache c));
  size_bounded : List.length (queryCache c) <= maxCacheSize cfg;
  hits_counted : cacheHits c <= cacheRequests c
}.

(** A cache of two entries at most, and a run that stores three results. *)
Definition smallCache : CacheConfig :=
  {| enableQueryCache := true; maxCacheSize := 2;
     enableStatementPooling := true |}.

Definition threeStores : list cache_op :=
  [ CacheSet 0 "users" [VNum 1] 300000; CacheSet 1 "posts" [VNum 2] 300000;
    CacheSet 2 "tags" [VNum 3] 300000; CacheGet 3 "tags" ].

(** A prepared statement: the text it was compiled from and the connection
    it belongs to. *)
Record Statement : Type := { st_query : string; st_db : nat }.

(** [getPreparedStatement]; [prepare_error db query] is what [db.prepare]
    throws on [query], if it throws. *)
Definition getPreparedStatement (cfg : CacheConfig)
  (prepare_error : nat -> string -> option error)
  (key query : string) (database : nat)
  (preparedStatements : list (string * Statement))
  : list (string * Statement) * res Statement :=
  let prepared :=
    match prepare_error database query with
    | Some e => inl e
    | None => inr {| st_query := query; st_db := database |}
    end in
  if negb (enableStatementPooling cfg) then (preparedStatements, prepared)
  else
    match map_get preparedStatements key with
    | Some statement => (preparedStatements, inr statement)
    | None =>
        match prepared with
        | inl e => (preparedStatements, inl e)
        | inr statement =>
            (map_set preparedStatements key statement, inr statement)
        end
    end.

End PoolCaches.

(** ** Where the promises of [acquire] are *)

(** Every promise the pool holds or has settled: the waiters of the
    queue, the calls suspended while their connection opens, the promises
    resolved and the promises rejected. *)
Definition ledger (p : Pool.pool) : list nat :=
  (map Pool.promise (Pool.waitingQueue p)
   ++ map Pool.pc_promise (Pool.pending p)
   ++ map fst (Pool.resolved p)
   ++ map fst (Pool.rejected p))%list.

(** Two pools with the same promises and the same acquire times: what
    the maintenance of connections leaves alone. *)
Record same_promises (p q : Pool.pool) : Prop := {
  same_queue : Pool.waitingQueue q = Pool.waitingQueue p;
  same_pending : Pool.pending q = Pool.pending p;
  same_resolved : Pool.resolved q = Pool.resolved p;
  same_rejected : Pool.rejected q = Pool.rejected p;
  same_next : Pool.nextPromise q = Pool.nextPromise p;
  same_times : Pool.acquireTimes q = Pool.acquireTimes p
}.

(** The last [n] elements of a list. *)
Definition lastn {A : Type} (n : nat) (l : list A) : list A :=
  skipn (List.length l - n) l.

(** The acquire time that an event hands to [recordAcquireTime], if it
    hands one: an [acquire] that finds a connection, the continuation of
    an [acquire] whose connection opened, a [release] that serves a
    waiter. *)
Definition time_recorded (cfg : Pool.PoolConfig) (p : Pool.pool)
  (e : Pool.event) : option Z :=
  match e with
  | Pool.Acquire _ _ _ =>
      match Pool.availableConnections p with
      | connectionId :: _ =>
          match Pool.conn_get (Pool.connections p) connectionId with
          | Some _ => Some 0%Z
          | None => None
          end
      | [] => None
      end
  | Pool.Resume now =>
      match Pool.pending p with
      | pc :: _ =>
          match Pool.pc_created pc with
          | Some _ => Some (now - Pool.pc_startTime pc)%Z
          | None => None
          end
      | [] => None
      end
  | Pool.Release connectionId now =>
      match Pool.conn_get (Pool.connections p) connectionId with
      | Some connection =>
          if (Pool.maxConnectionAge cfg <? now - Pool.createdAt connection)%Z
          then None
          else match Pool.waitingQueue p with
               | waiter :: _ => Some (now - Pool.timestamp waiter)%Z
               | [] => None
               end
      | None => None
      end
  | _ => None
  end.

(** Every acquire time recorded along a run, oldest first. *)
Fixpoint recorded (cfg : Pool.PoolConfig) (p : Pool.pool)
  (es : list Pool.event) : list Z :=
  match es with
  | [] => []
  | e :: rest =>
      (match time_recorded cfg p e with
       | Some time => [time]
       | None => []
       end ++ recorded cfg (Pool.step cfg p e) rest)%list
  end.

Definition is_create (e : Pool.event) : bool :=
  match e with Pool.Create _ _ => true | _ => false end.

(** A connection that the reaper selects at time [now]. *)
Definition idle_expired (cfg : Pool.PoolConfig) (now : Z)
  (c : Pool.PooledConnection) : bool :=
  negb (Pool.inUse c) && (Pool.idleTimeout cfg <? now - Pool.lastUsed c)%Z.

(* ===================================================================== *)
(** * 10. Theorems: row codec *)
(* ===================================================================== *)

Lemma parseParameters_length (J : Runtime) (params : list value) :
  List.length (parseParameters J params) = List.length params.
Proof. unfold parseParameters. apply length_map. Qed.

Lemma parseParameter_not_null (J : Runtime) (v : value) :
  parseParameter J v <> VNull.
Proof. destruct v; simpl; try destruct b; discriminate. Qed.





Lemma decode_encode (J : Runtime) (t : column_type) (v : value) :
  round_trips J t v -> restoreColumnValue J t (parseParameter J v) = v.
Proof.
  intros Hv.
  destruct t, v; simpl in Hv; try contradiction; simpl;
    try reflexivity; try (rewrite Hv; reflexivity).
  destruct b; reflexivity.
Qed.



(** The same on whole rows: a row whose every key is a column of the
    schema and whose every value round-trips at that column's type is
    restored by [restoreDataTypes] from its encoded form. *)
Lemma restoreDataTypes_round_trip
  (J : Runtime) (schema : list ColumnsSchema) (row : obj)
  (Hrow : Forall (fun kv => exists column,
                    find_column schema (fst kv) = Some column
                    /\ round_trips J (col_type column) (snd kv)) row) :
  restoreDataTypes J schema
    (map (fun kv => (fst kv, parseParameter J (snd kv))) row) = row.
Proof.
  induction Hrow as [| [k v] row [column [Hfind Hrt]] _ IH]; [reflexivity |].
  simpl in *. rewrite Hfind. simpl.
  rewrite (decode_encode J _ _ Hrt).
  f_equal. exact IH.
Qed.

(* ===================================================================== *)
(** * 11. Theorems: schema validation *)
(* ===================================================================== *)

Lemma nodup_length_le (l : list string) :
  List.length (nodup string_dec l) <= List.length l.
Proof.
  induction l as [| a l IH]; simpl; [lia |].
  destruct (in_dec string_dec a l); simpl; lia.
Qed.

Lemma set_size_full_iff (l : list string) :
  Nat.eqb (List.length l) (set_size l) = true <-> NoDup l.
Proof.
  unfold set_size. rewrite Nat.eqb_eq. split.
  - induction l as [| a l IH]; intros H; [constructor |].
    simpl in H. destruct (in_dec string_dec a l) as [Hin | Hnin].
    + pose proof (nodup_length_le l). lia.
    + simpl in H. constructor; [exact Hnin | apply IH; lia].
  - intros H. rewrite (nodup_fixed_point string_dec H). reflexivity.
Qed.

(** What [validateTableSchema] accepts. *)
Lemma validateTableSchema_accepts (s : TableSchema) :
  validateTableSchema s = inr tt
  <-> name_is_blank s = false
      /\ columns_of s <> []
      /\ existsb col_primary (columns_of s) = true
      /\ NoDup (map col_name (columns_of s)).
Proof.
  unfold validateTableSchema, name_is_blank, columns_of.
  destruct (tbl_name s) as [name |].
  2: { split; [discriminate | intros [H _]; discriminate]. }
  assert (Hblank : (name =? EmptyString) || trims_to_empty name
                   = trims_to_empty name).
  { destruct (String.eqb_spec name EmptyString) as [-> |]; reflexivity. }
  rewrite Hblank.
  destruct (trims_to_empty name).
  { split; [discriminate | intros [H _]; discriminate]. }
  destruct (tbl_columns s) as [[| c cs] |].
  - split; [discriminate | intros [_ [H _]]; contradiction].
  - remember (c :: cs) as columns eqn:Hcols.
    destruct (existsb col_primary columns) eqn:Hp; cbn [negb].
    + destruct (Nat.eqb (List.length (map col_name columns))
                        (set_size (map col_name columns))) eqn:Hd;
        cbn [negb].
      * apply set_size_full_iff in Hd.
        split; [intros _ | reflexivity].
        repeat split; try assumption. subst columns. discriminate.
      * split; [discriminate |].
        intros [_ [_ [_ Hnd]]]. apply set_size_full_iff in Hnd.
        rewrite Hnd in Hd. discriminate.
    + split; [discriminate | intros [_ [_ [H _]]]; discriminate].
  - split; [discriminate | intros [_ [H _]]; contradiction].
Qed.

Lemma validateTableSchema_result (s : TableSchema) :
  validateTableSchema s = inr tt \/ exists msg, validateTableSchema s = inl (Error msg).
Proof.
  unfold validateTableSchema.
  destruct (tbl_name s) as [name |]; [| right; eexists; reflexivity].
  destruct ((name =? EmptyString) || trims_to_empty name);
    [right; eexists; reflexivity |].
  destruct (tbl_columns s) as [[| c cs] |]; try (right; eexists; reflexivity).
  destruct (negb (existsb col_primary (c :: cs)));
    [right; eexists; reflexivity |].
  destruct (negb _); [right; eexists; reflexivity | left; reflexivity].
Qed.

Lemma autoincrement_constraint (J : Runtime) (column : ColumnsSchema) :
  In "AUTOINCREMENT" (columnConstraints J column)
  <-> (col_type column = TNumber /\ col_autoIncrement column = true).
Proof.
  unfold columnConstraints. rewrite !in_app_iff. split.
  - intros [H | [H | [H | [H | H]]]].
    + destruct (col_primary column); simpl in H;
        [destruct H as [H | []]; discriminate H | contradiction].
    + destruct (col_type column); simpl in H; try contradiction.
      destruct (col_autoIncrement column); simpl in H; [| contradiction].
      split; reflexivity.
    + destruct (negb (col_nullable column) && negb (col_primary column));
        simpl in H; [destruct H as [H | []]; discriminate H | contradiction].
    + destruct (col_unique column && negb (col_primary column));
        simpl in H; [destruct H as [H | []]; discriminate H | contradiction].
    + destruct (col_default column); simpl in H; try contradiction;
        destruct H as [H | []]; discriminate H.
  - intros [Ht Ha]. right. left. rewrite Ht, Ha. simpl. left. reflexivity.
Qed.

(** C6, as the specification states it, fails: a table whose only column
    is a text primary key flagged [autoIncrement] passes validation, and
    its DDL is emitted without [AUTOINCREMENT]. *)
Lemma C6_autoincrement_on_text_is_accepted :
  autoinc_nonint [autoincText] = true
  /\ validateTableSchema
       {| tbl_name := Some "T"; tbl_columns := Some [autoincText] |} = inr tt
  /\ buildCreateTableQuery MiniJson.impl "T" [autoincText]
     = "CREATE TABLE IF NOT EXISTS T (id TEXT PRIMARY KEY)".
Proof. repeat split. Qed.

(** C6 (amended): table-schema validation fails, with an [Error], exactly
    when the table has a missing, empty or blank name, no columns, no
    primary column, or duplicate column names; an [autoIncrement] flag on a
    column that is not a number column does not make validation fail, and
    the column constraints carry [AUTOINCREMENT] exactly when the column is
    a number column with the flag. *)
Theorem C6_validateTableSchema_fails_exactly :
  forall (J : Runtime) (s : TableSchema),
    ((exists e, validateTableSchema s = inl e)
     <-> (name_is_blank s = true
          \/ columns_of s = []
          \/ existsb col_primary (columns_of s) = false
          \/ ~ NoDup (map col_name (columns_of s))))
    /\ (forall column,
          In "AUTOINCREMENT" (columnConstraints J column)
          <-> (col_type column = TNumber /\ col_autoIncrement column = true)).
Proof.
  intros J s. split.
  - pose proof (validateTableSchema_accepts s) as Hacc.
    destruct (validateTableSchema_result s) as [Hok | [msg Herr]].
    + split.
      * intros [e He]. rewrite Hok in He. discriminate.
      * apply Hacc in Hok. destruct Hok as [Hn [Hc [Hp Hd]]].
        intros [H | [H | [H | H]]].
        -- rewrite H in Hn. discriminate.
        -- contradiction.
        -- rewrite H in Hp. discriminate.
        -- contradiction.
    + split; [intros _ | intros _; eexists; exact Herr].
      destruct (name_is_blank s) eqn:Hn; [left; reflexivity |].
      destruct (columns_of s) as [| c cs] eqn:Hc; [right; left; reflexivity |].
      destruct (existsb col_primary (c :: cs)) eqn:Hp;
        [| right; right; left; reflexivity].
      right; right; right. intros Hd.
      assert (Hok : validateTableSchema s = inr tt).
      { apply Hacc. repeat split; try assumption. discriminate. }
      rewrite Hok in Herr. discriminate.
  - intros column. apply autoincrement_constraint.
Qed.

(* ===================================================================== *)
(** * 12. Theorems: predicate compiler *)
(* ===================================================================== *)

Section PredicateFacts.

Variable J : Runtime.

Lemma chars_length (s : string) : List.length (chars s) = String.length s.
Proof.
  unfold chars. rewrite length_map.
  induction s as [| c s IH]; simpl; [reflexivity | rewrite IH; reflexivity].
Qed.

Lemma indices_length (n : nat) : List.length (indices n) = n.
Proof. unfold indices. rewrite length_map, length_seq. reflexivity. Qed.

Lemma keys_values_length (v : value) :
  List.length (keys v) = List.length (values v).
Proof.
  destruct v; simpl; try reflexivity.
  - rewrite indices_length, length_map, chars_length. reflexivity.
  - apply indices_length.
  - rewrite !length_map. reflexivity.
Qed.

Lemma combine_fst {A B : Type} (l : list A) (l' : list B) :
  List.length l = List.length l' -> map fst (combine l l') = l.
Proof.
  revert l'. induction l as [| a l IH]; intros [| b l'] H; simpl in *;
    try reflexivity; try discriminate.
  f_equal. apply IH. lia.
Qed.

Lemma combine_snd {A B : Type} (l : list A) (l' : list B) :
  List.length l = List.length l' -> map snd (combine l l') = l'.
Proof.
  revert l'. induction l as [| a l IH]; intros [| b l'] H; simpl in *;
    try reflexivity; try discriminate.
  f_equal. apply IH. lia.
Qed.

Lemma entries_keys (v : value) : map fst (entries v) = keys v.
Proof. apply combine_fst, keys_values_length. Qed.

Lemma entries_values (v : value) : map snd (entries v) = values v.
Proof. apply combine_snd, keys_values_length. Qed.

Lemma render_atoms_of (op : string) (kvs : list (string * value)) :
  map render_atom (atoms_of op kvs) = map (conditionText op) (map fst kvs).
Proof. unfold atoms_of. rewrite !map_map. reflexivity. Qed.

Lemma values_atoms_of (op : string) (kvs : list (string * value)) :
  map a_value (atoms_of op kvs) = map snd kvs.
Proof. unfold atoms_of. rewrite map_map. reflexivity. Qed.

Lemma bound_values_app (cs cs' : list clause) :
  bound_values (cs ++ cs') = (bound_values cs ++ bound_values cs')%list.
Proof. unfold bound_values. rewrite map_app, concat_app. reflexivity. Qed.

Lemma bound_values_singles (atoms : list atom) :
  bound_values (map Single atoms) = map a_value atoms.
Proof.
  unfold bound_values. induction atoms as [| a atoms IH]; simpl;
    [reflexivity | f_equal; exact IH].
Qed.

Lemma parseParameters_app (xs ys : list value) :
  parseParameters J (xs ++ ys)
  = (parseParameters J xs ++ parseParameters J ys)%list.
Proof. apply map_app. Qed.

Lemma operator_clauses_text (where_ : obj) (k op : string) :
  map render_clause (operator_clauses where_ k op)
  = operatorConditions where_ k op.
Proof.
  unfold operator_clauses, operatorConditions.
  destruct (present where_ k); [| reflexivity].
  rewrite map_map. change (fun x => render_clause (Single x)) with render_atom.
  rewrite render_atoms_of, entries_keys. reflexivity.
Qed.

Lemma operator_clauses_values (where_ : obj) (k op : string) :
  parseParameters J (bound_values (operator_clauses where_ k op))
  = operatorParameters J where_ k.
Proof.
  unfold operator_clauses, operatorParameters.
  destruct (present where_ k); [| reflexivity].
  rewrite bound_values_singles, values_atoms_of, entries_values. reflexivity.
Qed.

Lemma equality_clauses_text (where_ : obj) :
  map render_clause (equality_clauses where_)
  = map (conditionText "=") (regularFields where_).
Proof. unfold equality_clauses. rewrite map_map. reflexivity. Qed.

Lemma equality_clauses_values (where_ : obj) :
  bound_values (equality_clauses where_)
  = map (get where_) (regularFields where_).
Proof.
  unfold equality_clauses, bound_values.
  induction (regularFields where_) as [| k ks IH]; simpl;
    [reflexivity | f_equal; exact IH].
Qed.

Lemma isLikeCondition_nullish (c : value) :
  nullish c = true -> isLikeCondition c = false.
Proof. destruct c; simpl; try discriminate; reflexivity. Qed.

Lemma objectKeys_defined (c : value) :
  nullish c = false -> objectKeys c = inr (keys c).
Proof. destruct c; simpl; try discriminate; reflexivity. Qed.

Lemma objectValues_defined (c : value) :
  nullish c = false -> objectValues c = inr (values c).
Proof. destruct c; simpl; try discriminate; reflexivity. Qed.

Lemma orCondition_text (c : value) :
  orCondition c
  = if nullish c then inl nullish_TypeError
    else inr (join " AND " (map render_atom (alternative_atoms c))).
Proof.
  unfold orCondition, alternative_atoms.
  destruct (nullish c) eqn:Hn.
  - rewrite (isLikeCondition_nullish c Hn).
    destruct c; try discriminate; reflexivity.
  - destruct (isLikeCondition c).
    + rewrite render_atoms_of, entries_keys. reflexivity.
    + rewrite (objectKeys_defined c Hn). simpl.
      rewrite render_atoms_of, entries_keys. reflexivity.
Qed.

Lemma orParameters_values (c : value) :
  orParameters J c
  = if nullish c then inl nullish_TypeError
    else inr (parseParameters J (map a_value (alternative_atoms c))).
Proof.
  unfold orParameters, alternative_atoms.
  destruct (nullish c) eqn:Hn.
  - rewrite (isLikeCondition_nullish c Hn).
    destruct c; try discriminate; reflexivity.
  - destruct (isLikeCondition c).
    + rewrite values_atoms_of, entries_values. reflexivity.
    + rewrite (objectValues_defined c Hn). simpl.
      rewrite values_atoms_of, entries_values. reflexivity.
Qed.

Lemma res_map_orCondition (alts : list value) :
  res_map orCondition alts
  = if existsb nullish alts then inl nullish_TypeError
    else inr (map (fun alt => join " AND " (map render_atom alt))
                  (map alternative_atoms alts)).
Proof.
  induction alts as [| c alts IH]; [reflexivity |].
  simpl. rewrite orCondition_text.
  destruct (nullish c); [reflexivity |]. simpl.
  rewrite IH. destruct (existsb nullish alts); reflexivity.
Qed.

Lemma res_map_orParameters (alts : list value) :
  res_map (orParameters J) alts
  = if existsb nullish alts then inl nullish_TypeError
    else inr (map (fun alt => parseParameters J (map a_value alt))
                  (map alternative_atoms alts)).
Proof.
  induction alts as [| c alts IH]; [reflexivity |].
  simpl. rewrite orParameters_values.
  destruct (nullish c); [reflexivity |]. simpl.
  rewrite IH. destruct (existsb nullish alts); reflexivity.
Qed.

Lemma parseParameters_concat (xss : list (list value)) :
  parseParameters J (List.concat xss)
  = List.concat (map (parseParameters J) xss).
Proof. unfold parseParameters. apply concat_map. Qed.

(** The [conditions] array is the rendering of the clauses, implicit
    equality last. *)
Lemma whereConditions_clauses (where_ : obj) :
  whereConditions where_
  = if has_nullish_alternative where_ then inl nullish_TypeError
    else inr (map render_clause (equality_last_order where_)).
Proof.
  unfold whereConditions, has_nullish_alternative, equality_last_order,
    like_clauses, comparison_clauses, or_clauses.
  destruct (orAlternatives where_) as [alts |].
  - rewrite res_map_orCondition.
    destruct (existsb nullish alts); [reflexivity |].
    cbn [res_bind]. f_equal.
    rewrite !map_app, !operator_clauses_text, equality_clauses_text.
    rewrite <- !app_assoc. reflexivity.
  - cbn [res_bind]. f_equal.
    rewrite !map_app, !operator_clauses_text, equality_clauses_text.
    rewrite <- !app_assoc. reflexivity.
Qed.

Lemma buildWhereClause_clauses (where_ : obj) :
  buildWhereClause where_
  = if has_nullish_alternative where_ then inl nullish_TypeError
    else inr (render_where (equality_last_order where_)).
Proof.
  unfold buildWhereClause. destruct where_ as [| kv rest]; [reflexivity |].
  rewrite whereConditions_clauses.
  destruct (has_nullish_alternative (kv :: rest)); [reflexivity |].
  simpl res_bind. unfold render_where.
  destruct (equality_last_order (kv :: rest)); reflexivity.
Qed.

Lemma extractWhereParameters_clauses (where_ : obj) :
  extractWhereParameters J where_
  = if has_nullish_alternative where_ then inl nullish_TypeError
    else inr (parseParameters J (bound_values (equality_last_order where_))).
Proof.
  unfold extractWhereParameters, has_nullish_alternative, equality_last_order,
    like_clauses, comparison_clauses, or_clauses.
  destruct (orAlternatives where_) as [alts |].
  - rewrite res_map_orParameters.
    destruct (existsb nullish alts); [reflexivity |].
    cbn [res_bind]. f_equal.
    rewrite !bound_values_app, !parseParameters_app,
      !operator_clauses_values, equality_clauses_values.
    rewrite <- !app_assoc. repeat f_equal.
    unfold bound_values. cbn [map List.concat clause_values].
    rewrite app_nil_r, parseParameters_concat, !map_map. reflexivity.
  - cbn [res_bind]. f_equal.
    rewrite !bound_values_app, !parseParameters_app,
      !operator_clauses_values, equality_clauses_values.
    rewrite <- !app_assoc. reflexivity.
Qed.

End PredicateFacts.

(** C3, as the specification states it, fails: on
    [{id: 1, LIKE: {name: "a%"}}] the compiled fragment puts the [LIKE]
    clause first and the implicit equality last, and the parameters follow
    that order. *)
Lemma C3_equality_is_compiled_last :
  buildWhereClause [("id", VNum 1); ("LIKE", VObj [("name", VStr "a%")])]
  = inr "WHERE name LIKE ? AND id = ?"
  /\ render_where
       (spec_order [("id", VNum 1); ("LIKE", VObj [("name", VStr "a%")])])
     = "WHERE id = ? AND name LIKE ?"
  /\ buildWhereClause [("id", VNum 1); ("LIKE", VObj [("name", VStr "a%")])]
     <> inr (render_where
               (spec_order
                  [("id", VNum 1); ("LIKE", VObj [("name", VStr "a%")])]))
  /\ extractWhereParameters MiniJson.impl
       [("id", VNum 1); ("LIKE", VObj [("name", VStr "a%")])]
     = inr [VStr "a%"; VNum 1].
Proof. repeat split. discriminate. Qed.

(** C3 (amended): for every predicate tree, the compiled WHERE fragment
    AND-combines its clauses in the order LIKE, then the ordered comparisons
    (greaterThan, lessThan, notEqual, greaterThanOrEqual, lessThanOrEqual),
    then OR, and implicit equality last; the parameter vector is the
    encoding of the bound values in exactly the order in which those clauses
    emit their placeholders.  (Both functions throw the same [TypeError]
    when an [OR] alternative is [null] or [undefined].) *)
Theorem C3_where_clause_order_and_parameters :
  forall (J : Runtime) (where_ : obj),
    equality_last_order where_
    = (like_clauses where_ ++ comparison_clauses where_
       ++ or_clauses where_ ++ equality_clauses where_)%list
    /\ if has_nullish_alternative where_
       then buildWhereClause where_ = inl nullish_TypeError
            /\ extractWhereParameters J where_ = inl nullish_TypeError
       else buildWhereClause where_
            = inr (render_where (equality_last_order where_))
            /\ extractWhereParameters J where_
               = inr (parseParameters J
                        (bound_values (equality_last_order where_))).
Proof.
  intros J where_. split; [reflexivity |].
  pose proof (buildWhereClause_clauses where_) as Hb.
  pose proof (extractWhereParameters_clauses J where_) as Hp.
  destruct (has_nullish_alternative where_); split; assumption.
Qed.

(* ===================================================================== *)
(** * 13. Theorems: the safety checks of the facade *)
(* ===================================================================== *)

Section GateFacts.

Variable E : Engine.
Variable J : Runtime.
Variable tableName : string.
Variable schema : list ColumnsSchema.

Lemma get_emptyOperand (P : obj) (k : string) :
  forallb (fun kv => emptyOperand (snd kv)) P = true ->
  emptyOperand (get P k) = true.
Proof.
  induction P as [| [k' v] P IH]; simpl; [reflexivity |].
  intros H. apply andb_true_iff in H. destruct H as [Hv HP].
  destruct (k' =? k); [exact Hv | apply IH, HP].
Qed.

Lemma emptyOperand_keys (v : value) :
  emptyOperand v = true -> keys v = [] /\ values v = [].
Proof.
  destruct v as [| | | | | | [| x xs] | [| f fs] |]; simpl;
    try discriminate; intros _; split; reflexivity.
Qed.

Lemma meaningless_operands (P : obj) :
  meaningless P = true ->
  forallb (fun kv => emptyOperand (snd kv)) P = true.
Proof.
  unfold meaningless. induction P as [| kv P IH]; simpl; [reflexivity |].
  intros H. apply andb_true_iff in H. destruct H as [H1 H2].
  apply andb_true_iff in H1. destruct H1 as [_ H1].
  rewrite H1. simpl. apply IH, H2.
Qed.

Lemma meaningless_regularFields (P : obj) :
  meaningless P = true -> regularFields P = [].
Proof.
  unfold meaningless, regularFields.
  induction P as [| kv P IH]; simpl; [reflexivity |].
  intros H. apply andb_true_iff in H. destruct H as [H1 H2].
  apply andb_true_iff in H1. destruct H1 as [H1 _].
  rewrite H1. simpl. apply IH, H2.
Qed.

Lemma meaningless_nonEmptyOperator (P : obj) (k : string) :
  meaningless P = true -> nonEmptyOperator P k = false.
Proof.
  intros H. unfold nonEmptyOperator.
  destruct (emptyOperand_keys (get P k)
              (get_emptyOperand P k (meaningless_operands P H))) as [Hk _].
  rewrite Hk. simpl. apply andb_false_r.
Qed.

(** A predicate with no meaningful condition fails the validity test. *)
Lemma meaningless_is_invalid (P : obj) :
  meaningless P = true -> hasValidWhereConditions P = false.
Proof.
  intros H. unfold hasValidWhereConditions.
  destruct P as [| kv P']; [reflexivity |].
  rewrite (meaningless_regularFields _ H).
  rewrite !(meaningless_nonEmptyOperator _ _ H).
  destruct (emptyOperand_keys (get (kv :: P') "OR")
              (get_emptyOperand _ "OR" (meaningless_operands _ H))) as [_ Hv].
  rewrite Hv. cbn [List.length Nat.eqb negb].
  rewrite !andb_false_r. reflexivity.
Qed.

Lemma select_emptyOr (w : world E) (where_ : obj) (sel : option obj)
  (limit skip : option Z) :
  hasEmptyOr where_ = true ->
  select E J tableName schema
    {| so_where := Some where_; so_select := sel;
       so_limit := limit; so_skip := skip |} w
  = (w, match validateSelectOptions
                {| so_where := Some where_; so_select := sel;
                   so_limit := limit; so_skip := skip |} with
        | inl e => Throw e
        | inr _ => Ok []
        end).
Proof.
  intros H. unfold select, bind.
  destruct (validateSelectOptions _) as [e | []]; simpl; [reflexivity |].
  rewrite H. reflexivity.
Qed.

Lemma count_emptyOr (w : world E) (where_ : obj) :
  hasEmptyOr where_ = true ->
  count E J tableName (Some where_) w = (w, Ok (VNum 0)).
Proof. intros H. unfold count. simpl. rewrite H. reflexivity. Qed.

Lemma delete_invalid (w : world E) (P : obj) :
  hasValidWhereConditions P = false ->
  delete E J tableName (Some P) w
  = (w, Throw (Error "Delete operation requires a non-empty WHERE clause for safety")).
Proof.
  intros H. unfold delete, bind, validateDeleteOptions. rewrite H. reflexivity.
Qed.

Lemma update_invalid (w : world E) (P V : obj) :
  V <> [] ->
  hasValidWhereConditions P = false ->
  update E J tableName {| uo_where := Some P; uo_values := Some V |} w
  = (w, Throw (Error "Update operation requires a non-empty WHERE clause for safety")).
Proof.
  intros HV H. unfold update, bind, validateUpdateOptions. simpl.
  destruct V as [| kv V]; [contradiction |]. rewrite H. reflexivity.
Qed.

Lemma update_empty_values (w : world E) (where_ : option obj) :
  update E J tableName {| uo_where := where_; uo_values := Some [] |} w
  = (w, Throw (Error "Update values cannot be empty")).
Proof. reflexivity. Qed.

End GateFacts.

(** C1, as the specification states it, fails: on [{OR: []}] [delete]
    does not return normally but throws the missing-predicate error of its
    validation, and [paginate] has no guard for the empty [OR]: it prepares
    and runs both of its statements, with the fragment [WHERE ()]. *)
Lemma C1_delete_throws_and_paginate_executes :
  delete quietEngine MiniJson.impl "Users" (Some emptyOrPredicate) quietWorld
  = (quietWorld,
     Throw (Error "Delete operation requires a non-empty WHERE clause for safety"))
  /\ w_log _ (fst (paginate quietEngine MiniJson.impl "Users" usersSchema
                     emptyOrPage quietWorld))
     = [ Prepare "SELECT COUNT(*) as count FROM Users WHERE ()";
         StmtGet "SELECT COUNT(*) as count FROM Users WHERE ()" [];
         Finalize "SELECT COUNT(*) as count FROM Users WHERE ()";
         Prepare "SELECT * FROM Users WHERE () LIMIT 10 OFFSET 0";
         StmtAll "SELECT * FROM Users WHERE () LIMIT 10 OFFSET 0" [];
         Finalize "SELECT * FROM Users WHERE () LIMIT 10 OFFSET 0" ].
Proof. split; reflexivity. Qed.

(** C1 (amended): for every table, engine and connection state, on the
    predicate [{OR: []}] [select] returns the empty list (once its
    limit/skip validation has passed) and [count] returns 0, both without
    any call to the engine; [delete] makes no call to the engine either and
    removes no row, but it throws the missing-predicate error instead of
    returning. *)
Theorem C1_empty_or_short_circuit :
  forall (E : Engine) (J : Runtime) (tableName : string)
         (schema : list ColumnsSchema) (w : world E)
         (sel : option obj) (limit skip : option Z),
    select E J tableName schema
      {| so_where := Some emptyOrPredicate; so_select := sel;
         so_limit := limit; so_skip := skip |} w
    = (w, match validateSelectOptions
                  {| so_where := Some emptyOrPredicate; so_select := sel;
                     so_limit := limit; so_skip := skip |} with
          | inl e => Throw e
          | inr _ => Ok []
          end)
    /\ count E J tableName (Some emptyOrPredicate) w = (w, Ok (VNum 0))
    /\ delete E J tableName (Some emptyOrPredicate) w
       = (w, Throw (Error "Delete operation requires a non-empty WHERE clause for safety"))
    /\ kind_of (Error "Delete operation requires a non-empty WHERE clause for safety")
       = MissingPredicate.
Proof.
  intros. split; [| split; [| split]].
  - apply select_emptyOr. reflexivity.
  - apply count_emptyOr. reflexivity.
  - apply delete_invalid. reflexivity.
  - reflexivity.
Qed.

(** C2: for every predicate P with no meaningful condition (the empty
    object, or every recognized operator key empty), [update] with
    non-empty values and [delete] throw a missing-predicate error before
    any call to the engine, so that no row changes; and [update] with an
    empty values object throws the empty-update error. *)
Theorem C2_predicate_safety
  (E : Engine) (J : Runtime) (tableName : string) (w : world E) (P V : obj)
  (HP : meaningless P = true) (HV : V <> []) :
  (exists e,
      update E J tableName {| uo_where := Some P; uo_values := Some V |} w
      = (w, Throw e)
      /\ kind_of e = MissingPredicate)
  /\ (exists e,
         delete E J tableName (Some P) w = (w, Throw e)
         /\ kind_of e = MissingPredicate)
  /\ (exists e,
         update E J tableName {| uo_where := Some P; uo_values := Some [] |} w
         = (w, Throw e)
         /\ kind_of e = EmptyUpdate).
Proof.
  pose proof (meaningless_is_invalid P HP) as Hinv.
  split; [| split].
  - eexists. split; [apply update_invalid; assumption | reflexivity].
  - eexists. split; [apply delete_invalid; assumption | reflexivity].
  - eexists. split; [apply update_empty_values | reflexivity].
Qed.

Lemma C2_predicate_safety_witness :
  exists e,
    update quietEngine MiniJson.impl "Users"
      {| uo_where := Some [("OR", VArr []); ("LIKE", VObj [])];
         uo_values := Some [("isActive", VBool false)] |} quietWorld
    = (quietWorld, Throw e)
    /\ kind_of e = MissingPredicate.
Proof.
  refine (proj1 (C2_predicate_safety quietEngine MiniJson.impl "Users"
                   quietWorld [("OR", VArr []); ("LIKE", VObj [])]
                   [("isActive", VBool false)] _ _)).
  - reflexivity.
  - discriminate.
Defined.

(* ===================================================================== *)
(** * 14. Theorems: JSON import *)
(* ===================================================================== *)

Lemma try_catch_returns {S A : Type} (m : M S A) (h : error -> M S A) (s : S) :
  (forall e s', exists s'' a, h e s' = (s'', Ok a)) ->
  forall e, snd (try_catch m h s) <> Throw e.
Proof.
  intros Hh e. unfold try_catch.
  destruct (m s) as [s' [a | e' |]]; simpl; try discriminate.
  destruct (Hh e' s') as [s'' [a Ha]]. rewrite Ha. simpl. discriminate.
Qed.

(** Whatever the engine, the input and the options, [fail] included,
    [importFromJson] returns or diverges: its outer [catch] turns every
    throw into an entry of [errors]. *)
Lemma importFromJson_never_throws
  (E : Engine) (J : Runtime) (tableName : string)
  (schema : list ColumnsSchema) (jsonData : value) (options : ImportOptions)
  (w : world E) (e : error) :
  snd (importFromJson E J tableName schema jsonData options w) <> Throw e.
Proof.
  unfold importFromJson.
  match goal with
  | |- context [try_catch ?m ?h ?s] =>
      pose proof (try_catch_returns m h s) as Hret;
      destruct (try_catch m h s) as [[w' st] r]
  end.
  simpl in *. apply Hret.
  intros e' [w1 st1]. eexists. eexists. reflexivity.
Qed.

(** C7 (the code at the failing input): under [fail], with an engine that
    refuses the insert, [importFromJson] does not throw; it returns
    statistics whose [errors] hold the swallowed error. *)
Theorem C7_fail_error_is_swallowed :
  snd (importFromJson rejectingEngine MiniJson.impl "Users" usersSchema
         oneRowExport failOptions rejectingWorld)
  = Ok {| imported := 0; skipped := 0;
          errors := ["Import failed: SQLiteError: UNIQUE constraint failed: Users.id"] |}.
Proof. reflexivity. Qed.

(** Under [ignore] each failing batch adds its message to [errors] and the
    loop goes on to the next batch. *)
Lemma importFromJson_ignore_accumulates :
  snd (importFromJson rejectingEngine MiniJson.impl "Users" usersSchema
         twoRowExport ignoreOptions rejectingWorld)
  = Ok {| imported := 0; skipped := 2;
          errors := ["Batch error: SQLiteError: UNIQUE constraint failed: Users.id";
                     "Batch error: SQLiteError: UNIQUE constraint failed: Users.id"] |}.
Proof. reflexivity. Qed.

Lemma bind_ok {S A B : Type} (m : M S A) (f : A -> M S B) (s s' : S) (a : A) :
  m s = (s', Ok a) -> bind m f s = f a s'.
Proof. intros H. unfold bind. rewrite H. reflexivity. Qed.

Section Termination.

Context {S : Type}.

Lemma terminates_ret {A : Type} (a : A) : terminates (@ret S A a).
Proof. intros s. discriminate. Qed.

Lemma terminates_throw {A : Type} (e : error) : terminates (@throw S A e).
Proof. intros s. discriminate. Qed.

Lemma terminates_lift_res {A : Type} (r : res A) : terminates (@lift_res S A r).
Proof. destruct r; [apply terminates_throw | apply terminates_ret]. Qed.

Lemma terminates_bind {A B : Type} (m : M S A) (f : A -> M S B) :
  terminates m -> (forall a, terminates (f a)) -> terminates (bind m f).
Proof.
  intros Hm Hf s. unfold bind. specialize (Hm s).
  destruct (m s) as [s' [a | e |]]; simpl in *;
    [apply Hf | discriminate | contradiction].
Qed.

Lemma terminates_try_catch {A : Type} (m : M S A) (h : error -> M S A) :
  terminates m -> (forall e, terminates (h e)) -> terminates (try_catch m h).
Proof.
  intros Hm Hh s. unfold try_catch. specialize (Hm s).
  destruct (m s) as [s' [a | e |]]; simpl in *;
    [discriminate | apply Hh | contradiction].
Qed.

Lemma terminates_for_each {A : Type} (xs : list A) (body : A -> M S unit) :
  (forall x, terminates (body x)) -> terminates (for_each xs body).
Proof.
  intros H. induction xs as [| x xs IH]; simpl.
  - apply terminates_ret.
  - apply terminates_bind; [apply H | intros _; exact IH].
Qed.

Lemma terminates_retryLoop {A : Type} (n : nat) (callback : M S A) :
  terminates callback -> terminates (retryLoop n callback).
Proof.
  intros Hc. induction n as [| n IH]; simpl.
  - apply terminates_throw.
  - apply terminates_try_catch; [exact Hc |].
    intros e. destruct (is_locked e); [| apply terminates_throw].
    destruct (Nat.eqb n 0); [apply terminates_throw | exact IH].
Qed.

End Termination.

Section ImportFacts.

Variable E : Engine.
Variable J : Runtime.
Variable tableName : string.
Variable schema : list ColumnsSchema.

Lemma terminates_engine (c : call) : terminates (engine E c).
Proof.
  intros w. unfold engine.
  destruct (exec E (w_db E w) c) as [d' [e | rep]]; discriminate.
Qed.

Lemma terminates_unit_call (c : call) :
  terminates (bind (engine E c) (fun _ => ret tt)).
Proof.
  apply terminates_bind; [apply terminates_engine | intros; apply terminates_ret].
Qed.

Lemma terminates_write_batch (records : list value) (q : string)
  (columns : list string) :
  terminates
    (executeWithErrorWrapper
       (bind (prepare E q) (fun _ =>
        bind (transaction E (fun _ m => m)
                (for_each records (fun record =>
                   bind (runRecord E J q columns record) (fun _ => ret tt))))
             (fun _ => finalize E q)))).
Proof.
  apply terminates_retryLoop.
  apply terminates_bind; [apply terminates_unit_call | intros _].
  apply terminates_bind; [| intros _; apply terminates_unit_call].
  unfold transaction.
  apply terminates_bind; [apply terminates_engine | intros _].
  apply terminates_try_catch.
  - apply terminates_bind.
    + apply terminates_for_each. intros record.
      apply terminates_bind; [| intros; apply terminates_ret].
      unfold runRecord.
      apply terminates_bind; [apply terminates_lift_res | intros params].
      unfold stmt_run.
      apply terminates_bind; [apply terminates_engine | intros; apply terminates_ret].
    + intros a. apply terminates_bind;
        [apply terminates_engine | intros; apply terminates_ret].
  - intros ex. apply terminates_bind;
      [apply terminates_engine | intros; apply terminates_throw].
Qed.

Lemma terminates_insert (records : list value) :
  terminates (insert E J tableName records).
Proof.
  unfold insert. destruct records as [| first rest];
    [apply terminates_throw |].
  apply terminates_bind; [apply terminates_lift_res | intros columns].
  apply terminates_write_batch.
Qed.

Lemma terminates_upsert (records : list value) (conflictColumns : list string)
  (updateColumns : option (list string)) :
  terminates (upsert E J tableName records conflictColumns updateColumns).
Proof.
  unfold upsert. destruct records as [| first rest];
    [apply terminates_throw |].
  apply terminates_bind; [apply terminates_lift_res | intros columns].
  apply terminates_write_batch.
Qed.

(** One turn of the batch loop under a strategy other than [fail]: it
    returns, counts the batch as imported or as skipped, and in the second
    case adds exactly one message, which starts with ["Batch error: "]. *)
Lemma import_batch_turn (cr : ConflictResolution) (batch : list value)
  (w : world E) (st : ImportStats) :
  cr <> Fail ->
  exists w' st',
    try_catch (importBatch E J tableName schema cr batch)
      (fun error =>
         match cr with
         | Fail => throw error
         | _ =>
             bind (modify_snd (push_error
                     ("Batch error: " ++ error_to_string error)))
                  (fun _ => modify_snd
                              (add_skipped (Z.of_nat (List.length batch))))
         end) (w, st)
    = ((w', st'), Ok tt)
    /\ ((st' = add_imported (Z.of_nat (List.length batch)) st)
        \/ (exists e,
              st' = add_skipped (Z.of_nat (List.length batch))
                      (push_error ("Batch error: " ++ error_to_string e) st))).
Proof.
  intros Hcr.
  assert (Hwrite : exists m : T E unit,
             terminates m
             /\ importBatch E J tableName schema cr batch
                = bind (on_fst m)
                    (fun _ => modify_snd
                                (add_imported (Z.of_nat (List.length batch))))).
  { unfold importBatch. destruct cr.
    - destruct (primaryKeyCol schema) as [pk |].
      + eexists. split; [apply terminates_upsert | reflexivity].
      + eexists. split; [apply terminates_insert | reflexivity].
    - eexists. split; [apply terminates_insert | reflexivity].
    - contradiction. }
  destruct Hwrite as [m [Hterm ->]].
  unfold try_catch, bind, on_fst, modify_snd. simpl.
  specialize (Hterm w).
  destruct (m w) as [w' [[] | e |]]; simpl in *.
  - exists w', (add_imported (Z.of_nat (List.length batch)) st).
    split; [reflexivity | left; reflexivity].
  - exists w', (add_skipped (Z.of_nat (List.length batch))
                  (push_error ("Batch error: " ++ error_to_string e) st)).
    split; [destruct cr; try contradiction; reflexivity |].
    right. exists e. reflexivity.
  - contradiction.
Qed.

(** The batch loop under a strategy other than [fail] runs through every
    batch: it returns, every record is counted as imported or as skipped,
    and messages are only added. *)
Lemma import_loop_continues (cr : ConflictResolution)
  (batches : list (list value)) :
  cr <> Fail ->
  forall (w : world E) (st : ImportStats),
  exists w' st',
    for_each batches (fun batch =>
      try_catch (importBatch E J tableName schema cr batch)
        (fun error =>
           match cr with
           | Fail => throw error
           | _ =>
               bind (modify_snd (push_error
                       ("Batch error: " ++ error_to_string error)))
                    (fun _ => modify_snd
                                (add_skipped (Z.of_nat (List.length batch))))
           end)) (w, st)
    = ((w', st'), Ok tt)
    /\ (imported st' + skipped st'
        = imported st + skipped st + batch_total batches)%Z
    /\ exists added, errors st' = (errors st ++ added)%list.
Proof.
  intros Hcr. induction batches as [| batch batches IH]; intros w st.
  - exists w, st. simpl. split; [reflexivity |]. split; [lia |].
    exists []. rewrite app_nil_r. reflexivity.
  - destruct (import_batch_turn cr batch w st Hcr) as [w1 [st1 [Hturn Hst1]]].
    destruct (IH w1 st1) as [w2 [st2 [Hloop [Hcount [added Herr]]]]].
    exists w2, st2. split; [| split].
    + cbn [for_each]. rewrite (bind_ok _ _ _ _ _ Hturn). exact Hloop.
    + simpl batch_total.
      destruct Hst1 as [-> | [e ->]]; simpl in Hcount; lia.
    + destruct Hst1 as [-> | [e ->]]; simpl in Herr.
      * exists added. exact Herr.
      * exists (("Batch error: " ++ error_to_string e) :: added).
        rewrite Herr, <- app_assoc. reflexivity.
Qed.

End ImportFacts.

(* ===================================================================== *)
(** * 15. Theorems: the columns of a batch *)
(* ===================================================================== *)

Section Emits.

Variable P : call -> Prop.
Context {S : Type}.
Variable lg : S -> list call.

Lemma emits_silent {A : Type} (m : M S A) :
  (forall s, lg (fst (m s)) = lg s) -> emits P lg m.
Proof.
  intros H s. exists []. rewrite app_nil_r. split; [apply H | constructor].
Qed.

Lemma emits_ret {A : Type} (a : A) : emits P lg (ret a).
Proof. apply emits_silent. reflexivity. Qed.

Lemma emits_throw {A : Type} (e : error) : emits P lg (@throw S A e).
Proof. apply emits_silent. reflexivity. Qed.

Lemma emits_diverge {A : Type} : emits P lg (@diverge S A).
Proof. apply emits_silent. reflexivity. Qed.

Lemma emits_lift_res {A : Type} (r : res A) : emits P lg (lift_res r).
Proof. destruct r; [apply emits_throw | apply emits_ret]. Qed.

Lemma emits_bind {A B : Type} (m : M S A) (f : A -> M S B) :
  emits P lg m -> (forall a, emits P lg (f a)) -> emits P lg (bind m f).
Proof.
  intros Hm Hf s. unfold bind.
  destruct (Hm s) as [l [Hl HP]].
  destruct (m s) as [s' [a | e |]]; simpl in *.
  - destruct (Hf a s') as [l' [Hl' HP']].
    exists (l ++ l')%list. rewrite Hl', Hl, app_assoc.
    split; [reflexivity | apply Forall_app; split; assumption].
  - exists l. split; assumption.
  - exists l. split; assumption.
Qed.

Lemma emits_try_catch {A : Type} (m : M S A) (h : error -> M S A) :
  emits P lg m -> (forall e, emits P lg (h e)) -> emits P lg (try_catch m h).
Proof.
  intros Hm Hh s. unfold try_catch.
  destruct (Hm s) as [l [Hl HP]].
  destruct (m s) as [s' [a | e |]]; simpl in *.
  - exists l. split; assumption.
  - destruct (Hh e s') as [l' [Hl' HP']].
    exists (l ++ l')%list. rewrite Hl', Hl, app_assoc.
    split; [reflexivity | apply Forall_app; split; assumption].
  - exists l. split; assumption.
Qed.

Lemma emits_for_each {A : Type} (xs : list A) (body : A -> M S unit) :
  (forall x, In x xs -> emits P lg (body x)) -> emits P lg (for_each xs body).
Proof.
  induction xs as [| x xs IH]; intros H; simpl.
  - apply emits_ret.
  - apply emits_bind.
    + apply H. left. reflexivity.
    + intros _. apply IH. intros y Hy. apply H. right. exact Hy.
Qed.

Lemma emits_retryLoop {A : Type} (n : nat) (callback : M S A) :
  emits P lg callback -> emits P lg (retryLoop n callback).
Proof.
  intros Hc. induction n as [| n IH]; simpl.
  - apply emits_throw.
  - apply emits_try_catch; [exact Hc |].
    intros e. destruct (is_locked e); [| apply emits_throw].
    destruct (Nat.eqb n 0); [apply emits_throw | exact IH].
Qed.

End Emits.

Section BatchFacts.

Variable E : Engine.
Variable J : Runtime.

Lemma emits_engine (P : call -> Prop) (c : call) :
  P c -> emits P (wlog E) (engine E c).
Proof.
  intros Hc w. exists [c]. unfold engine, wlog.
  destruct (exec E (w_db E w) c) as [d' [e | rep]]; simpl;
    (split; [reflexivity | constructor; [exact Hc | constructor]]).
Qed.

Lemma emits_on_fst {X A : Type} (P : call -> Prop) (m : T E A) :
  emits P (wlog E) m -> emits P (wlog1 E X) (on_fst m).
Proof.
  intros Hm [w x]. unfold on_fst, wlog1. simpl.
  destruct (Hm w) as [l [Hl HP]]. unfold wlog in Hl.
  destruct (m w) as [w' r]. simpl in *. exists l. split; assumption.
Qed.

Lemma emits_modify_snd {X : Type} (P : call -> Prop) (f : X -> X) :
  emits P (wlog1 E X) (modify_snd f).
Proof. apply emits_silent. reflexivity. Qed.

Lemma emits_stmt_run (P : call -> Prop) (q : string) (params : list value) :
  P (StmtRun q params) -> emits P (wlog E) (stmt_run E q params).
Proof.
  intros HP. unfold stmt_run.
  apply emits_bind; [apply emits_engine, HP | intros; apply emits_ret].
Qed.

Lemma emits_unit_call (P : call -> Prop) (c : call) :
  P c -> emits P (wlog E) (bind (engine E c) (fun _ => ret tt)).
Proof.
  intros HP. apply emits_bind; [apply emits_engine, HP | intros; apply emits_ret].
Qed.

Lemma emits_runRecord (records : list value) (q : string)
  (columns : list string) (record : value) :
  In record records ->
  emits (bound_to J records q columns) (wlog E) (runRecord E J q columns record).
Proof.
  intros Hin. unfold runRecord.
  destruct (formatRecordValuesForInsert J record columns) as [e | params] eqn:Hf.
  - apply emits_silent. reflexivity.
  - intros s.
    apply (emits_stmt_run (bound_to J records q columns) q params).
    simpl. split; [reflexivity |].
    exists record. split; assumption.
Qed.

(** One attempt of [insert] or [upsert]: the callback handed to the
    wrapper. *)
Lemma emits_write_attempt (records : list value) (q : string)
  (columns : list string) :
  emits (bound_to J records q columns) (wlog E)
    (bind (prepare E q) (fun _ =>
     bind (transaction E (fun _ m => m)
             (for_each records (fun record =>
                bind (runRecord E J q columns record) (fun _ => ret tt))))
          (fun _ => finalize E q))).
Proof.
  apply emits_bind; [apply emits_unit_call; reflexivity | intros _].
  apply emits_bind; [| intros _; apply emits_unit_call; reflexivity].
  unfold transaction.
  apply emits_bind; [apply emits_engine; exact I | intros _].
  apply emits_try_catch.
  - apply emits_bind.
    + apply emits_for_each. intros record Hin.
      apply emits_bind; [apply emits_runRecord, Hin | intros; apply emits_ret].
    + intros a. apply emits_bind;
        [apply emits_engine; exact I | intros; apply emits_ret].
  - intros ex. apply emits_bind;
      [apply emits_engine; exact I | intros; apply emits_throw].
Qed.

(** The body shared by [insert] and [upsert]. *)
Lemma emits_write_batch (records : list value) (q : string)
  (columns : list string) :
  emits (bound_to J records q columns) (wlog E)
    (executeWithErrorWrapper
       (bind (prepare E q) (fun _ =>
        bind (transaction E (fun _ m => m)
                (for_each records (fun record =>
                   bind (runRecord E J q columns record) (fun _ => ret tt))))
             (fun _ => finalize E q)))).
Proof. apply emits_retryLoop, emits_write_attempt. Qed.

Lemma emits_insert (tableName : string) (first : value) (rest : list value) :
  forall columns, objectKeys first = inr columns ->
  emits (bound_to J (first :: rest) (insertQuery tableName columns) columns) (wlog E)
    (insert E J tableName (first :: rest)).
Proof.
  intros columns Hk. unfold insert. rewrite Hk.
  intros s. apply (emits_write_batch (first :: rest)).
Qed.

Lemma emits_upsert (tableName : string) (first : value) (rest : list value)
  (conflictColumns : list string) (updateColumns : option (list string)) :
  forall columns, objectKeys first = inr columns ->
  emits (bound_to J (first :: rest)
           (upsertQuery tableName columns conflictColumns updateColumns)
           columns) (wlog E)
    (upsert E J tableName (first :: rest) conflictColumns updateColumns).
Proof.
  intros columns Hk. unfold upsert. rewrite Hk.
  intros s. apply (emits_write_batch (first :: rest)).
Qed.

Lemma in_firstn_or_skipn {A : Type} (n : nat) (l : list A) (x : A) :
  In x (firstn n l) \/ In x (skipn n l) -> In x l.
Proof.
  intros H. rewrite <- (firstn_skipn n l). apply in_or_app. exact H.
Qed.

Lemma chunk_loop_incl {A : Type} (fuel : nat) (array : list A) (size : nat)
  (batch : list A) (x : A) :
  In batch (chunk_loop fuel array size) -> In x batch -> In x array.
Proof.
  revert array. induction fuel as [| fuel IH]; intros array Hb Hx;
    [contradiction |].
  simpl in Hb. destruct array as [| a array']; [contradiction |].
  destruct Hb as [Hb | Hb].
  - subst batch. apply (in_firstn_or_skipn size). left. exact Hx.
  - apply (in_firstn_or_skipn size). right. apply (IH _ Hb Hx).
Qed.

Lemma chunk_incl {A : Type} (array : list A) (size : Z)
  (batches : list (list A)) (batch : list A) (x : A) :
  chunk array size = Some batches -> In batch batches -> In x batch ->
  In x array.
Proof.
  unfold chunk. destruct array as [| a array'].
  - intros H. inversion H. contradiction.
  - destruct (size <=? 0)%Z; [discriminate |].
    intros H Hb Hx. injection H as H. subst batches.
    exact (chunk_loop_incl (List.length (a :: array')) (a :: array')
             (Z.to_nat size) batch x Hb Hx).
Qed.

(** One attempt of [bulkInsert], once the columns are known. *)
Lemma emits_bulk_attempt (records : list value) (q : string)
  (columns : list string) (batches : list (list value)) :
  (forall batch record, In batch batches -> In record batch ->
                        In record records) ->
  emits (bound_to J records q columns) (wlog1 E (list Z))
    (bind (on_fst (prepare E q)) (fun _ =>
     bind (for_each batches (fun batch =>
             transaction E (fun _ m => on_fst m)
               (for_each batch (fun record =>
                  bind (on_fst (runRecord E J q columns record))
                       (fun rowid =>
                  modify_snd (fun ids : list Z => (ids ++ [rowid])%list))))))
          (fun _ =>
     bind (on_fst (finalize E q)) (fun _ =>
     fun s : world E * list Z => (s, Ok (snd s)))))).
Proof.
  intros Hin.
  apply emits_bind;
    [apply emits_on_fst, emits_unit_call; reflexivity | intros _].
  apply emits_bind.
  - apply emits_for_each. intros batch Hbatch.
    unfold transaction.
    apply emits_bind; [apply emits_on_fst, emits_engine; exact I | intros _].
    apply emits_try_catch.
    + apply emits_bind.
      * apply emits_for_each. intros record Hrecord.
        apply emits_bind; [| intros; apply emits_modify_snd].
        apply emits_on_fst, emits_runRecord.
        exact (Hin batch record Hbatch Hrecord).
      * intros a. apply emits_bind;
          [apply emits_on_fst, emits_engine; exact I | intros; apply emits_ret].
    + intros ex. apply emits_bind;
        [apply emits_on_fst, emits_engine; exact I | intros; apply emits_throw].
  - intros _. apply emits_bind;
      [apply emits_on_fst, emits_unit_call; reflexivity | intros _].
    apply emits_silent. reflexivity.
Qed.

Lemma emits_bulkInsert (tableName : string) (first : value)
  (rest : list value) (batchSize : Z) :
  forall columns, objectKeys first = inr columns ->
  emits (bound_to J (first :: rest) (insertQuery tableName columns) columns) (wlog E)
    (bulkInsert E J tableName (first :: rest) batchSize).
Proof.
  intros columns Hk. unfold bulkInsert.
  destruct (chunk (first :: rest) batchSize) as [batches |] eqn:Hc;
    [| apply emits_diverge].
  rewrite Hk. intros w. cbv beta.
  match goal with
  | |- context [@executeWithErrorWrapper ?S0 ?A0 ?c] => set (cb := c)
  end.
  assert (Hm : emits (bound_to J (first :: rest)
                        (insertQuery tableName columns) columns)
                     (wlog1 E (list Z)) (executeWithErrorWrapper cb)).
  { apply emits_retryLoop. subst cb. intros s.
    rewrite (bind_ok (lift_res (inr columns)) _ s s columns eq_refl).
    apply (emits_bulk_attempt (first :: rest) (insertQuery tableName columns)
             columns batches).
    intros batch record Hbatch Hrecord.
    exact (chunk_incl _ _ _ _ _ Hc Hbatch Hrecord). }
  destruct (Hm (w, [])) as [l [Hl HP]].
  unfold wlog1 in Hl. simpl in Hl.
  destruct (executeWithErrorWrapper cb (w, [])) as [[w' ids] r].
  simpl in *. exists l. split; assumption.
Qed.

(** ** What a call that returns has written *)

Lemma bind_ok_inv {S A B : Type} (m : M S A) (f : A -> M S B)
  (s s'' : S) (b : B) :
  bind m f s = (s'', Ok b) ->
  exists s' a, m s = (s', Ok a) /\ f a s' = (s'', Ok b).
Proof.
  unfold bind. destruct (m s) as [s' [a | e |]]; intros H;
    try discriminate H.
  exists s', a. split; [reflexivity | exact H].
Qed.

Lemma try_catch_ok {S A : Type} (m : M S A) (h : error -> M S A)
  (s s' : S) (a : A) :
  m s = (s', Ok a) -> try_catch m h s = (s', Ok a).
Proof. intros H. unfold try_catch. rewrite H. reflexivity. Qed.

Lemma lift_res_ok_inv {S A : Type} (r : res A) (s s' : S) (a : A) :
  lift_res r s = (s', Ok a) -> r = inr a /\ s' = s.
Proof.
  destruct r as [e | a0]; intros H; [discriminate H |].
  injection H as <- <-. split; reflexivity.
Qed.

Lemma on_fst_ok_inv {S X A : Type} (m : M S A) (s s' : S * X) (a : A) :
  on_fst m s = (s', Ok a) -> m (fst s) = (fst s', Ok a) /\ snd s' = snd s.
Proof.
  unfold on_fst. destruct (m (fst s)) as [s1 r]. intros H.
  injection H as <- ->. split; reflexivity.
Qed.

Lemma on_fst_ok {S X A : Type} (m : M S A) (s s1 : S) (x : X) (a : A) :
  m s = (s1, Ok a) -> on_fst m (s, x) = ((s1, x), Ok a).
Proof. intros H. unfold on_fst. cbn [fst snd]. rewrite H. reflexivity. Qed.

(** A call that returns has been made once, and logged. *)
Lemma call_ok_inv {A : Type} (c : call) (k : reply -> A) (w w' : world E)
  (a : A) :
  bind (engine E c) (fun r => ret (k r)) w = (w', Ok a) ->
  w_log E w' = (w_log E w ++ [c])%list.
Proof.
  unfold bind, engine, ret.
  destruct (exec E (w_db E w) c) as [d' [e | rep]]; intros H;
    [discriminate H |].
  injection H as <- _. reflexivity.
Qed.

(** An engine that accepts every call answers this one. *)
Lemma call_accepted {A : Type} (c : call) (k : reply -> A) (w : world E) :
  accepting E ->
  exists w' a,
    bind (engine E c) (fun r => ret (k r)) w = (w', Ok a)
    /\ w_log E w' = (w_log E w ++ [c])%list.
Proof.
  intros Hacc. unfold bind, engine, ret.
  destruct (Hacc (w_db E w) c) as (d' & rep & Hx). rewrite Hx.
  eexists. eexists. split; reflexivity.
Qed.

(** The wrapper returns what one run of its callback returns; the runs
    before it only added to the log. *)
Lemma retryLoop_ok_inv {S A : Type} (lg : S -> list call) (n : nat)
  (callback : M S A) :
  (forall s, exists l, lg (fst (callback s)) = (lg s ++ l)%list) ->
  forall (s s' : S) (a : A),
    retryLoop n callback s = (s', Ok a) ->
    exists s0 earlier,
      callback s0 = (s', Ok a) /\ lg s0 = (lg s ++ earlier)%list.
Proof.
  intros Hlog. induction n as [| n IH]; intros s s' a H; [discriminate H |].
  cbn [retryLoop] in H. unfold try_catch in H.
  destruct (Hlog s) as [l Hl].
  destruct (callback s) as [s1 [a1 | e |]] eqn:Hc; [| | discriminate H].
  - injection H as <- <-. exists s, []. split; [exact Hc |].
    rewrite app_nil_r. reflexivity.
  - destruct (is_locked e); [| discriminate H].
    destruct (Nat.eqb n 0); [discriminate H |].
    destruct (IH s1 s' a H) as (s0 & earlier & H0 & Hl0).
    exists s0, (l ++ earlier)%list. split; [exact H0 |].
    cbn [fst] in Hl. rewrite Hl0, Hl, app_assoc. reflexivity.
Qed.

Lemma emits_extends {S A : Type} (P : call -> Prop) (lg : S -> list call)
  (m : M S A) :
  emits P lg m -> forall s, exists l, lg (fst (m s)) = (lg s ++ l)%list.
Proof. intros H s. destruct (H s) as [l [Hl _]]. exists l. exact Hl. Qed.

(** The loop over the records, on the connection alone. *)
Lemma write_loop_ok_inv (q : string) (columns : list string)
  (records : list value) :
  forall (w w' : world E) (u : unit),
    for_each records (fun record =>
      bind (runRecord E J q columns record) (fun _ => ret tt)) w
    = (w', Ok u) ->
    exists bound,
      bound_rows J columns records = inr bound
      /\ w_log E w' = (w_log E w ++ map (StmtRun q) bound)%list.
Proof.
  induction records as [| record records IH]; intros w w' u H.
  - injection H as <- _. exists []. split; [reflexivity |].
    rewrite app_nil_r. reflexivity.
  - cbn [for_each] in H.
    apply bind_ok_inv in H. destruct H as (w1 & [] & Hbody & Hrest).
    apply bind_ok_inv in Hbody. destruct Hbody as (w2 & rowid & Hrun & Hret).
    injection Hret as <-.
    unfold runRecord in Hrun.
    apply bind_ok_inv in Hrun. destruct Hrun as (w0 & vals & Hf & Hrun).
    apply lift_res_ok_inv in Hf. destruct Hf as [Hf ->].
    apply call_ok_inv in Hrun.
    destruct (IH w2 w' u Hrest) as (bound & Hb & Hlog).
    exists (vals :: bound). unfold bound_rows in *. cbn [res_map].
    rewrite Hf, Hb. cbn [res_bind]. split; [reflexivity |].
    rewrite Hlog, Hrun, <- app_assoc. reflexivity.
Qed.

Lemma write_loop_accepted (q : string) (columns : list string)
  (records : list value) (bound : list (list value)) :
  accepting E ->
  bound_rows J columns records = inr bound ->
  forall w : world E,
    exists w',
      for_each records (fun record =>
        bind (runRecord E J q columns record) (fun _ => ret tt)) w
      = (w', Ok tt)
      /\ w_log E w' = (w_log E w ++ map (StmtRun q) bound)%list.
Proof.
  intros Hacc. revert bound.
  induction records as [| record records IH]; intros bound Hb w.
  - injection Hb as <-. exists w. split; [reflexivity |].
    rewrite app_nil_r. reflexivity.
  - unfold bound_rows in Hb. cbn [res_map] in Hb.
    destruct (formatRecordValuesForInsert J record columns)
      as [e | vals] eqn:Hf; [discriminate Hb |].
    cbn [res_bind] in Hb.
    destruct (res_map _ records) as [e | rest] eqn:Hrest;
      [discriminate Hb |].
    cbn [res_bind] in Hb. injection Hb as <-.
    destruct (call_accepted (StmtRun q vals)
                (fun r => match r with Changes rowid => rowid | _ => 0%Z end)
                w Hacc) as (w1 & rowid & Hrun & Hlog1).
    destruct (IH rest Hrest w1) as (w' & Hloop & Hlog).
    exists w'. split.
    + cbn [for_each]. unfold runRecord. rewrite Hf.
      rewrite (bind_ok _ _ w w1 tt).
      * exact Hloop.
      * rewrite (bind_ok _ _ w w1 rowid); [reflexivity |].
        rewrite (bind_ok (lift_res (inr vals)) _ w w vals eq_refl).
        exact Hrun.
    + rewrite Hlog, Hlog1, <- app_assoc. reflexivity.
Qed.

(** A transaction on the connection that returns began, ran its body and
    committed. *)
Lemma transaction_ok_inv {A : Type} (body : T E A) (w w' : world E) (a : A) :
  transaction E (fun _ m => m) body w = (w', Ok a) ->
  exists w1 w2,
    w_log E w1 = (w_log E w ++ [TxBegin])%list
    /\ body w1 = (w2, Ok a)
    /\ w_log E w' = (w_log E w2 ++ [TxCommit])%list.
Proof.
  unfold transaction. intros H.
  apply bind_ok_inv in H. destruct H as (w1 & rep & Hbegin & H).
  assert (Hlog1 : w_log E w1 = (w_log E w ++ [TxBegin])%list).
  { apply (call_ok_inv TxBegin (fun r => r) w w1 rep).
    unfold bind, ret. rewrite Hbegin. reflexivity. }
  unfold try_catch in H.
  match type of H with
  | context [match ?m w1 with _ => _ end] =>
      destruct (m w1) as [w3 [a' | e |]] eqn:Hm
  end; [| | discriminate H].
  - injection H as <- <-.
    apply bind_ok_inv in Hm. destruct Hm as (w2 & a0 & Hbody & Hcommit).
    assert (a0 = a') as ->.
    { apply bind_ok_inv in Hcommit.
      destruct Hcommit as (w4 & rep' & _ & Hret).
      injection Hret as _ <-. reflexivity. }
    exists w1, w2. split; [exact Hlog1 |]. split; [exact Hbody |].
    exact (call_ok_inv TxCommit (fun _ => a') w2 w3 a' Hcommit).
  - apply bind_ok_inv in H. destruct H as (w4 & rep' & _ & Hthrow).
    discriminate Hthrow.
Qed.

(** One attempt of [insert] or [upsert] that returns has prepared the
    statement, bound every record in order inside one transaction, and
    finalized the statement. *)
Lemma write_attempt_ok_inv (q : string) (columns : list string)
  (records : list value) (w w' : world E) (u : unit) :
  bind (prepare E q) (fun _ =>
  bind (transaction E (fun _ m => m)
          (for_each records (fun record =>
             bind (runRecord E J q columns record) (fun _ => ret tt))))
       (fun _ => finalize E q)) w = (w', Ok u) ->
  exists bound,
    bound_rows J columns records = inr bound
    /\ w_log E w' = (w_log E w ++ written_once q bound)%list.
Proof.
  intros H.
  apply bind_ok_inv in H. destruct H as (w1 & [] & Hprep & H).
  apply call_ok_inv in Hprep.
  apply bind_ok_inv in H. destruct H as (w2 & [] & Htx & Hfin).
  apply call_ok_inv in Hfin.
  apply transaction_ok_inv in Htx.
  destruct Htx as (w3 & w4 & Hbegin & Hloop & Hcommit).
  apply write_loop_ok_inv in Hloop. destruct Hloop as (bound & Hb & Hloop).
  exists bound. split; [exact Hb |].
  rewrite Hfin, Hcommit, Hloop, Hbegin, Hprep. unfold written_once.
  rewrite <- !app_assoc. reflexivity.
Qed.

Lemma write_attempt_accepted (q : string) (columns : list string)
  (records : list value) (bound : list (list value)) :
  accepting E ->
  bound_rows J columns records = inr bound ->
  forall w : world E,
    exists w',
      bind (prepare E q) (fun _ =>
      bind (transaction E (fun _ m => m)
              (for_each records (fun record =>
                 bind (runRecord E J q columns record) (fun _ => ret tt))))
           (fun _ => finalize E q)) w = (w', Ok tt)
      /\ w_log E w' = (w_log E w ++ written_once q bound)%list.
Proof.
  intros Hacc Hb w.
  destruct (call_accepted (Prepare q) (fun _ => tt) w Hacc)
    as (w1 & [] & Hprep & Hlog1).
  destruct (call_accepted TxBegin (fun r => r) w1 Hacc)
    as (w2 & rep & Hbegin & Hlog2).
  destruct (write_loop_accepted q columns records bound Hacc Hb w2)
    as (w3 & Hloop & Hlog3).
  destruct (call_accepted TxCommit (fun _ => tt) w3 Hacc)
    as (w4 & [] & Hcommit & Hlog4).
  destruct (call_accepted (Finalize q) (fun _ => tt) w4 Hacc)
    as (w5 & [] & Hfin & Hlog5).
  exists w5. split.
  - rewrite (bind_ok _ _ w w1 tt Hprep).
    rewrite (bind_ok _ _ w1 w4 tt); [exact Hfin |].
    unfold transaction.
    assert (Hb1 : engine E TxBegin w1 = (w2, Ok rep)).
    { revert Hbegin. unfold bind, ret.
      destruct (engine E TxBegin w1) as [w2' [r | e |]]; intros H;
        try discriminate H.
      injection H as <- <-. reflexivity. }
    rewrite (bind_ok _ _ w1 w2 rep Hb1).
    apply try_catch_ok.
    rewrite (bind_ok _ _ w2 w3 tt Hloop).
    revert Hcommit. unfold bind, ret.
    destruct (engine E TxCommit w3) as [w4' [r | e |]]; intros H;
      try discriminate H.
    injection H as <-. reflexivity.
  - rewrite Hlog5, Hlog4, Hlog3, Hlog2, Hlog1. unfold written_once.
    rewrite <- !app_assoc. reflexivity.
Qed.

(** [insert] and [upsert] past the wrapper. *)
Lemma write_batch_ok_inv (q : string) (columns : list string)
  (records : list value) (w w' : world E) (u : unit) :
  executeWithErrorWrapper
    (bind (prepare E q) (fun _ =>
     bind (transaction E (fun _ m => m)
             (for_each records (fun record =>
                bind (runRecord E J q columns record) (fun _ => ret tt))))
          (fun _ => finalize E q))) w = (w', Ok u) ->
  exists earlier bound,
    bound_rows J columns records = inr bound
    /\ w_log E w'
       = (w_log E w ++ earlier ++ written_once q bound)%list.
Proof.
  intros H. unfold executeWithErrorWrapper in H.
  apply (retryLoop_ok_inv (wlog E)) in H.
  - destruct H as (w0 & earlier & Hrun & Hlog).
    apply write_attempt_ok_inv in Hrun. destruct Hrun as (bound & Hb & Hrun).
    exists earlier, bound. split; [exact Hb |].
    unfold wlog in Hlog. rewrite Hrun, Hlog, <- app_assoc. reflexivity.
  - apply (emits_extends (bound_to J records q columns)).
    apply emits_write_attempt.
Qed.

Lemma write_batch_accepted (q : string) (columns : list string)
  (records : list value) (bound : list (list value)) :
  accepting E ->
  bound_rows J columns records = inr bound ->
  forall w : world E,
    exists w',
      executeWithErrorWrapper
        (bind (prepare E q) (fun _ =>
         bind (transaction E (fun _ m => m)
                 (for_each records (fun record =>
                    bind (runRecord E J q columns record) (fun _ => ret tt))))
              (fun _ => finalize E q))) w = (w', Ok tt)
      /\ w_log E w' = (w_log E w ++ written_once q bound)%list.
Proof.
  intros Hacc Hb w.
  destruct (write_attempt_accepted q columns records bound Hacc Hb w)
    as (w' & Hrun & Hlog).
  exists w'. split; [| exact Hlog].
  unfold executeWithErrorWrapper. cbn [retryLoop].
  apply try_catch_ok. exact Hrun.
Qed.

(** ** The same for [bulkInsert], whose state carries the ids *)

Lemma call1_ok_inv {X A : Type} (c : call) (k : reply -> A)
  (s s' : world E * X) (a : A) :
  on_fst (bind (engine E c) (fun r => ret (k r))) s = (s', Ok a) ->
  w_log E (fst s') = (w_log E (fst s) ++ [c])%list /\ snd s' = snd s.
Proof.
  intros H. apply on_fst_ok_inv in H. destruct H as [H Hsnd].
  split; [exact (call_ok_inv c k _ _ a H) | exact Hsnd].
Qed.

Lemma engine1_ok_inv {X : Type} (c : call) (s s' : world E * X) (r : reply) :
  @on_fst _ X _ (engine E c) s = (s', Ok r) ->
  w_log E (fst s') = (w_log E (fst s) ++ [c])%list.
Proof.
  intros H. apply on_fst_ok_inv in H. destruct H as [H _].
  apply (call_ok_inv c (fun r => r) _ _ r).
  unfold bind, ret. rewrite H. reflexivity.
Qed.

Lemma engine_accepted (c : call) (w : world E) :
  accepting E ->
  exists w' r,
    engine E c w = (w', Ok r)
    /\ w_log E w' = (w_log E w ++ [c])%list.
Proof.
  intros Hacc. unfold engine.
  destruct (Hacc (w_db E w) c) as (d' & rep & Hx). rewrite Hx.
  eexists. eexists. split; reflexivity.
Qed.

Lemma bulk_loop_ok_inv (q : string) (columns : list string)
  (batch : list value) :
  forall (s s' : world E * list Z) (u : unit),
    for_each batch (fun record =>
      bind (on_fst (runRecord E J q columns record)) (fun rowid =>
      modify_snd (fun ids : list Z => (ids ++ [rowid])%list))) s
    = (s', Ok u) ->
    exists bound,
      bound_rows J columns batch = inr bound
      /\ w_log E (fst s') = (w_log E (fst s) ++ map (StmtRun q) bound)%list.
Proof.
  induction batch as [| record batch IH]; intros s s' u H.
  - injection H as <- _. exists []. split; [reflexivity |].
    rewrite app_nil_r. reflexivity.
  - cbn [for_each] in H.
    apply bind_ok_inv in H. destruct H as (s1 & [] & Hbody & Hrest).
    apply bind_ok_inv in Hbody. destruct Hbody as (s2 & rowid & Hrun & Hmod).
    unfold modify_snd in Hmod. injection Hmod as <-.
    apply on_fst_ok_inv in Hrun. destruct Hrun as [Hrun _].
    unfold runRecord in Hrun.
    apply bind_ok_inv in Hrun. destruct Hrun as (w0 & vals & Hf & Hrun).
    apply lift_res_ok_inv in Hf. destruct Hf as [Hf ->].
    apply call_ok_inv in Hrun.
    destruct (IH _ s' u Hrest) as (bound & Hb & Hlog).
    cbn [fst] in Hlog.
    exists (vals :: bound). unfold bound_rows in *. cbn [res_map].
    rewrite Hf, Hb. cbn [res_bind]. split; [reflexivity |].
    rewrite Hlog, Hrun, <- app_assoc. reflexivity.
Qed.

Lemma bulk_loop_accepted (q : string) (columns : list string)
  (batch : list value) (bound : list (list value)) :
  accepting E ->
  bound_rows J columns batch = inr bound ->
  forall s : world E * list Z,
    exists s',
      for_each batch (fun record =>
        bind (on_fst (runRecord E J q columns record)) (fun rowid =>
        modify_snd (fun ids : list Z => (ids ++ [rowid])%list))) s
      = (s', Ok tt)
      /\ w_log E (fst s') = (w_log E (fst s) ++ map (StmtRun q) bound)%list.
Proof.
  intros Hacc. revert bound.
  induction batch as [| record batch IH]; intros bound Hb s.
  - injection Hb as <-. exists s. split; [reflexivity |].
    rewrite app_nil_r. reflexivity.
  - unfold bound_rows in Hb. cbn [res_map] in Hb.
    destruct (formatRecordValuesForInsert J record columns)
      as [e | vals] eqn:Hf; [discriminate Hb |].
    cbn [res_bind] in Hb.
    destruct (res_map _ batch) as [e | rest] eqn:Hrest;
      [discriminate Hb |].
    cbn [res_bind] in Hb. injection Hb as <-.
    destruct s as [w ids].
    destruct (call_accepted (StmtRun q vals)
                (fun r => match r with Changes rowid => rowid | _ => 0%Z end)
                w Hacc) as (w1 & rowid & Hrun & Hlog1).
    destruct (IH rest Hrest (w1, (ids ++ [rowid])%list))
      as (s' & Hloop & Hlog).
    exists s'. split.
    + cbn [for_each].
      rewrite (bind_ok _ _ (w, ids) (w1, (ids ++ [rowid])%list) tt).
      * exact Hloop.
      * rewrite (bind_ok _ _ (w, ids) (w1, ids) rowid); [reflexivity |].
        apply on_fst_ok. unfold runRecord. rewrite Hf.
        rewrite (bind_ok (lift_res (inr vals)) _ w w vals eq_refl).
        exact Hrun.
    + rewrite Hlog. cbn [fst]. rewrite Hlog1, <- app_assoc. reflexivity.
Qed.

Lemma bulk_transaction_ok_inv {A : Type} (body : M (world E * list Z) A)
  (s s' : world E * list Z) (a : A) :
  transaction E (fun _ m => on_fst m) body s = (s', Ok a) ->
  exists s1 s2,
    w_log E (fst s1) = (w_log E (fst s) ++ [TxBegin])%list
    /\ body s1 = (s2, Ok a)
    /\ w_log E (fst s') = (w_log E (fst s2) ++ [TxCommit])%list.
Proof.
  unfold transaction. intros H.
  apply bind_ok_inv in H. destruct H as (s1 & rep & Hbegin & H).
  apply engine1_ok_inv in Hbegin.
  unfold try_catch in H.
  match type of H with
  | context [match ?m s1 with _ => _ end] =>
      destruct (m s1) as [s3 [a' | e |]] eqn:Hm
  end; [| | discriminate H].
  - injection H as <- <-.
    apply bind_ok_inv in Hm. destruct Hm as (s2 & a0 & Hbody & Hcommit).
    apply bind_ok_inv in Hcommit.
    destruct Hcommit as (s4 & rep' & Hcommit & Hret).
    injection Hret as <- <-.
    apply engine1_ok_inv in Hcommit.
    exists s1, s2. split; [exact Hbegin |]. split; [exact Hbody |].
    exact Hcommit.
  - apply bind_ok_inv in H. destruct H as (s4 & rep' & _ & Hthrow).
    discriminate Hthrow.
Qed.

Lemma bulk_batches_ok_inv (q : string) (columns : list string)
  (batches : list (list value)) :
  forall (s s' : world E * list Z) (u : unit),
    for_each batches (fun batch =>
      transaction E (fun _ m => on_fst m)
        (for_each batch (fun record =>
           bind (on_fst (runRecord E J q columns record)) (fun rowid =>
           modify_snd (fun ids : list Z => (ids ++ [rowid])%list))))) s
    = (s', Ok u) ->
    exists bound,
      res_map (bound_rows J columns) batches = inr bound
      /\ w_log E (fst s')
         = (w_log E (fst s)
            ++ List.concat
                 (map (fun rows =>
                         (TxBegin :: map (StmtRun q) rows ++ [TxCommit])%list)
                      bound))%list.
Proof.
  induction batches as [| batch batches IH]; intros s s' u H.
  - injection H as <- _. exists []. split; [reflexivity |].
    rewrite app_nil_r. reflexivity.
  - cbn [for_each] in H.
    apply bind_ok_inv in H. destruct H as (s1 & [] & Htx & Hrest).
    apply bulk_transaction_ok_inv in Htx.
    destruct Htx as (s2 & s3 & Hbegin & Hloop & Hcommit).
    apply bulk_loop_ok_inv in Hloop. destruct Hloop as (rows & Hb & Hloop).
    destruct (IH s1 s' u Hrest) as (bound & Hbs & Hlog).
    exists (rows :: bound). cbn [res_map]. rewrite Hb, Hbs. cbn [res_bind].
    split; [reflexivity |].
    rewrite Hlog, Hcommit, Hloop, Hbegin. cbn [map List.concat].
    repeat (first [rewrite <- app_assoc | progress cbn [app]]). reflexivity.
Qed.

Lemma bulk_batches_accepted (q : string) (columns : list string)
  (batches : list (list value)) (bound : list (list (list value))) :
  accepting E ->
  res_map (bound_rows J columns) batches = inr bound ->
  forall s : world E * list Z,
    exists s',
      for_each batches (fun batch =>
        transaction E (fun _ m => on_fst m)
          (for_each batch (fun record =>
             bind (on_fst (runRecord E J q columns record)) (fun rowid =>
             modify_snd (fun ids : list Z => (ids ++ [rowid])%list))))) s
      = (s', Ok tt)
      /\ w_log E (fst s')
         = (w_log E (fst s)
            ++ List.concat
                 (map (fun rows =>
                         (TxBegin :: map (StmtRun q) rows ++ [TxCommit])%list)
                      bound))%list.
Proof.
  intros Hacc. revert bound.
  induction batches as [| batch batches IH]; intros bound Hb s.
  - injection Hb as <-. exists s. split; [reflexivity |].
    rewrite app_nil_r. reflexivity.
  - cbn [res_map] in Hb.
    destruct (bound_rows J columns batch) as [e | rows] eqn:Hrows;
      [discriminate Hb |].
    cbn [res_bind] in Hb.
    destruct (res_map _ batches) as [e | rest] eqn:Hrest;
      [discriminate Hb |].
    cbn [res_bind] in Hb. injection Hb as <-.
    destruct s as [w ids].
    destruct (engine_accepted TxBegin w Hacc) as (w1 & rep & Hbegin & Hlog1).
    destruct (bulk_loop_accepted q columns batch rows Hacc Hrows (w1, ids))
      as ([w2 ids2] & Hloop & Hlog2).
    cbn [fst] in Hlog2.
    destruct (engine_accepted TxCommit w2 Hacc)
      as (w3 & rep' & Hcommit & Hlog3).
    destruct (IH rest eq_refl (w3, ids2)) as (s' & Hnext & Hlog).
    cbn [fst] in Hlog.
    exists s'. split.
    + cbn [for_each].
      rewrite (bind_ok _ _ (w, ids) (w3, ids2) tt); [exact Hnext |].
      unfold transaction.
      rewrite (bind_ok _ _ (w, ids) (w1, ids) rep (on_fst_ok _ _ _ _ _ Hbegin)).
      apply try_catch_ok.
      rewrite (bind_ok _ _ (w1, ids) (w2, ids2) tt Hloop).
      rewrite (bind_ok _ _ (w2, ids2) (w3, ids2) rep'
                 (on_fst_ok _ _ _ _ _ Hcommit)).
      reflexivity.
    + rewrite Hlog. cbn [fst map List.concat].
      rewrite Hlog3, Hlog2, Hlog1.
      repeat (first [rewrite <- app_assoc | progress cbn [app]]). reflexivity.
Qed.

(** One attempt of [bulkInsert] that returns. *)
Lemma bulk_attempt_ok_inv (q : string) (columns : list string)
  (batches : list (list value)) (s s' : world E * list Z) (ids : list Z) :
  bind (on_fst (prepare E q)) (fun _ =>
  bind (for_each batches (fun batch =>
          transaction E (fun _ m => on_fst m)
            (for_each batch (fun record =>
               bind (on_fst (runRecord E J q columns record))
                    (fun rowid =>
               modify_snd (fun ids : list Z => (ids ++ [rowid])%list))))))
       (fun _ =>
  bind (on_fst (finalize E q)) (fun _ =>
  fun s : world E * list Z => (s, Ok (snd s))))) s = (s', Ok ids) ->
  exists bound,
    res_map (bound_rows J columns) batches = inr bound
    /\ w_log E (fst s')
       = (w_log E (fst s) ++ written_in_batches q bound)%list.
Proof.
  intros H.
  apply bind_ok_inv in H. destruct H as (s1 & [] & Hprep & H).
  apply call1_ok_inv in Hprep. destruct Hprep as [Hprep _].
  apply bind_ok_inv in H. destruct H as (s2 & [] & Hloop & H).
  apply bind_ok_inv in H. destruct H as (s3 & [] & Hfin & H).
  injection H as <- _.
  apply call1_ok_inv in Hfin. destruct Hfin as [Hfin _].
  apply bulk_batches_ok_inv in Hloop. destruct Hloop as (bound & Hb & Hloop).
  exists bound. split; [exact Hb |].
  rewrite Hfin, Hloop, Hprep. unfold written_in_batches.
  rewrite <- !app_assoc. reflexivity.
Qed.

Lemma bulk_attempt_accepted (q : string) (columns : list string)
  (batches : list (list value)) (bound : list (list (list value))) :
  accepting E ->
  res_map (bound_rows J columns) batches = inr bound ->
  forall s : world E * list Z,
    exists s',
      bind (on_fst (prepare E q)) (fun _ =>
      bind (for_each batches (fun batch =>
              transaction E (fun _ m => on_fst m)
                (for_each batch (fun record =>
                   bind (on_fst (runRecord E J q columns record))
                        (fun rowid =>
                   modify_snd (fun ids : list Z => (ids ++ [rowid])%list))))))
           (fun _ =>
      bind (on_fst (finalize E q)) (fun _ =>
      fun s : world E * list Z => (s, Ok (snd s))))) s = (s', Ok (snd s'))
      /\ w_log E (fst s')
         = (w_log E (fst s) ++ written_in_batches q bound)%list.
Proof.
  intros Hacc Hb [w ids].
  destruct (call_accepted (Prepare q) (fun _ => tt) w Hacc)
    as (w1 & [] & Hprep & Hlog1).
  destruct (bulk_batches_accepted q columns batches bound Hacc Hb (w1, ids))
    as ([w2 ids2] & Hloop & Hlog2).
  cbn [fst] in Hlog2.
  destruct (call_accepted (Finalize q) (fun _ => tt) w2 Hacc)
    as (w3 & [] & Hfin & Hlog3).
  exists (w3, ids2). split.
  - rewrite (bind_ok _ _ (w, ids) (w1, ids) tt (on_fst_ok _ _ _ _ _ Hprep)).
    rewrite (bind_ok _ _ (w1, ids) (w2, ids2) tt Hloop).
    rewrite (bind_ok _ _ (w2, ids2) (w3, ids2) tt
               (on_fst_ok _ _ _ _ _ Hfin)).
    reflexivity.
  - cbn [fst]. rewrite Hlog3, Hlog2, Hlog1. unfold written_in_batches.
    rewrite <- !app_assoc. reflexivity.
Qed.

End BatchFacts.

(** ** The three operations *)

Lemma insert_ok_inv (E : Engine) (J : Runtime) (tableName : string)
  (first : value) (rest : list value) (columns : list string)
  (w w' : world E) (u : unit) :
  objectKeys first = inr columns ->
  insert E J tableName (first :: rest) w = (w', Ok u) ->
  exists earlier bound,
    bound_rows J columns (first :: rest) = inr bound
    /\ w_log E w'
       = (w_log E w ++ earlier
          ++ written_once (insertQuery tableName columns) bound)%list.
Proof.
  intros Hk. unfold insert. rewrite Hk.
  rewrite (bind_ok (lift_res (inr columns)) _ w w columns eq_refl).
  apply write_batch_ok_inv.
Qed.

Lemma upsert_ok_inv (E : Engine) (J : Runtime) (tableName : string)
  (first : value) (rest : list value) (conflictColumns : list string)
  (updateColumns : option (list string)) (columns : list string)
  (w w' : world E) (u : unit) :
  objectKeys first = inr columns ->
  upsert E J tableName (first :: rest) conflictColumns updateColumns w
  = (w', Ok u) ->
  exists earlier bound,
    bound_rows J columns (first :: rest) = inr bound
    /\ w_log E w'
       = (w_log E w ++ earlier
          ++ written_once
               (upsertQuery tableName columns conflictColumns updateColumns)
               bound)%list.
Proof.
  intros Hk. unfold upsert. rewrite Hk.
  rewrite (bind_ok (lift_res (inr columns)) _ w w columns eq_refl).
  apply write_batch_ok_inv.
Qed.

Lemma bulkInsert_ok_inv (E : Engine) (J : Runtime) (tableName : string)
  (first : value) (rest : list value) (batchSize : Z)
  (columns : list string) (w w' : world E) (ids : list Z) :
  objectKeys first = inr columns ->
  bulkInsert E J tableName (first :: rest) batchSize w = (w', Ok ids) ->
  exists batches earlier bound,
    chunk (first :: rest) batchSize = Some batches
    /\ res_map (bound_rows J columns) batches = inr bound
    /\ w_log E w'
       = (w_log E w ++ earlier
          ++ written_in_batches (insertQuery tableName columns) bound)%list.
Proof.
  intros Hk. unfold bulkInsert.
  destruct (chunk (first :: rest) batchSize) as [batches |] eqn:Hc;
    [| intros H; discriminate H].
  rewrite Hk.
  match goal with
  | |- context [@executeWithErrorWrapper ?S0 ?A0 ?c] => set (cb := c)
  end.
  destruct (executeWithErrorWrapper cb (w, [])) as [[w1 ids1] r] eqn:Hrun.
  intros H. injection H as <- ->.
  unfold executeWithErrorWrapper in Hrun.
  apply (retryLoop_ok_inv (wlog1 E (list Z))) in Hrun.
  - destruct Hrun as (s0 & earlier & Hrun & Hlog).
    subst cb.
    rewrite (bind_ok (lift_res (inr columns)) _ s0 s0 columns eq_refl) in Hrun.
    apply bulk_attempt_ok_inv in Hrun. destruct Hrun as (bound & Hb & Hrun).
    exists batches, earlier, bound.
    split; [reflexivity |]. split; [exact Hb |].
    unfold wlog1 in Hlog. cbn [fst] in *.
    rewrite Hrun, Hlog, <- app_assoc. reflexivity.
  - apply (emits_extends
             (bound_to J (first :: rest) (insertQuery tableName columns)
                columns)).
    subst cb. intros s.
    rewrite (bind_ok (lift_res (inr columns)) _ s s columns eq_refl).
    apply (emits_bulk_attempt E J (first :: rest)
             (insertQuery tableName columns) columns batches).
    intros batch record Hbatch Hrecord.
    exact (chunk_incl _ _ _ _ _ Hc Hbatch Hrecord).
Qed.

Lemma insert_accepted (E : Engine) (J : Runtime) (tableName : string)
  (first : value) (rest : list value) (columns : list string)
  (bound : list (list value)) :
  accepting E ->
  objectKeys first = inr columns ->
  bound_rows J columns (first :: rest) = inr bound ->
  forall w : world E,
    exists w',
      insert E J tableName (first :: rest) w = (w', Ok tt)
      /\ w_log E w'
         = (w_log E w
            ++ written_once (insertQuery tableName columns) bound)%list.
Proof.
  intros Hacc Hk Hb w. unfold insert. rewrite Hk.
  rewrite (bind_ok (lift_res (inr columns)) _ w w columns eq_refl).
  apply write_batch_accepted; assumption.
Qed.

Lemma upsert_accepted (E : Engine) (J : Runtime) (tableName : string)
  (first : value) (rest : list value) (conflictColumns : list string)
  (updateColumns : option (list string)) (columns : list string)
  (bound : list (list value)) :
  accepting E ->
  objectKeys first = inr columns ->
  bound_rows J columns (first :: rest) = inr bound ->
  forall w : world E,
    exists w',
      upsert E J tableName (first :: rest) conflictColumns updateColumns w
      = (w', Ok tt)
      /\ w_log E w'
         = (w_log E w
            ++ written_once
                 (upsertQuery tableName columns conflictColumns updateColumns)
                 bound)%list.
Proof.
  intros Hacc Hk Hb w. unfold upsert. rewrite Hk.
  rewrite (bind_ok (lift_res (inr columns)) _ w w columns eq_refl).
  apply write_batch_accepted; assumption.
Qed.

Lemma bulkInsert_accepted (E : Engine) (J : Runtime) (tableName : string)
  (first : value) (rest : list value) (batchSize : Z)
  (columns : list string) (batches : list (list value))
  (bound : list (list (list value))) :
  accepting E ->
  objectKeys first = inr columns ->
  chunk (first :: rest) batchSize = Some batches ->
  res_map (bound_rows J columns) batches = inr bound ->
  forall w : world E,
    exists w' ids,
      bulkInsert E J tableName (first :: rest) batchSize w = (w', Ok ids)
      /\ w_log E w'
         = (w_log E w
            ++ written_in_batches (insertQuery tableName columns) bound)%list.
Proof.
  intros Hacc Hk Hc Hb w. unfold bulkInsert. rewrite Hc, Hk.
  match goal with
  | |- context [@executeWithErrorWrapper ?S0 ?A0 ?c] => set (cb := c)
  end.
  destruct (bulk_attempt_accepted E J (insertQuery tableName columns) columns
              batches bound Hacc Hb (w, [])) as ([w1 ids1] & Hrun & Hlog).
  assert (Hcb : executeWithErrorWrapper cb (w, []) = ((w1, ids1), Ok ids1)).
  { unfold executeWithErrorWrapper. cbn [retryLoop]. apply try_catch_ok.
    subst cb.
    rewrite (bind_ok (lift_res (inr columns)) _ (w, []) (w, []) columns
               eq_refl).
    exact Hrun. }
  rewrite Hcb. exists w1, ids1. split; [reflexivity | exact Hlog].
Qed.

(** ** Reading a record by the column list *)

Lemma getMember_defined (J : Runtime) (v : value) (k : string) :
  nullish v = false -> exists x, getMember J v k = inr x.
Proof.
  intros Hv. destruct v; try discriminate Hv; cbn [getMember];
    try (eexists; reflexivity).
  - destruct (k =? "length"); [eexists; reflexivity |].
    destruct (index_of_key _ k); eexists; reflexivity.
  - destruct (k =? "length"); [eexists; reflexivity |].
    destruct (index_of_key _ k); eexists; reflexivity.
Qed.

Lemma formatRecordValuesForInsert_defined (J : Runtime) (record : value)
  (columns : list string) :
  nullish record = false ->
  exists vals, formatRecordValuesForInsert J record columns = inr vals.
Proof.
  intros Hv. unfold formatRecordValuesForInsert.
  induction columns as [| column columns IH]; [eexists; reflexivity |].
  cbn [res_map].
  destruct (getMember_defined J record column Hv) as [x Hx]. rewrite Hx.
  destruct IH as [vals IH]. rewrite IH.
  eexists. reflexivity.
Qed.

Lemma bound_rows_defined (J : Runtime) (columns : list string)
  (records : list value) :
  (forall record, In record records -> nullish record = false) ->
  exists bound, bound_rows J columns records = inr bound.
Proof.
  unfold bound_rows.
  induction records as [| record records IH]; intros Hall;
    [eexists; reflexivity |].
  cbn [res_map].
  destruct (formatRecordValuesForInsert_defined J record columns
              (Hall record (or_introl eq_refl))) as [vals Hvals].
  rewrite Hvals.
  destruct (IH (fun r Hr => Hall r (or_intror Hr))) as [bound Hb].
  rewrite Hb. eexists. reflexivity.
Qed.

Lemma batches_bound_defined (J : Runtime) (columns : list string)
  (batches : list (list value)) :
  (forall batch record, In batch batches -> In record batch ->
                        nullish record = false) ->
  exists bound, res_map (bound_rows J columns) batches = inr bound.
Proof.
  induction batches as [| batch batches IH]; intros Hall;
    [eexists; reflexivity |].
  cbn [res_map].
  destruct (bound_rows_defined J columns batch
              (fun r Hr => Hall batch r (or_introl eq_refl) Hr))
    as [rows Hrows].
  rewrite Hrows.
  destruct (IH (fun b r Hb Hr => Hall b r (or_intror Hb) Hr)) as [bound Hb].
  rewrite Hb. eexists. reflexivity.
Qed.

Lemma none_nullish (first : value) (rest : list value) :
  nullish first = false -> existsb nullish rest = false ->
  forall record, In record (first :: rest) -> nullish record = false.
Proof.
  intros Hfirst Hrest record [<- | Hin]; [exact Hfirst |].
  destruct (nullish record) eqn:Hn; [| reflexivity].
  rewrite <- Hrest. symmetry. apply existsb_exists.
  exists record. split; assumption.
Qed.

Lemma formatRecordValuesForInsert_object (J : Runtime) (fields : obj)
  (columns : list string) :
  formatRecordValuesForInsert J (VObj fields) columns
  = inr (map (fun column => parseParameter J (member J fields column)) columns).
Proof.
  unfold formatRecordValuesForInsert.
  induction columns as [| c columns IH]; [reflexivity |].
  cbn [res_map map]. rewrite IH. reflexivity.
Qed.

Lemma formatRecordValuesForInsert_spec (J : Runtime) (fields : obj)
  (columns : list string) :
  (forall column, In column columns -> has fields column = false ->
                  Prototype_get J (VObj fields) column = VUndefined) ->
  formatRecordValuesForInsert J (VObj fields) columns
  = inr (spec_bound_values J fields columns).
Proof.
  intros Hplain. rewrite formatRecordValuesForInsert_object.
  unfold spec_bound_values, member. f_equal.
  apply map_ext_in. intros column Hin.
  destruct (has fields column) eqn:Hhas; [reflexivity |].
  rewrite (Hplain column Hin Hhas). reflexivity.
Qed.

Lemma chunk_defined {A : Type} (array : list A) (size : Z) :
  (0 < size)%Z -> exists batches, chunk array size = Some batches.
Proof.
  intros Hsize. unfold chunk. destruct array as [| a array];
    [eexists; reflexivity |].
  destruct (size <=? 0)%Z eqn:Hle; [apply Z.leb_le in Hle; lia |].
  eexists. reflexivity.
Qed.

(** A complete run on an engine that accepts every statement: the second
    record lacks [id] and carries [extra]; it is bound as [("", "b")]. *)
Lemma insert_binds_by_first_record :
  w_log _ (fst (insert quietEngine MiniJson.impl "Users"
                  [ VObj [("id", VNum 1); ("name", VStr "a")];
                    VObj [("name", VStr "b"); ("extra", VNum 3)] ]
                  quietWorld))
  = [ Prepare "INSERT INTO Users (id, name) VALUES (?, ?)";
      TxBegin;
      StmtRun "INSERT INTO Users (id, name) VALUES (?, ?)" [VNum 1; VStr "a"];
      StmtRun "INSERT INTO Users (id, name) VALUES (?, ?)"
        [VStr EmptyString; VStr "b"];
      TxCommit;
      Finalize "INSERT INTO Users (id, name) VALUES (?, ?)" ].
Proof. reflexivity. Qed.



(* ===================================================================== *)
(** * 16. Theorems: pool conservation *)
(* ===================================================================== *)

Module PoolFacts.
Import Pool.

(** Record updates are reduced together with the projections applied to
    them, which keeps the terms small. *)
Ltac unfold_pool :=
  cbn [updateStats recordAcquireTime bump resolve reject log_enqueued
       alloc_promise with_pending with_acquireTimes with_stats
       with_waitingQueue with_available with_connections
       incCreated incDestroyed incAcquired incReleased incErrors
       connections availableConnections waitingQueue stats acquireTimes
       nextPromise pending enqueued resolved rejected
       totalConnections activeConnections idleConnections waitingClients
       totalCreated totalDestroyed totalAcquired totalReleased totalErrors]
    in *.

Ltac pool_proj :=
  cbn [connections availableConnections waitingQueue stats acquireTimes
       nextPromise pending enqueued resolved rejected
       totalConnections activeConnections idleConnections waitingClients
       totalCreated totalDestroyed totalAcquired totalReleased totalErrors]
    in *.

Lemma filter_length_le {A : Type} (f : A -> bool) (l : list A) :
  List.length (filter f l) <= List.length l.
Proof.
  induction l as [| a l IH]; simpl; [lia |]. destruct (f a); simpl; lia.
Qed.

Lemma conservation_updateStats (p : pool) :
  balanced p -> conservation (updateStats p).
Proof.
  unfold balanced, conservation. unfold_pool. simpl. intros H.
  pose proof (filter_length_le inUse (connections p)).
  repeat split; try lia.
Qed.

Lemma conservation_balanced (p : pool) : conservation p -> balanced p.
Proof. intros [H _]. exact H. Qed.

(** Conservation reads only the connections, the queue and the counters. *)
Lemma conservation_ext (p q : pool) :
  connections q = connections p ->
  waitingQueue q = waitingQueue p ->
  totalConnections (stats q) = totalConnections (stats p) ->
  activeConnections (stats q) = activeConnections (stats p) ->
  idleConnections (stats q) = idleConnections (stats p) ->
  waitingClients (stats q) = waitingClients (stats p) ->
  totalCreated (stats q) = totalCreated (stats p) ->
  totalDestroyed (stats q) = totalDestroyed (stats p) ->
  conservation p -> conservation q.
Proof.
  unfold conservation. intros -> -> -> -> -> -> -> ->. exact (fun H => H).
Qed.

Lemma conn_update_ids (cs : list PooledConnection) (i : ident)
  (f : PooledConnection -> PooledConnection) :
  (forall c, id (f c) = id c) ->
  map id (conn_update cs i f) = map id cs.
Proof.
  intros Hf. unfold conn_update. rewrite map_map. apply map_ext.
  intros c. destruct (Nat.eqb (id c) i); [apply Hf | reflexivity].
Qed.

Lemma conn_update_length (cs : list PooledConnection) (i : ident)
  (f : PooledConnection -> PooledConnection) :
  List.length (conn_update cs i f) = List.length cs.
Proof. apply length_map. Qed.

Lemma conn_set_fresh (cs : list PooledConnection) (c : PooledConnection) :
  conn_has cs (id c) = false ->
  conn_set cs c = (cs ++ [c])%list.
Proof.
  unfold conn_has. induction cs as [| c' cs IH]; simpl; [reflexivity |].
  intros H. apply orb_false_iff in H. destruct H as [H1 H2].
  rewrite H1. f_equal. apply IH, H2.
Qed.

Lemma conn_has_false_notin (cs : list PooledConnection) (i : ident) :
  conn_has cs i = false -> ~ In i (map id cs).
Proof.
  unfold conn_has. induction cs as [| c cs IH]; simpl; [tauto |].
  intros H. apply orb_false_iff in H. destruct H as [H1 H2].
  apply Nat.eqb_neq in H1. intros [Heq | Hin]; [congruence | exact (IH H2 Hin)].
Qed.

Lemma conn_get_some_in (cs : list PooledConnection) (i : ident)
  (c : PooledConnection) :
  conn_get cs i = Some c -> In i (map id cs).
Proof.
  unfold conn_get. intros H. apply find_some in H. destruct H as [Hin Heq].
  apply Nat.eqb_eq in Heq. subst i. apply in_map. exact Hin.
Qed.

Lemma conn_delete_ids (cs : list PooledConnection) (i : ident) :
  map id (conn_delete cs i) = filter (fun j => negb (Nat.eqb j i)) (map id cs).
Proof.
  unfold conn_delete. induction cs as [| c cs IH]; simpl; [reflexivity |].
  destruct (Nat.eqb (id c) i); simpl; [exact IH | f_equal; exact IH].
Qed.

Lemma filter_out_length (l : list nat) (i : nat) :
  NoDup l -> In i l ->
  S (List.length (filter (fun j => negb (Nat.eqb j i)) l)) = List.length l.
Proof.
  induction l as [| a l IH]; intros Hnd Hin; [contradiction |].
  inversion Hnd as [| ? ? Hnotin Hnd']; subst. simpl.
  destruct (Nat.eqb_spec a i) as [-> | Hne]; simpl.
  - f_equal.
    assert (Hall : filter (fun j => negb (Nat.eqb j i)) l = l).
    { clear IH Hin Hnd Hnd'. induction l as [| b l IH]; [reflexivity |].
      simpl. destruct (Nat.eqb_spec b i) as [-> | Hb]; simpl.
      - exfalso. apply Hnotin. left. reflexivity.
      - f_equal. apply IH. intros H. apply Hnotin. right. exact H. }
    rewrite Hall. reflexivity.
  - f_equal. apply IH; [exact Hnd' |].
    destruct Hin as [-> | Hin]; [contradiction | exact Hin].
Qed.

Lemma conn_delete_length (cs : list PooledConnection) (i : ident) :
  NoDup (map id cs) -> In i (map id cs) ->
  S (List.length (conn_delete cs i)) = List.length cs.
Proof.
  intros Hnd Hin.
  pose proof (filter_out_length _ _ Hnd Hin) as H.
  rewrite <- conn_delete_ids in H. rewrite !length_map in H. exact H.
Qed.

Lemma conn_delete_unique (cs : list PooledConnection) (i : ident) :
  NoDup (map id cs) -> NoDup (map id (conn_delete cs i)).
Proof. intros H. rewrite conn_delete_ids. apply NoDup_filter, H. Qed.

Lemma sound_updateStats (p : pool) :
  unique_ids p -> balanced p -> sound (updateStats p).
Proof.
  intros Hu Hb. split; [exact Hu | apply conservation_updateStats, Hb].
Qed.

Lemma sound_createConnection (now : Z) (uuid : ident) (p : pool) :
  conn_has (connections p) uuid = false ->
  sound p -> sound (createConnection now uuid p).
Proof.
  intros Hfresh [Hu Hc]. unfold createConnection.
  apply sound_updateStats.
  - unfold unique_ids. unfold_pool. pool_proj.
    rewrite conn_set_fresh by exact Hfresh.
    rewrite map_app. cbn [map id]. apply NoDup_app.
    + exact Hu.
    + constructor; [intros [] | constructor].
    + intros x Hx [Hx' | []]. subst x.
      exact (conn_has_false_notin _ _ Hfresh Hx).
  - apply conservation_balanced in Hc. unfold balanced in *.
    unfold_pool. pool_proj. rewrite conn_set_fresh by exact Hfresh.
    rewrite length_app. cbn [List.length]. lia.
Qed.

Lemma sound_destroyConnection (i : ident) (p : pool) :
  sound p -> sound (destroyConnection i p).
Proof.
  intros [Hu Hc]. unfold destroyConnection.
  destruct (conn_get (connections p) i) as [c |] eqn:Hget;
    [| split; assumption].
  apply sound_updateStats.
  - unfold unique_ids. unfold_pool. pool_proj. apply conn_delete_unique, Hu.
  - apply conservation_balanced in Hc. unfold balanced in *. unfold_pool. pool_proj.
    pose proof (conn_delete_length _ i Hu (conn_get_some_in _ _ _ Hget)).
    lia.
Qed.

Lemma sound_fold_destroy {A : Type} (f : pool -> A -> pool) (xs : list A)
  (p : pool) :
  (forall q x, sound q -> sound (f q x)) -> sound p -> sound (fold_left f xs p).
Proof.
  intros Hf. revert p. induction xs as [| x xs IH]; intros p Hp; simpl;
    [exact Hp | apply IH, Hf, Hp].
Qed.

Lemma set_flags_id (now : Z) (b : bool) (c : PooledConnection) :
  id (set_lastUsed now (set_inUse b c)) = id c.
Proof. reflexivity. Qed.

Lemma sound_acquire (cfg : PoolConfig) (now : Z) (uuid : ident) (opens : bool)
  (p : pool) :
  match draws cfg p (Acquire now uuid opens) with
  | Some i => conn_has (connections p) i = false
  | None => True
  end ->
  sound p -> sound (acquire cfg now uuid opens p).
Proof.
  intros Hfresh Hp. unfold acquire. cbn [draws] in Hfresh.
  assert (Ha : sound (alloc_promise p)) by exact Hp.
  change (availableConnections (alloc_promise p))
    with (availableConnections p).
  change (connections (alloc_promise p)) with (connections p).
  destruct (availableConnections p) as [| connectionId rest].
  - destruct (Nat.ltb (List.length (connections p)) (maxConnections cfg)).
    + destruct opens.
      * destruct (sound_createConnection now uuid (alloc_promise p) Hfresh Ha)
          as [Hu Hc].
        split; [exact Hu | exact Hc].
      * exact Ha.
    + destruct Ha as [Hu Hc]. apply sound_updateStats; [exact Hu |].
      apply conservation_balanced in Hc. exact Hc.
  - destruct (conn_get _ connectionId) as [c |]; [| exact Ha].
    destruct Ha as [Hu Hc].
    assert (Hs : sound
                   (updateStats
                      (recordAcquireTime 0
                         (bump incAcquired
                            (with_connections
                               (conn_update
                                  (connections (with_available rest (alloc_promise p)))
                                  connectionId
                                  (fun c0 => set_lastUsed now (set_inUse true c0)))
                               (with_available rest (alloc_promise p))))))).
    { apply sound_updateStats.
      - unfold unique_ids. unfold_pool. pool_proj.
        rewrite conn_update_ids by reflexivity. exact Hu.
      - apply conservation_balanced in Hc. unfold balanced in *.
        unfold_pool. pool_proj. rewrite conn_update_length. exact Hc. }
    exact Hs.
Qed.

Lemma sound_resume (now : Z) (p : pool) : sound p -> sound (resume now p).
Proof.
  intros [Hu Hc]. unfold resume.
  destruct (pending p) as [| pc rest]; [split; assumption |].
  destruct (pc_created pc) as [connectionId |].
  - assert (Hs : sound
                   (updateStats
                      (recordAcquireTime (now - pc_startTime pc)
                         (bump incAcquired
                            (with_available
                               (removelast
                                  (availableConnections (with_pending rest p)))
                               (with_connections
                                  (conn_update
                                     (connections (with_pending rest p))
                                     connectionId (set_inUse true))
                                  (with_pending rest p))))))).
    { apply sound_updateStats.
      - unfold unique_ids. unfold_pool. pool_proj.
        rewrite conn_update_ids by reflexivity. exact Hu.
      - apply conservation_balanced in Hc. unfold balanced in *.
        unfold_pool. pool_proj. rewrite conn_update_length. exact Hc. }
    exact Hs.
  - split; [exact Hu | exact Hc].
Qed.

Lemma sound_release (cfg : PoolConfig) (connectionId : ident) (now : Z)
  (p : pool) :
  sound p -> sound (release cfg connectionId now p).
Proof.
  intros [Hu Hc]. unfold release.
  destruct (conn_get (connections p) connectionId) as [connection |];
    [| split; assumption].
  set (p1 := bump incReleased
               (with_connections
                  (conn_update (connections p) connectionId
                     (fun c => set_lastUsed now (set_inUse false c))) p)).
  assert (Hu1 : unique_ids p1).
  { unfold unique_ids, p1. unfold_pool. pool_proj.
    rewrite conn_update_ids by reflexivity. exact Hu. }
  assert (Hc1 : conservation p1).
  { unfold conservation in *. unfold p1. unfold_pool. pool_proj.
    rewrite conn_update_length. exact Hc. }
  destruct (maxConnectionAge cfg <? now - createdAt connection)%Z.
  - apply sound_destroyConnection. split; assumption.
  - destruct (waitingQueue p1) as [| waiter rest] eqn:Hq.
    + apply sound_updateStats.
      * exact Hu1.
      * apply conservation_balanced in Hc1. exact Hc1.
    + apply sound_updateStats.
      * unfold unique_ids in *. unfold_pool. pool_proj.
        rewrite conn_update_ids by reflexivity. exact Hu1.
      * apply conservation_balanced in Hc1. unfold balanced in *.
        unfold_pool. pool_proj. rewrite conn_update_length. exact Hc1.
Qed.

Lemma sound_timeout (w : nat) (p : pool) : sound p -> sound (timeout w p).
Proof.
  intros [Hu Hc]. unfold timeout.
  destruct (existsb _ (waitingQueue p)); [| split; assumption].
  assert (Hs : sound (updateStats
                        (with_waitingQueue (remove_waiter w (waitingQueue p)) p))).
  { apply sound_updateStats; [exact Hu |].
    apply conservation_balanced in Hc. exact Hc. }
  exact Hs.
Qed.

Lemma sound_cleanupIdleConnections (cfg : PoolConfig) (now : Z) (p : pool) :
  sound p -> sound (cleanupIdleConnections cfg now p).
Proof.
  intros Hp. unfold cleanupIdleConnections.
  apply sound_fold_destroy; [| exact Hp].
  intros q i Hq. apply sound_destroyConnection, Hq.
Qed.

Lemma sound_performHealthChecks (healthy : ident -> bool) (p : pool) :
  sound p -> sound (performHealthChecks healthy p).
Proof.
  intros Hp. unfold performHealthChecks.
  apply sound_fold_destroy; [| exact Hp].
  intros q c Hq.
  destruct (negb (inUse c) && negb (healthy (id c)));
    [apply sound_destroyConnection, Hq | exact Hq].
Qed.

Lemma sound_newPool : sound newPool.
Proof.
  split; [constructor |]. unfold conservation. simpl. repeat split.
Qed.

(** Every event but [Close] keeps the invariant, provided the id it draws
    is fresh. *)
Lemma sound_step (cfg : PoolConfig) (p : pool) (e : event) :
  is_close e = false ->
  match draws cfg p e with
  | Some i => conn_has (connections p) i = false
  | None => True
  end ->
  sound p -> sound (step cfg p e).
Proof.
  intros Hclose Hfresh Hp. destruct e; simpl step.
  - apply sound_createConnection; assumption.
  - apply sound_acquire; assumption.
  - apply sound_resume, Hp.
  - apply sound_release, Hp.
  - apply sound_timeout, Hp.
  - apply sound_cleanupIdleConnections, Hp.
  - apply sound_performHealthChecks, Hp.
  - destruct Hp as [Hu Hc]. apply sound_updateStats; [exact Hu |].
    apply conservation_balanced, Hc.
  - discriminate.
Qed.

Lemma sound_run (cfg : PoolConfig) (es : list event) (p : pool) :
  forallb (fun e => negb (is_close e)) es = true ->
  admissible cfg p es ->
  sound p -> sound (run cfg p es).
Proof.
  revert p. induction es as [| e es IH]; intros p Hnc Hadm Hp; [exact Hp |].
  simpl in Hnc. apply andb_true_iff in Hnc. destruct Hnc as [He Hnc].
  destruct Hadm as [Hfresh Hadm].
  simpl. apply IH; [exact Hnc | exact Hadm |].
  apply sound_step; [| exact Hfresh | exact Hp].
  destruct (is_close e); [discriminate | reflexivity].
Qed.

(** Conservation holds at every state that a pool reaches by events other
    than [close], ids being drawn fresh. *)
Lemma conservation_until_close (cfg : PoolConfig) (es : list event) :
  forallb (fun e => negb (is_close e)) es = true ->
  admissible cfg newPool es ->
  conservation (run cfg newPool es).
Proof.
  intros Hnc Hadm. apply (sound_run cfg es newPool Hnc Hadm sound_newPool).
Qed.

(** C8 (the code at the failing input): a pool that opened its two
    minimum connections and is then closed has no connection left, while
    its statistics still say two created, none destroyed and two in total;
    [getStats] afterwards refreshes the totals but not the counters. *)
Theorem C8_close_breaks_conservation :
  let p := run defaultConfig newPool [Create 0 1; Create 0 2; Close] in
  connections p = []
  /\ totalCreated (stats p) = 2
  /\ totalDestroyed (stats p) = 0
  /\ totalConnections (stats p) = 2
  /\ ~ conservation p
  /\ ~ conservation (step defaultConfig p GetStats).
Proof.
  cbv zeta. repeat split; try reflexivity.
  - intros [H _]. vm_compute in H. discriminate.
  - intros [H _]. vm_compute in H. discriminate.
Qed.

End PoolFacts.

(* ===================================================================== *)
(** * 17. Theorems: FIFO service of waiters *)
(* ===================================================================== *)

Module FifoFacts.
Import Pool.
Import PoolFacts.

(** ** Lists *)

Lemma before_in {A : Type} (l : list A) (a b : A) :
  before l a b -> In a l /\ In b l.
Proof.
  intros [l1 [l2 [l3 ->]]]. split.
  - apply in_or_app. right. left. reflexivity.
  - apply in_or_app. right. right. apply in_or_app. right. left. reflexivity.
Qed.

Lemma before_app_l {A : Type} (l l' : list A) (a b : A) :
  before l a b -> before (l ++ l') a b.
Proof.
  intros [l1 [l2 [l3 ->]]]. exists l1, l2, (l3 ++ l')%list.
  rewrite <- !app_assoc. simpl. rewrite <- !app_assoc. reflexivity.
Qed.

Lemma before_snoc {A : Type} (l : list A) (a b : A) :
  In a l -> before (l ++ [b]) a b.
Proof.
  intros H. apply in_split in H. destruct H as [l1 [l2 ->]].
  exists l1, l2, []. rewrite <- app_assoc. reflexivity.
Qed.

Lemma sorted_app_lt (l1 l2 : list nat) (a b : nat) :
  StronglySorted lt (l1 ++ a :: l2) -> In b l2 -> a < b.
Proof.
  induction l1 as [| x l1 IH]; simpl; intros H Hb.
  - inversion H as [| ? ? _ Hall]; subst.
    rewrite Forall_forall in Hall. apply Hall, Hb.
  - inversion H; subst. apply IH; assumption.
Qed.

Lemma sorted_before (l : list nat) (a b : nat) :
  StronglySorted lt l -> before l a b -> a < b.
Proof.
  intros Hs [l1 [l2 [l3 ->]]].
  apply (sorted_app_lt l1 (l2 ++ b :: l3) a b Hs).
  apply in_or_app. right. left. reflexivity.
Qed.

Lemma sorted_snoc (l : list nat) (w : nat) :
  StronglySorted lt l -> Forall (fun x => x < w) l ->
  StronglySorted lt (l ++ [w]).
Proof.
  induction l as [| a l IH]; simpl; intros Hs Hall.
  - constructor; constructor.
  - inversion Hs as [| ? ? Hs' Ha]; subst.
    inversion Hall as [| ? ? Haw Hall']; subst.
    constructor; [apply IH; assumption |].
    apply Forall_app. split; [exact Ha | constructor; [exact Haw | constructor]].
Qed.

Lemma remove_waiter_ids (w : nat) (q : list Waiter) :
  map promise (remove_waiter w q) = remove_id w (map promise q).
Proof.
  induction q as [| x q IH]; simpl; [reflexivity |].
  destruct (Nat.eqb (promise x) w); simpl; [reflexivity | f_equal; exact IH].
Qed.

Lemma remove_id_in (w x : nat) (q : list nat) :
  In x (remove_id w q) -> In x q.
Proof.
  induction q as [| y q IH]; simpl; [tauto |].
  destruct (Nat.eqb y w); simpl; [tauto |].
  intros [H | H]; [left; exact H | right; apply IH, H].
Qed.

Lemma remove_id_keeps (w x : nat) (q : list nat) :
  In x q -> x <> w -> In x (remove_id w q).
Proof.
  induction q as [| y q IH]; simpl; [tauto |].
  intros [H | H] Hne.
  - subst y. destruct (Nat.eqb_spec x w); [contradiction | left; reflexivity].
  - destruct (Nat.eqb y w); [exact H | right; apply IH; assumption].
Qed.

Lemma remove_id_sorted (w : nat) (q : list nat) :
  StronglySorted lt q -> StronglySorted lt (remove_id w q).
Proof.
  induction q as [| y q IH]; simpl; intros Hs; [constructor |].
  inversion Hs as [| ? ? Hs' Hall]; subst.
  destruct (Nat.eqb y w); [exact Hs' |].
  constructor; [apply IH, Hs' |].
  rewrite Forall_forall in *. intros x Hx. apply Hall, (remove_id_in w), Hx.
Qed.

Lemma existsb_promise (w : nat) (q : list Waiter) :
  existsb (fun x => Nat.eqb (promise x) w) q = true <-> In w (map promise q).
Proof.
  rewrite existsb_exists, in_map_iff. split.
  - intros [x [Hin Heq]]. apply Nat.eqb_eq in Heq. exists x. tauto.
  - intros [x [Heq Hin]]. exists x. split; [exact Hin |].
    apply Nat.eqb_eq, Heq.
Qed.

Lemma Forall_lt_S (l : list nat) (n : nat) :
  Forall (fun w => w < n) l -> Forall (fun w => w < S n) l.
Proof.
  intros H. rewrite Forall_forall in *. intros w Hw. specialize (H w Hw). lia.
Qed.

(** A promise is allocated. *)
Lemma inv_alloc (v : view) :
  fifo_inv v ->
  fifo_inv {| v_next := S (v_next v); v_enqueued := v_enqueued v;
              v_pending := v_pending v; v_queue := v_queue v;
              v_resolved := v_resolved v; v_timedOut := v_timedOut v;
              v_closedOut := v_closedOut v |}.
Proof.
  intros [H1 H2 H9 H3 H4 H5 H6 H7 H8].
  constructor; simpl; try assumption; apply Forall_lt_S; assumption.
Qed.

(** A promise that never waited is resolved. *)
Lemma inv_direct (v : view) (w : nat) :
  ~ In w (v_enqueued v) -> w < v_next v ->
  fifo_inv v ->
  fifo_inv {| v_next := v_next v; v_enqueued := v_enqueued v;
              v_pending := v_pending v; v_queue := v_queue v;
              v_resolved := (v_resolved v ++ [w])%list;
              v_timedOut := v_timedOut v; v_closedOut := v_closedOut v |}.
Proof.
  intros Hw Hlt [H1 H2 H9 H3 H4 H5 H6 H7 H8].
  constructor; simpl; try assumption.
  - apply Forall_app. split; [exact H9 | constructor; [exact Hlt | constructor]].
  - intros x Hx. destruct (H6 x Hx) as [H | [H | H]]; [tauto | | tauto].
    right. left. apply in_or_app. left. exact H.
  - intros w1 w2 Hw1 Hw2 Hlt' Hres. apply in_app_or in Hres.
    destruct Hres as [Hres | [-> | []]]; [| contradiction].
    destruct (H7 w1 w2 Hw1 Hw2 Hlt' Hres) as [H | H]; [| tauto].
    left. apply before_app_l, H.
Qed.

(** The set of suspended creations changes. *)
Lemma inv_pending (v : view) (pend : list nat) :
  Forall (fun w => w < v_next v) pend ->
  (forall w, In w pend -> ~ In w (v_enqueued v)) ->
  fifo_inv v ->
  fifo_inv {| v_next := v_next v; v_enqueued := v_enqueued v;
              v_pending := pend; v_queue := v_queue v;
              v_resolved := v_resolved v; v_timedOut := v_timedOut v;
              v_closedOut := v_closedOut v |}.
Proof.
  intros Hb Ha [H1 H2 H9 H3 H4 H5 H6 H7 H8]. constructor; simpl; assumption.
Qed.

(** The promise just allocated joins the queue. *)
Lemma inv_enqueue (v : view) :
  fifo_inv v ->
  fifo_inv {| v_next := S (v_next v);
              v_enqueued := (v_enqueued v ++ [v_next v])%list;
              v_pending := v_pending v;
              v_queue := (v_queue v ++ [v_next v])%list;
              v_resolved := v_resolved v; v_timedOut := v_timedOut v;
              v_closedOut := v_closedOut v |}.
Proof.
  intros [H1 H2 H9 H3 H4 H5 H6 H7 H8].
  assert (Hq : Forall (fun x => x < v_next v) (v_queue v)).
  { rewrite Forall_forall in *. intros x Hx. apply H1, H5, Hx. }
  constructor; simpl.
  - apply Forall_app. split.
    + apply Forall_lt_S, H1.
    + constructor; [lia | constructor].
  - apply Forall_lt_S, H2.
  - apply Forall_lt_S, H9.
  - intros w Hw Hin. apply in_app_or in Hin. destruct Hin as [Hin | [<- | []]].
    + exact (H3 w Hw Hin).
    + rewrite Forall_forall in H2. specialize (H2 _ Hw). lia.
  - apply sorted_snoc; assumption.
  - intros w Hw. apply in_app_or in Hw. apply in_or_app.
    destruct Hw as [Hw | Hw]; [left; apply H5, Hw | right; exact Hw].
  - intros w Hw. apply in_app_or in Hw. destruct Hw as [Hw | [<- | []]].
    + destruct (H6 w Hw) as [H | H]; [| tauto].
      left. apply in_or_app. left. exact H.
    + left. apply in_or_app. right. left. reflexivity.
  - intros w1 w2 Hw1 Hw2 Hlt Hres.
    rewrite Forall_forall in H1, H9.
    apply in_app_or in Hw1. apply in_app_or in Hw2.
    destruct Hw2 as [Hw2 | [<- | []]].
    + destruct Hw1 as [Hw1 | [<- | []]].
      * exact (H7 w1 w2 Hw1 Hw2 Hlt Hres).
      * specialize (H1 _ Hw2). lia.
    + specialize (H9 _ Hres). lia.
  - apply sorted_snoc; assumption.
Qed.

(** The head of the queue is handed a connection. *)
Lemma inv_handoff (v : view) (w : nat) (rest : list nat) :
  v_queue v = w :: rest ->
  fifo_inv v ->
  fifo_inv {| v_next := v_next v; v_enqueued := v_enqueued v;
              v_pending := v_pending v; v_queue := rest;
              v_resolved := (v_resolved v ++ [w])%list;
              v_timedOut := v_timedOut v; v_closedOut := v_closedOut v |}.
Proof.
  intros Hq [H1 H2 H9 H3 H4 H5 H6 H7 H8]. rewrite Hq in *.
  inversion H4 as [| ? ? Hsorted Hhead]; subst.
  rewrite Forall_forall in Hhead.
  assert (Hw : In w (v_enqueued v)) by (apply H5; left; reflexivity).
  constructor; simpl; try assumption.
  - apply Forall_app. split; [exact H9 |].
    constructor; [| constructor].
    rewrite Forall_forall in H1. apply H1, Hw.
  - intros x Hx. apply H5. right. exact Hx.
  - intros x Hx. destruct (H6 x Hx) as [[<- | H] | [H | H]].
    + right. left. apply in_or_app. right. left. reflexivity.
    + left. exact H.
    + right. left. apply in_or_app. left. exact H.
    + right. right. exact H.
  - intros w1 w2 Hw1 Hw2 Hlt Hres. apply in_app_or in Hres.
    destruct Hres as [Hres | [<- | []]].
    + destruct (H7 w1 w2 Hw1 Hw2 Hlt Hres) as [H | H]; [| tauto].
      left. apply before_app_l, H.
    + destruct (H6 w1 Hw1) as [[<- | H] | [H | H]].
      * lia.
      * specialize (Hhead _ H). lia.
      * left. apply before_snoc, H.
      * right. exact H.
Qed.

(** The timer of a queued waiter fires. *)
Lemma inv_timeout (v : view) (w : nat) :
  In w (v_queue v) ->
  fifo_inv v ->
  fifo_inv {| v_next := v_next v; v_enqueued := v_enqueued v;
              v_pending := v_pending v; v_queue := remove_id w (v_queue v);
              v_resolved := v_resolved v;
              v_timedOut := (v_timedOut v ++ [w])%list;
              v_closedOut := v_closedOut v |}.
Proof.
  intros Hw [H1 H2 H9 H3 H4 H5 H6 H7 H8].
  constructor; simpl; try assumption.
  - apply remove_id_sorted, H4.
  - intros x Hx. apply H5, (remove_id_in w), Hx.
  - intros x Hx. destruct (Nat.eq_dec x w) as [-> | Hne].
    + right. right. left. apply in_or_app. right. left. reflexivity.
    + destruct (H6 x Hx) as [H | [H | [H | H]]].
      * left. apply remove_id_keeps; assumption.
      * tauto.
      * right. right. left. apply in_or_app. left. exact H.
      * tauto.
  - intros w1 w2 Hw1 Hw2 Hlt Hres.
    destruct (H7 w1 w2 Hw1 Hw2 Hlt Hres) as [H | [H | H]]; [tauto | | tauto].
    right. left. apply in_or_app. left. exact H.
Qed.

(** The pool closes: every queued waiter is rejected. *)
Lemma inv_close (v : view) :
  fifo_inv v ->
  fifo_inv {| v_next := v_next v; v_enqueued := v_enqueued v;
              v_pending := v_pending v; v_queue := [];
              v_resolved := v_resolved v; v_timedOut := v_timedOut v;
              v_closedOut := (v_closedOut v ++ v_queue v)%list |}.
Proof.
  intros [H1 H2 H9 H3 H4 H5 H6 H7 H8].
  constructor; simpl; try assumption.
  - constructor.
  - intros x [].
  - intros x Hx. destruct (H6 x Hx) as [H | [H | [H | H]]].
    + right. right. right. apply in_or_app. right. exact H.
    + tauto.
    + tauto.
    + right. right. right. apply in_or_app. left. exact H.
  - intros w1 w2 Hw1 Hw2 Hlt Hres.
    destruct (H7 w1 w2 Hw1 Hw2 Hlt Hres) as [H | [H | H]]; [tauto | tauto |].
    right. right. apply in_or_app. left. exact H.
Qed.

Lemma inv_newPool : fifo_inv (view_of newPool).
Proof.
  constructor; simpl;
    [ constructor | constructor | constructor | intros w []
    | constructor | intros w [] | intros w [] | intros w1 w2 []
    | constructor ].
Qed.

(** ** The operations of the pool, seen through the view *)

Ltac view_eq :=
  unfold view_of, resolvedPromises, rejectedWith, createConnection;
  unfold_pool;
  rewrite ?filter_app, ?map_app; reflexivity.

Lemma view_destroyConnection (i : ident) (p : pool) :
  view_of (destroyConnection i p) = view_of p.
Proof.
  unfold destroyConnection.
  destruct (conn_get (connections p) i); reflexivity.
Qed.

Lemma view_fold {A : Type} (f : pool -> A -> pool) (xs : list A) (p : pool) :
  (forall q x, view_of (f q x) = view_of q) ->
  view_of (fold_left f xs p) = view_of p.
Proof.
  intros Hf. revert p. induction xs as [| x xs IH]; intros p; simpl;
    [reflexivity | rewrite IH; apply Hf].
Qed.

Lemma view_cleanupIdleConnections (cfg : PoolConfig) (now : Z) (p : pool) :
  view_of (cleanupIdleConnections cfg now p) = view_of p.
Proof.
  unfold cleanupIdleConnections. apply view_fold.
  intros q i. apply view_destroyConnection.
Qed.

Lemma view_performHealthChecks (healthy : ident -> bool) (p : pool) :
  view_of (performHealthChecks healthy p) = view_of p.
Proof.
  unfold performHealthChecks. apply view_fold.
  intros q c. destruct (negb (inUse c) && negb (healthy (id c)));
    [apply view_destroyConnection | reflexivity].
Qed.

Lemma next_not_enqueued (v : view) :
  fifo_inv v -> ~ In (v_next v) (v_enqueued v).
Proof.
  intros Hv Hin. pose proof (enq_below v Hv) as H.
  rewrite Forall_forall in H. specialize (H _ Hin). lia.
Qed.

Lemma fifo_acquire (cfg : PoolConfig) (now : Z) (uuid : ident) (opens : bool)
  (p : pool) :
  fifo_inv (view_of p) -> fifo_inv (view_of (acquire cfg now uuid opens p)).
Proof.
  intros Hv. pose proof (next_not_enqueued _ Hv) as Hfresh.
  pose proof (inv_alloc _ Hv) as Ha.
  unfold acquire.
  change (availableConnections (alloc_promise p))
    with (availableConnections p).
  change (connections (alloc_promise p)) with (connections p).
  destruct (availableConnections p) as [| connectionId rest].
  - destruct (Nat.ltb (List.length (connections p)) (maxConnections cfg)).
    + assert (Hpend :
        fifo_inv {| v_next := S (nextPromise p); v_enqueued := enqueued p;
                    v_pending := (map pc_promise (pending p)
                                  ++ [nextPromise p])%list;
                    v_queue := map promise (waitingQueue p);
                    v_resolved := resolvedPromises p;
                    v_timedOut := rejectedWith AcquireTimeout p;
                    v_closedOut := rejectedWith PoolClosing p |}).
      { apply (inv_pending _ (map pc_promise (pending p) ++ [nextPromise p])%list)
          in Ha; [exact Ha | |].
        - apply Forall_app. split.
          + exact (pend_below _ Ha).
          + constructor; [simpl; lia | constructor].
        - simpl. intros w Hw. apply in_app_or in Hw.
          destruct Hw as [Hw | [<- | []]].
          + exact (pend_apart _ Hv w Hw).
          + exact Hfresh. }
      destruct opens.
      * match goal with
        | |- fifo_inv ?x =>
            assert (Heq : x = {| v_next := S (nextPromise p);
                                 v_enqueued := enqueued p;
                                 v_pending := (map pc_promise (pending p)
                                               ++ [nextPromise p])%list;
                                 v_queue := map promise (waitingQueue p);
                                 v_resolved := resolvedPromises p;
                                 v_timedOut := rejectedWith AcquireTimeout p;
                                 v_closedOut := rejectedWith PoolClosing p |})
              by view_eq
        end.
        rewrite Heq. exact Hpend.
      * match goal with
        | |- fifo_inv ?x =>
            assert (Heq : x = {| v_next := S (nextPromise p);
                                 v_enqueued := enqueued p;
                                 v_pending := (map pc_promise (pending p)
                                               ++ [nextPromise p])%list;
                                 v_queue := map promise (waitingQueue p);
                                 v_resolved := resolvedPromises p;
                                 v_timedOut := rejectedWith AcquireTimeout p;
                                 v_closedOut := rejectedWith PoolClosing p |})
              by view_eq
        end.
        rewrite Heq. exact Hpend.
    + match goal with
      | |- fifo_inv ?x =>
          assert (Heq : x = {| v_next := S (nextPromise p);
                               v_enqueued := (enqueued p ++ [nextPromise p])%list;
                               v_pending := map pc_promise (pending p);
                               v_queue := (map promise (waitingQueue p)
                                           ++ [nextPromise p])%list;
                               v_resolved := resolvedPromises p;
                               v_timedOut := rejectedWith AcquireTimeout p;
                               v_closedOut := rejectedWith PoolClosing p |})
            by view_eq
      end.
      rewrite Heq. exact (inv_enqueue _ Hv).
  - destruct (conn_get _ connectionId) as [c |].
    + match goal with
      | |- fifo_inv ?x =>
          assert (Heq : x = {| v_next := S (nextPromise p);
                               v_enqueued := enqueued p;
                               v_pending := map pc_promise (pending p);
                               v_queue := map promise (waitingQueue p);
                               v_resolved := (resolvedPromises p
                                              ++ [nextPromise p])%list;
                               v_timedOut := rejectedWith AcquireTimeout p;
                               v_closedOut := rejectedWith PoolClosing p |})
            by view_eq
      end.
      rewrite Heq.
      apply (inv_direct _ (nextPromise p)) in Ha;
        [exact Ha | exact Hfresh | simpl; lia].
    + exact Ha.
Qed.

Lemma fifo_resume (now : Z) (p : pool) :
  fifo_inv (view_of p) -> fifo_inv (view_of (resume now p)).
Proof.
  intros Hv. unfold resume.
  destruct (pending p) as [| pc rest] eqn:Hpend; [exact Hv |].
  assert (Hpc : ~ In (pc_promise pc) (enqueued p)
                /\ pc_promise pc < nextPromise p).
  { split.
    - apply (pend_apart _ Hv). simpl. rewrite Hpend. left. reflexivity.
    - pose proof (pend_below _ Hv) as H. simpl in H. rewrite Hpend in H.
      inversion H; assumption. }
  destruct Hpc as [Hapart Hbelow].
  assert (Hrest :
    fifo_inv {| v_next := nextPromise p; v_enqueued := enqueued p;
                v_pending := map pc_promise rest;
                v_queue := map promise (waitingQueue p);
                v_resolved := resolvedPromises p;
                v_timedOut := rejectedWith AcquireTimeout p;
                v_closedOut := rejectedWith PoolClosing p |}).
  { apply (inv_pending _ (map pc_promise rest)) in Hv; [exact Hv | |].
    - pose proof (pend_below _ Hv) as H. simpl in H. rewrite Hpend in H.
      inversion H; assumption.
    - intros w Hw. apply (pend_apart _ Hv). simpl. rewrite Hpend.
      right. exact Hw. }
  destruct (pc_created pc) as [connectionId |].
  - match goal with
    | |- fifo_inv ?x =>
        assert (Heq : x = {| v_next := nextPromise p; v_enqueued := enqueued p;
                             v_pending := map pc_promise rest;
                             v_queue := map promise (waitingQueue p);
                             v_resolved := (resolvedPromises p
                                            ++ [pc_promise pc])%list;
                             v_timedOut := rejectedWith AcquireTimeout p;
                             v_closedOut := rejectedWith PoolClosing p |})
          by view_eq
    end.
    rewrite Heq.
    apply (inv_direct _ (pc_promise pc)) in Hrest; assumption.
  - match goal with
    | |- fifo_inv ?x =>
        assert (Heq : x = {| v_next := nextPromise p; v_enqueued := enqueued p;
                             v_pending := map pc_promise rest;
                             v_queue := map promise (waitingQueue p);
                             v_resolved := resolvedPromises p;
                             v_timedOut := rejectedWith AcquireTimeout p;
                             v_closedOut := rejectedWith PoolClosing p |})
    end.
    { unfold view_of, resolvedPromises, rejectedWith. unfold_pool. pool_proj.
      rewrite !filter_app. simpl. rewrite !app_nil_r. reflexivity. }
    rewrite Heq. exact Hrest.
Qed.

Lemma fifo_release (cfg : PoolConfig) (connectionId : ident) (now : Z)
  (p : pool) :
  fifo_inv (view_of p) -> fifo_inv (view_of (release cfg connectionId now p)).
Proof.
  intros Hv. unfold release.
  destruct (conn_get (connections p) connectionId) as [connection |];
    [| exact Hv].
  destruct (maxConnectionAge cfg <? now - createdAt connection)%Z.
  - rewrite view_destroyConnection. exact Hv.
  - match goal with
    | |- context [match waitingQueue ?q with _ => _ end] =>
        change (waitingQueue q) with (waitingQueue p)
    end.
    destruct (waitingQueue p) as [| waiter rest] eqn:Hq.
    + match goal with
      | |- fifo_inv ?x => assert (Heq : x = view_of p)
      end.
      { unfold view_of, resolvedPromises, rejectedWith. unfold_pool.
        rewrite Hq. reflexivity. }
      rewrite Heq. exact Hv.
    + match goal with
      | |- fifo_inv ?x =>
          assert (Heq : x = {| v_next := nextPromise p; v_enqueued := enqueued p;
                               v_pending := map pc_promise (pending p);
                               v_queue := map promise rest;
                               v_resolved := (resolvedPromises p
                                              ++ [promise waiter])%list;
                               v_timedOut := rejectedWith AcquireTimeout p;
                               v_closedOut := rejectedWith PoolClosing p |})
      end.
      { unfold view_of, resolvedPromises, rejectedWith. unfold_pool.
        rewrite map_app. reflexivity. }
      rewrite Heq.
      apply (inv_handoff (view_of p) (promise waiter) (map promise rest));
        [| exact Hv].
      simpl. rewrite Hq. reflexivity.
Qed.

Lemma fifo_timeout (w : nat) (p : pool) :
  fifo_inv (view_of p) -> fifo_inv (view_of (timeout w p)).
Proof.
  intros Hv. unfold timeout.
  destruct (existsb _ (waitingQueue p)) eqn:Hex; [| exact Hv].
  apply existsb_promise in Hex.
  match goal with
  | |- fifo_inv ?x =>
      assert (Heq : x = {| v_next := nextPromise p; v_enqueued := enqueued p;
                           v_pending := map pc_promise (pending p);
                           v_queue := remove_id w (map promise (waitingQueue p));
                           v_resolved := resolvedPromises p;
                           v_timedOut := (rejectedWith AcquireTimeout p
                                          ++ [w])%list;
                           v_closedOut := rejectedWith PoolClosing p |})
  end.
  { unfold view_of, resolvedPromises, rejectedWith. unfold_pool. pool_proj.
    rewrite remove_waiter_ids, !filter_app, !map_app. simpl.
    rewrite app_nil_r. reflexivity. }
  rewrite Heq. apply (inv_timeout (view_of p) w); assumption.
Qed.

Lemma close_rejections (q : list Waiter) (p : pool) :
  rejected (fold_left (fun r waiter => reject (promise waiter) PoolClosing r) q p)
  = (rejected p ++ map (fun x => (promise x, PoolClosing)) q)%list
  /\ view_of (with_available [] (with_connections [] (with_waitingQueue []
        (fold_left (fun r waiter => reject (promise waiter) PoolClosing r) q p))))
     = {| v_next := nextPromise p; v_enqueued := enqueued p;
          v_pending := map pc_promise (pending p);
          v_queue := [];
          v_resolved := resolvedPromises p;
          v_timedOut := rejectedWith AcquireTimeout p;
          v_closedOut := (rejectedWith PoolClosing p ++ map promise q)%list |}.
Proof.
  revert p. induction q as [| x q IH]; intros p; simpl.
  - rewrite !app_nil_r. split; reflexivity.
  - destruct (IH (reject (promise x) PoolClosing p)) as [IH1 IH2].
    split.
    + rewrite IH1. unfold reject. pool_proj. rewrite <- app_assoc. reflexivity.
    + rewrite IH2. unfold resolvedPromises, rejectedWith, reject. pool_proj.
      rewrite !filter_app, !map_app. simpl.
      rewrite app_nil_r, <- app_assoc. reflexivity.
Qed.

Lemma fifo_close (p : pool) :
  fifo_inv (view_of p) -> fifo_inv (view_of (close p)).
Proof.
  intros Hv. unfold close.
  rewrite (proj2 (close_rejections (waitingQueue p) p)).
  exact (inv_close _ Hv).
Qed.

Lemma fifo_step (cfg : PoolConfig) (p : pool) (e : event) :
  fifo_inv (view_of p) -> fifo_inv (view_of (step cfg p e)).
Proof.
  intros Hv. destruct e; simpl step.
  - exact Hv.
  - apply fifo_acquire, Hv.
  - apply fifo_resume, Hv.
  - apply fifo_release, Hv.
  - apply fifo_timeout, Hv.
  - rewrite view_cleanupIdleConnections. exact Hv.
  - rewrite view_performHealthChecks. exact Hv.
  - exact Hv.
  - apply fifo_close, Hv.
Qed.

Lemma fifo_run (cfg : PoolConfig) (es : list event) (p : pool) :
  fifo_inv (view_of p) -> fifo_inv (view_of (run cfg p es)).
Proof.
  revert p. induction es as [| e es IH]; intros p Hv; [exact Hv |].
  simpl. apply IH, fifo_step, Hv.
Qed.

Lemma closedOut_destroyConnection (i : ident) (p : pool) :
  rejected (destroyConnection i p) = rejected p.
Proof.
  unfold destroyConnection.
  destruct (conn_get (connections p) i); reflexivity.
Qed.

(** No event but [Close] rejects a promise with [PoolClosing]. *)
Lemma closedOut_step (cfg : PoolConfig) (p : pool) (e : event) :
  is_close e = false ->
  rejectedWith PoolClosing (step cfg p e) = rejectedWith PoolClosing p.
Proof.
  intros Hc.
  pose proof (f_equal v_closedOut (view_cleanupIdleConnections cfg 0 p)) as Hreap.
  destruct e; simpl step; try discriminate; try reflexivity.
  - unfold acquire.
    change (availableConnections (alloc_promise p))
      with (availableConnections p).
    change (connections (alloc_promise p)) with (connections p).
    destruct (availableConnections p) as [| connectionId rest].
    + destruct (Nat.ltb _ _); [destruct opens |]; reflexivity.
    + destruct (conn_get _ connectionId); reflexivity.
  - unfold resume. destruct (pending p) as [| pc rest]; [reflexivity |].
    destruct (pc_created pc); [reflexivity |].
    unfold rejectedWith. unfold_pool. pool_proj.
    rewrite filter_app, map_app. simpl. apply app_nil_r.
  - unfold release.
    destruct (conn_get (connections p) connectionId) as [connection |];
      [| reflexivity].
    destruct (maxConnectionAge cfg <? now - createdAt connection)%Z.
    + unfold rejectedWith. rewrite closedOut_destroyConnection. reflexivity.
    + unfold_pool. pool_proj. destruct (waitingQueue p); reflexivity.
  - unfold timeout. destruct (existsb _ _); [| reflexivity].
    unfold rejectedWith. unfold_pool. pool_proj.
    rewrite filter_app, map_app. simpl. apply app_nil_r.
  - exact (f_equal v_closedOut (view_cleanupIdleConnections cfg now p)).
  - exact (f_equal v_closedOut (view_performHealthChecks healthy p)).
Qed.

Lemma closedOut_run (cfg : PoolConfig) (es : list event) (p : pool) :
  forallb (fun e => negb (is_close e)) es = true ->
  rejectedWith PoolClosing (run cfg p es) = rejectedWith PoolClosing p.
Proof.
  revert p. induction es as [| e es IH]; intros p Hnc; [reflexivity |].
  simpl in Hnc. apply andb_true_iff in Hnc. destruct Hnc as [He Hnc].
  simpl. rewrite (IH _ Hnc). apply closedOut_step.
  destruct (is_close e); [discriminate | reflexivity].
Qed.

(** FIFO service in any run, [close] included: a waiter pushed before a
    resolved one was resolved before it, unless its timer fired or the pool
    closed on it. *)
Lemma fifo_general (cfg : PoolConfig) (es : list event) (w1 w2 : nat) :
  before (enqueued (run cfg newPool es)) w1 w2 ->
  In w2 (resolvedPromises (run cfg newPool es)) ->
  before (resolvedPromises (run cfg newPool es)) w1 w2
  \/ In w1 (rejectedWith AcquireTimeout (run cfg newPool es))
  \/ In w1 (rejectedWith PoolClosing (run cfg newPool es)).
Proof.
  intros Hb Hr.
  pose proof (fifo_run cfg es newPool inv_newPool) as Hv.
  destruct (before_in _ _ _ Hb) as [H1 H2].
  apply (served_in_order _ Hv w1 w2 H1 H2); [| exact Hr].
  exact (sorted_before _ _ _ (enq_sorted _ Hv) Hb).
Qed.

Lemma release_serves_head (cfg : PoolConfig) (connectionId : ident) (now : Z)
  (p : pool) (connection : PooledConnection) (waiter : Waiter)
  (rest : list Waiter) :
  conn_get (connections p) connectionId = Some connection ->
  (maxConnectionAge cfg <? now - createdAt connection)%Z = false ->
  waitingQueue p = waiter :: rest ->
  waitingQueue (release cfg connectionId now p) = rest
  /\ resolved (release cfg connectionId now p)
     = (resolved p ++ [(promise waiter, connectionId)])%list.
Proof.
  intros Hget Hage Hq. unfold release. rewrite Hget, Hage.
  unfold_pool. pool_proj. rewrite Hq. split; reflexivity.
Qed.

End FifoFacts.



(* ===================================================================== *)
(** * 18. Theorems: batching ([Table.chunk]) *)
(* ===================================================================== *)

Lemma chunk_loop_concat {A : Type} (fuel : nat) :
  forall (array : list A) (size : nat),
    (0 < size)%nat -> (List.length array <= fuel)%nat ->
    List.concat (chunk_loop fuel array size) = array.
Proof.
  induction fuel as [| fuel IH]; intros array size Hsize Hlen.
  - destruct array; [reflexivity | simpl in Hlen; lia].
  - destruct array as [| a rest]; [reflexivity |].
    cbn [chunk_loop List.concat].
    rewrite IH; [apply firstn_skipn | exact Hsize |].
    rewrite length_skipn. cbn [List.length] in *. lia.
Qed.

Lemma chunk_loop_sizes {A : Type} (fuel : nat) :
  forall (array : list A) (size : nat),
    (0 < size)%nat ->
    Forall (fun batch => (0 < List.length batch <= size)%nat)
           (chunk_loop fuel array size).
Proof.
  induction fuel as [| fuel IH]; intros array size Hsize; [constructor |].
  destruct array as [| a rest]; [constructor |].
  cbn [chunk_loop]. constructor; [| apply IH, Hsize].
  rewrite length_firstn. simpl List.length. lia.
Qed.

(** Every batch that has a successor is full. *)
Lemma chunk_loop_full {A : Type} (fuel : nat) :
  forall (array : list A) (size : nat),
    Forall (fun batch => List.length batch = size)
           (removelast (chunk_loop fuel array size)).
Proof.
  induction fuel as [| fuel IH]; intros array size; [constructor |].
  destruct array as [| a rest]; [constructor |].
  cbn [chunk_loop].
  destruct (chunk_loop fuel (skipn size (a :: rest)) size) as [| b bs] eqn:Hrest;
    [constructor |].
  change (removelast (firstn size (a :: rest) :: b :: bs))
    with (firstn size (a :: rest) :: removelast (b :: bs)).
  constructor; [| rewrite <- Hrest; apply IH].
  rewrite length_firstn.
  destruct (Nat.le_gt_cases size (List.length (a :: rest))) as [Hle | Hgt];
    [lia |].
  rewrite skipn_all2 in Hrest by lia.
  destruct fuel; discriminate.
Qed.

Lemma chunk_concat {A : Type} (array : list A) (size : Z)
  (batches : list (list A)) :
  chunk array size = Some batches -> List.concat batches = array.
Proof.
  unfold chunk. destruct array as [| a rest].
  - intros H. injection H as <-. reflexivity.
  - destruct (size <=? 0)%Z eqn:Hle; [discriminate |].
    intros H. injection H as <-.
    apply Z.leb_gt in Hle.
    apply (chunk_loop_concat (List.length (a :: rest)) (a :: rest)
             (Z.to_nat size)); [lia | apply Nat.le_refl].
Qed.

Lemma chunk_ends {A : Type} (array : list A) (size : Z) :
  (0 < size)%Z -> exists batches, chunk array size = Some batches.
Proof.
  intros Hsize. unfold chunk. destruct array as [| a rest];
    [eexists; reflexivity |].
  destruct (size <=? 0)%Z eqn:Hle; [apply Z.leb_le in Hle; lia |].
  eexists. reflexivity.
Qed.



(* ===================================================================== *)
(** * 19. Theorems: predicates that filter *)
(* ===================================================================== *)

Lemma operatorConditions_nil (where_ : obj) (k op : string) :
  operatorConditions where_ k op = [] <-> nonEmptyOperator where_ k = false.
Proof.
  unfold operatorConditions, nonEmptyOperator.
  destruct (present where_ k); [| split; reflexivity].
  destruct (keys (get where_ k)); simpl; split; (reflexivity || discriminate).
Qed.

Lemma equalityConditions_nil (where_ : obj) :
  map (conditionText "=") (regularFields where_) = []
  <-> Nat.eqb (List.length (regularFields where_)) 0 = true.
Proof.
  destruct (regularFields where_); simpl; split; (reflexivity || discriminate).
Qed.

(** The [OR] key contributes a clause exactly when it passes the check of
    [hasValidWhereConditions] or is the empty array. *)
Lemma orAlternatives_none (where_ : obj) :
  orAlternatives where_ = None
  <-> (present where_ "OR" && isArray (get where_ "OR")
       && negb (Nat.eqb (List.length (values (get where_ "OR"))) 0) = false
       /\ hasEmptyOr where_ = false).
Proof.
  unfold orAlternatives, hasEmptyOr, present.
  destruct (has where_ "OR"); [| split; [split |]; reflexivity].
  destruct (get where_ "OR") as [| | [] | n | s | ms | [| x xs] | fs | r];
    cbn [truthy isArray values List.length andb negb Nat.eqb];
    try destruct (negb (n =? 0)%Z); try destruct (negb (s =? EmptyString));
    cbn [andb];
    (split;
     [ intros H; try discriminate H; split; reflexivity
     | intros [H1 H2]; try discriminate H1; try discriminate H2; reflexivity ]).
Qed.

Lemma whereConditions_nil (where_ : obj) (conditions : list string) :
  whereConditions where_ = inr conditions ->
  (conditions = []
   <-> nonEmptyOperator where_ "LIKE" = false
       /\ nonEmptyOperator where_ "greaterThan" = false
       /\ nonEmptyOperator where_ "lessThan" = false
       /\ nonEmptyOperator where_ "notEqual" = false
       /\ nonEmptyOperator where_ "greaterThanOrEqual" = false
       /\ nonEmptyOperator where_ "lessThanOrEqual" = false
       /\ orAlternatives where_ = None
       /\ Nat.eqb (List.length (regularFields where_)) 0 = true).
Proof.
  unfold whereConditions. intros H.
  pose proof (operatorConditions_nil where_ "LIKE" "LIKE") as L1.
  pose proof (operatorConditions_nil where_ "greaterThan" ">") as L2.
  pose proof (operatorConditions_nil where_ "lessThan" "<") as L3.
  pose proof (operatorConditions_nil where_ "notEqual" "!=") as L4.
  pose proof (operatorConditions_nil where_ "greaterThanOrEqual" ">=") as L5.
  pose proof (operatorConditions_nil where_ "lessThanOrEqual" "<=") as L6.
  pose proof (equalityConditions_nil where_) as L8.
  destruct (orAlternatives where_) as [alts |].
  - destruct (res_map orCondition alts) as [e | orConditions];
      [discriminate |].
    cbn [res_bind] in H. injection H as <-. split.
    + intros Hnil.
      do 6 (apply app_eq_nil in Hnil; destruct Hnil as [_ Hnil]).
      discriminate.
    + intros (_ & _ & _ & _ & _ & _ & Hor & _). discriminate.
  - cbn [res_bind] in H. injection H as <-. split.
    + intros Hnil.
      apply app_eq_nil in Hnil. destruct Hnil as [N1 Hnil].
      apply app_eq_nil in Hnil. destruct Hnil as [N2 Hnil].
      apply app_eq_nil in Hnil. destruct Hnil as [N3 Hnil].
      apply app_eq_nil in Hnil. destruct Hnil as [N4 Hnil].
      apply app_eq_nil in Hnil. destruct Hnil as [N5 Hnil].
      apply app_eq_nil in Hnil. destruct Hnil as [N6 Hnil].
      cbn [app] in Hnil.
      repeat split;
        [apply L1, N1 | apply L2, N2 | apply L3, N3 | apply L4, N4
         | apply L5, N5 | apply L6, N6 | apply L8, Hnil].
    + intros (H1 & H2 & H3 & H4 & H5 & H6 & _ & H8).
      apply L1 in H1. apply L2 in H2. apply L3 in H3. apply L4 in H4.
      apply L5 in H5. apply L6 in H6. apply L8 in H8.
      rewrite H1, H2, H3, H4, H5, H6, H8. reflexivity.
Qed.

(** [buildWhereClause] yields the empty text or a text that starts with
    [WHERE]. *)
Lemma buildWhereClause_shape (where_ : obj) (clause_ : string) :
  buildWhereClause where_ = inr clause_ ->
  (clause_ = EmptyString /\
   (where_ = [] \/ whereConditions where_ = inr []))
  \/ (exists c cs, whereConditions where_ = inr (c :: cs)
                   /\ clause_ = "WHERE " ++ join " AND " (c :: cs)).
Proof.
  unfold buildWhereClause. destruct where_ as [| kv rest].
  - intros H. injection H as <-. left. split; [reflexivity | left; reflexivity].
  - destruct (whereConditions (kv :: rest)) as [e | [| c cs]];
      cbn [res_bind]; intros H; try discriminate; injection H as <-.
    + left. split; [reflexivity | right; reflexivity].
    + right. exists c, cs. split; reflexivity.
Qed.

Lemma whereConditions_empty_predicate : whereConditions [] = inr [].
Proof. reflexivity. Qed.

Lemma hasValidWhereConditions_false (where_ : obj) :
  hasValidWhereConditions where_ = false
  <-> where_ = []
      \/ (Nat.eqb (List.length (regularFields where_)) 0 = true
          /\ nonEmptyOperator where_ "LIKE" = false
          /\ present where_ "OR" && isArray (get where_ "OR")
             && negb (Nat.eqb (List.length (values (get where_ "OR"))) 0)
             = false
          /\ nonEmptyOperator where_ "greaterThan" = false
          /\ nonEmptyOperator where_ "lessThan" = false
          /\ nonEmptyOperator where_ "notEqual" = false
          /\ nonEmptyOperator where_ "greaterThanOrEqual" = false
          /\ nonEmptyOperator where_ "lessThanOrEqual" = false).
Proof.
  unfold hasValidWhereConditions.
  destruct where_ as [| kv rest]; [split; [left |]; reflexivity |].
  remember (kv :: rest) as w eqn:Hw. split.
  - intros H. right.
    destruct (Nat.eqb (List.length (regularFields w)) 0);
      [| discriminate H]. cbn [negb] in H.
    repeat match type of H with
           | (if ?b then _ else _) = false =>
               destruct b; [discriminate H |]
           end.
    repeat split; reflexivity.
  - intros [H | (H8 & H1 & Hor & H2 & H3 & H4 & H5 & H6)];
      [subst; discriminate |].
    rewrite H8, H1, Hor, H2, H3, H4, H5, H6. reflexivity.
Qed.

(** X2. For a predicate whose [OR] alternatives are all objects,
    [buildWhereClause] yields the empty text exactly when the predicate
    fails [hasValidWhereConditions] and does not carry an empty [OR]
    array: what the safety check accepts always compiles to a [WHERE]
    clause. *)
Theorem buildWhereClause_empty_iff_invalid (where_ : obj) :
  has_nullish_alternative where_ = false ->
  (buildWhereClause where_ = inr EmptyString
   <-> hasValidWhereConditions where_ = false /\ hasEmptyOr where_ = false).
Proof.
  intros Hnull.
  destruct (whereConditions where_) as [e | conditions] eqn:Hc.
  { rewrite whereConditions_clauses, Hnull in Hc. discriminate. }
  pose proof (whereConditions_nil where_ conditions Hc) as Hnil.
  rewrite hasValidWhereConditions_false. split.
  - intros Hb. apply buildWhereClause_shape in Hb.
    destruct Hb as [[_ [-> | Hb]] | (c & cs & _ & Hb)]; [| | discriminate].
    + split; [left; reflexivity | reflexivity].
    + rewrite Hc in Hb. injection Hb as ->.
      destruct Hnil as [Hnil _]. specialize (Hnil eq_refl).
      destruct Hnil as (H1 & H2 & H3 & H4 & H5 & H6 & Hor & H8).
      apply orAlternatives_none in Hor. destruct Hor as [Hor1 Hor2].
      split; [right; repeat split; assumption | assumption].
  - intros [[-> | (H8 & H1 & Hor1 & H2 & H3 & H4 & H5 & H6)] Hor2];
      [reflexivity |].
    assert (conditions = []) as ->.
    { apply Hnil. repeat split; try assumption.
      apply orAlternatives_none. split; assumption. }
    unfold buildWhereClause. rewrite Hc. destruct where_; reflexivity.
Qed.

Lemma buildWhereClause_empty_iff_invalid_witness :
  buildWhereClause [("name", VStr "Ann")] = inr EmptyString
  <-> hasValidWhereConditions [("name", VStr "Ann")] = false
      /\ hasEmptyOr [("name", VStr "Ann")] = false.
Proof.
  apply (buildWhereClause_empty_iff_invalid [("name", VStr "Ann")]).
  reflexivity.
Defined.

(** What [hasValidWhereConditions] accepts compiles, when it compiles, to
    a text that starts with [WHERE]. *)
Lemma valid_where_compiles (where_ : obj) (clause_ : string) :
  hasValidWhereConditions where_ = true ->
  buildWhereClause where_ = inr clause_ ->
  exists text, clause_ = "WHERE " ++ text.
Proof.
  intros Hvalid Hb.
  destruct (buildWhereClause_shape where_ clause_ Hb)
    as [[-> [-> | Hc]] | (c & cs & _ & ->)].
  - discriminate.
  - exfalso.
    pose proof (whereConditions_nil where_ [] Hc) as [Hnil _].
    specialize (Hnil eq_refl).
    destruct Hnil as (H1 & H2 & H3 & H4 & H5 & H6 & Hor & H8).
    apply orAlternatives_none in Hor. destruct Hor as [Hor1 Hor2].
    assert (hasValidWhereConditions where_ = false) as Hf.
    { apply hasValidWhereConditions_false. right. repeat split; assumption. }
    congruence.
  - eexists. reflexivity.
Qed.

Lemma string_app_assoc (a b c : string) : (a ++ b) ++ c = a ++ b ++ c.
Proof. induction a as [| x a IH]; simpl; [reflexivity | rewrite IH; reflexivity]. Qed.

Section FilteredWrites.

Variable E : Engine.
Variable J : Runtime.
Variable tableName : string.

Lemma emits_lift_bind {A B : Type} (P : call -> Prop) (r : res A)
  (f : A -> T E B) :
  (forall a, r = inr a -> emits P (wlog E) (f a)) ->
  emits P (wlog E) (bind (lift_res r) f).
Proof.
  intros H. destruct r as [e | a].
  - apply emits_silent. reflexivity.
  - intros s. exact (H a eq_refl s).
Qed.

Lemma emits_filtered_run (q : string) (params : list value) :
  filtered_sql q ->
  emits filtered_call (wlog E)
    (executeWithErrorWrapper
       (bind (prepare E q) (fun _ =>
        bind (stmt_run E q params) (fun _ => finalize E q)))).
Proof.
  intros Hq. apply emits_retryLoop.
  apply emits_bind; [apply emits_unit_call, Hq | intros _].
  apply emits_bind; [apply emits_stmt_run, Hq | intros _].
  apply emits_unit_call, Hq.
Qed.

Lemma emits_update_filtered (options : UpdateOptions) :
  emits filtered_call (wlog E) (update E J tableName options).
Proof.
  unfold update. apply emits_lift_bind. intros [] Hv.
  unfold validateUpdateOptions in Hv.
  destruct (uo_values options) as [[| v vs] |]; try discriminate.
  destruct (uo_where options) as [where_ |]; try discriminate.
  destruct (hasValidWhereConditions where_) eqn:Hvalid; try discriminate.
  apply emits_lift_bind. intros w Hw.
  destruct (valid_where_compiles where_ w Hvalid Hw) as [text ->].
  apply emits_lift_bind. intros whereParams _.
  apply emits_filtered_run.
  exists ("UPDATE " ++ tableName ++ " SET "
          ++ join ", " (map (fun key => key ++ " = ?") (map fst (v :: vs)))),
    text.
  rewrite !string_app_assoc. reflexivity.
Qed.

Lemma emits_delete_filtered (where_ : option obj) :
  emits filtered_call (wlog E) (delete E J tableName where_).
Proof.
  unfold delete. apply emits_lift_bind. intros [] Hv.
  unfold validateDeleteOptions in Hv.
  destruct where_ as [where_ |]; try discriminate.
  destruct (hasValidWhereConditions where_) eqn:Hvalid; try discriminate.
  destruct (hasEmptyOr where_); [apply emits_ret |].
  apply emits_lift_bind. intros w Hw.
  destruct (valid_where_compiles where_ w Hvalid Hw) as [text ->].
  apply emits_lift_bind. intros params _.
  apply emits_filtered_run.
  exists ("DELETE FROM " ++ tableName), text.
  rewrite !string_app_assoc. reflexivity.
Qed.

End FilteredWrites.

(** X3. Whatever the engine, the options and the outcome, every statement
    that [update] and [delete] prepare or run carries a [WHERE] clause:
    neither ever sends an unfiltered [UPDATE] or [DELETE]. *)
Theorem update_delete_always_filtered
  (E : Engine) (J : Runtime) (tableName : string)
  (options : UpdateOptions) (where_ : option obj) :
  emits filtered_call (wlog E) (update E J tableName options)
  /\ emits filtered_call (wlog E) (delete E J tableName where_).
Proof.
  split; [apply emits_update_filtered | apply emits_delete_filtered].
Qed.

(* ===================================================================== *)
(** * 20. Theorems: the retry wrapper ([executeWithErrorWrapper]) *)
(* ===================================================================== *)

Lemma retryLoop_errors {S A : Type} (n : nat) (callback : M S A) :
  forall (s s' : S) (e : error),
    retryLoop n callback s = (s', Throw e) ->
    (is_locked e = false /\ exists s0, callback s0 = (s', Throw e))
    \/ e = Error "Database is locked after multiple retry attempts"
    \/ (n = 0%nat /\ e = Error "Unexpected error in executeWithErrorWrapper").
Proof.
  induction n as [| n IH]; intros s s' e H.
  - injection H as _ <-. right. right. split; reflexivity.
  - cbn [retryLoop] in H. unfold try_catch in H.
    destruct (callback s) as [s1 [a | e1 |]] eqn:Hc; try discriminate.
    destruct (is_locked e1) eqn:Hl.
    + destruct n as [| n].
      * injection H as _ <-. right. left. reflexivity.
      * cbn [Nat.eqb] in H. apply IH in H.
        destruct H as [H | [H | [H _]]];
          [left; exact H | right; left; exact H | discriminate].
    + injection H as <- <-. left. split; [exact Hl |].
      exists s. exact Hc.
Qed.

(** X4. What [executeWithErrorWrapper] throws is either an error of the
    callback other than a lock error, thrown again as it is, or the error
    that tells that the retries are used up; a lock error itself never
    leaves the wrapper, and the closing [Unexpected error] is out of
    reach. *)
Theorem executeWithErrorWrapper_errors {S A : Type} (callback : M S A)
  (s s' : S) (e : error) :
  executeWithErrorWrapper callback s = (s', Throw e) ->
  is_locked e = false
  /\ ((exists s0, callback s0 = (s', Throw e))
      \/ e = Error "Database is locked after multiple retry attempts").
Proof.
  intros H. apply retryLoop_errors in H.
  destruct H as [[Hl Hc] | [-> | [H _]]]; [| | discriminate].
  - split; [exact Hl | left; exact Hc].
  - split; [reflexivity | right; reflexivity].
Qed.

Lemma executeWithErrorWrapper_errors_witness :
  is_locked (Error "Database is locked after multiple retry attempts") = false
  /\ ((exists s0 : nat,
          @throw nat unit (SQLiteError "database is locked") s0
          = (0%nat, Throw (Error "Database is locked after multiple retry attempts")))
      \/ Error "Database is locked after multiple retry attempts"
         = Error "Database is locked after multiple retry attempts").
Proof.
  apply (executeWithErrorWrapper_errors
           (@throw nat unit (SQLiteError "database is locked")) 0%nat 0%nat).
  reflexivity.
Defined.

(** X5. The wrapper runs its callback at least once and at most three
    times, and exactly once when the first run does not end in a lock
    error. *)
Theorem executeWithErrorWrapper_attempts {S A : Type} (callback : M S A)
  (s : S) :
  let runs := snd (fst (executeWithErrorWrapper (counted callback) (s, 0%nat))) in
  (1 <= runs <= 3)%nat
  /\ ((forall s1 e, callback s = (s1, Throw e) -> is_locked e = false) ->
      runs = 1%nat).
Proof.
  unfold executeWithErrorWrapper, counted. cbn [retryLoop Nat.eqb].
  unfold try_catch, throw. cbn [fst snd].
  destruct (callback s) as [s1 [a | e1 |]] eqn:H1; cbn [fst snd];
    try (split; [lia | reflexivity]).
  destruct (is_locked e1) eqn:L1; cbn [fst snd];
    [| split; [lia | reflexivity]].
  split.
  - destruct (callback s1) as [s2 [a | e2 |]]; cbn [fst snd]; try lia.
    destruct (is_locked e2); cbn [fst snd]; [| lia].
    destruct (callback s2) as [s3 [a | e3 |]]; cbn [fst snd]; try lia.
    destruct (is_locked e3); cbn [fst snd]; lia.
  - intros Hfirst. specialize (Hfirst s1 e1 eq_refl). congruence.
Qed.

Lemma executeWithErrorWrapper_attempts_witness :
  let runs :=
    snd (fst (executeWithErrorWrapper (counted (@ret nat unit tt))
                (0%nat, 0%nat))) in
  (1 <= runs <= 3)%nat /\ runs = 1%nat.
Proof.
  destruct (executeWithErrorWrapper_attempts (@ret nat unit tt) 0%nat)
    as [Hbounds Hone].
  split; [exact Hbounds | apply Hone; intros s1 e H; discriminate H].
Defined.

(* ===================================================================== *)
(** * 21. Theorems: reads *)
(* ===================================================================== *)

Section ReadFacts.

Variable E : Engine.
Variable J : Runtime.
Variable tableName : string.
Variable schema : list ColumnsSchema.

Lemma emits_stmt_all (P : call -> Prop) (q : string) (params : list value) :
  P (StmtAll q params) -> emits P (wlog E) (stmt_all E q params).
Proof.
  intros HP. unfold stmt_all.
  apply emits_bind; [apply emits_engine, HP | intros; apply emits_ret].
Qed.

Lemma emits_stmt_get (P : call -> Prop) (q : string) (params : list value) :
  P (StmtGet q params) -> emits P (wlog E) (stmt_get E q params).
Proof.
  intros HP. unfold stmt_get.
  apply emits_bind; [apply emits_engine, HP | intros; apply emits_ret].
Qed.

(** The shape shared by the reads that fetch rows. *)
Lemma emits_read_all {A : Type} (q : string) (params : list value)
  (k : list obj -> A) :
  emits read_call (wlog E)
    (executeWithErrorWrapper
       (bind (prepare E q) (fun _ =>
        bind (stmt_all E q params) (fun results =>
        bind (finalize E q) (fun _ => ret (k results)))))).
Proof.
  apply emits_retryLoop.
  apply emits_bind; [apply emits_unit_call; exact I | intros _].
  apply emits_bind; [apply emits_stmt_all; exact I | intros results].
  apply emits_bind; [apply emits_unit_call; exact I | intros _].
  apply emits_ret.
Qed.

(** The shape shared by the reads that fetch one row. *)
Lemma emits_read_get {A : Type} (q : string) (params : list value)
  (k : value -> T E A) :
  (forall v, emits read_call (wlog E) (k v)) ->
  emits read_call (wlog E)
    (executeWithErrorWrapper
       (bind (prepare E q) (fun _ =>
        bind (stmt_get E q params) (fun result =>
        bind (finalize E q) (fun _ => k result))))).
Proof.
  intros Hk. apply emits_retryLoop.
  apply emits_bind; [apply emits_unit_call; exact I | intros _].
  apply emits_bind; [apply emits_stmt_get; exact I | intros result].
  apply emits_bind; [apply emits_unit_call; exact I | intros _].
  apply Hk.
Qed.

Lemma emits_select_reads (options : SelectOptions) :
  emits read_call (wlog E) (select E J tableName schema options).
Proof.
  unfold select.
  apply emits_bind; [apply emits_lift_res | intros _].
  destruct (whereHasEmptyOr (so_where options)); [apply emits_ret |].
  apply emits_bind; [apply emits_lift_res | intros q].
  apply emits_bind; [apply emits_lift_res | intros params].
  apply emits_read_all.
Qed.

Lemma emits_count_reads (where_ : option obj) :
  emits read_call (wlog E) (count E J tableName where_).
Proof.
  unfold count.
  destruct (whereHasEmptyOr where_); [apply emits_ret |].
  apply emits_bind; [apply emits_lift_res | intros qp].
  apply emits_bind; [| intros result; apply emits_lift_res].
  apply emits_read_get. intros v. apply emits_ret.
Qed.

Lemma emits_paginate_reads (options : PaginateOptions) :
  emits read_call (wlog E) (paginate E J tableName schema options).
Proof.
  unfold paginate.
  apply emits_bind; [apply emits_lift_res | intros qp].
  apply emits_bind;
    [apply emits_read_get; intros v; apply emits_lift_res | intros total].
  apply emits_bind; [apply emits_lift_res | intros query0].
  apply emits_bind; [apply emits_lift_res | intros params].
  apply emits_bind; [apply emits_read_all | intros data].
  apply emits_ret.
Qed.

Lemma emits_findFirst_reads (where_ sel : option obj) :
  emits read_call (wlog E) (findFirst E J tableName schema where_ sel).
Proof.
  unfold findFirst.
  apply emits_bind; [apply emits_select_reads | intros results].
  apply emits_ret.
Qed.

Lemma emits_exists_reads (where_ : option obj) :
  emits read_call (wlog E) (exists_ E J tableName where_).
Proof.
  unfold exists_.
  apply emits_bind; [apply emits_lift_res | intros qp].
  apply emits_read_get. intros v. apply emits_ret.
Qed.

Lemma emits_distinct_reads (column : string) (where_ : option obj)
  (limit : option Z) :
  emits read_call (wlog E) (distinct E J tableName schema column where_ limit).
Proof.
  unfold distinct.
  apply emits_bind; [apply emits_lift_res | intros qp].
  apply emits_read_all.
Qed.

Lemma emits_aggregate_reads (column : string) (functions : list string)
  (where_ : option obj) :
  emits read_call (wlog E) (aggregate E J tableName column functions where_).
Proof.
  unfold aggregate.
  apply emits_bind; [apply emits_lift_res | intros qp].
  apply emits_read_get. intros v. apply emits_ret.
Qed.

End ReadFacts.

(** X6. Whatever the engine, the arguments and the outcome, the reads of
    the facade only prepare, fetch and finalize: [select], [count],
    [paginate], [findFirst], [exists], [distinct] and [aggregate] never
    run a writing statement and never open a transaction. *)
Theorem reads_never_write
  (E : Engine) (J : Runtime) (tableName : string)
  (schema : list ColumnsSchema) :
  (forall options,
      emits read_call (wlog E) (select E J tableName schema options))
  /\ (forall where_, emits read_call (wlog E) (count E J tableName where_))
  /\ (forall options,
         emits read_call (wlog E) (paginate E J tableName schema options))
  /\ (forall where_ sel,
         emits read_call (wlog E)
           (findFirst E J tableName schema where_ sel))
  /\ (forall where_, emits read_call (wlog E) (exists_ E J tableName where_))
  /\ (forall column where_ limit,
         emits read_call (wlog E)
           (distinct E J tableName schema column where_ limit))
  /\ (forall column functions where_,
         emits read_call (wlog E)
           (aggregate E J tableName column functions where_)).
Proof.
  repeat split; intros.
  - apply emits_select_reads.
  - apply emits_count_reads.
  - apply emits_paginate_reads.
  - apply emits_findFirst_reads.
  - apply emits_exists_reads.
  - apply emits_distinct_reads.
  - apply emits_aggregate_reads.
Qed.

(* ===================================================================== *)
(** * 22. Theorems: table creation and decoding *)
(* ===================================================================== *)

Lemma validateTableSchema_named (tableSchema : TableSchema) :
  validateTableSchema tableSchema = inr tt ->
  exists name, tbl_name tableSchema = Some name.
Proof.
  unfold validateTableSchema.
  destruct (tbl_name tableSchema) as [name |]; [| discriminate].
  intros _. exists name. reflexivity.
Qed.

(** X7. [createTable] has three ways to throw, whatever
    [buildCreateTableQuery] does on the schema.  It throws the error of
    [validateTableSchema], before any call reaches the engine; or it throws
    the error of [buildCreateTableQuery] as it is, not wrapped, since the
    statement is built before the [try], and again before any call reaches
    the engine; or the statement was built and preparing, running or
    finalizing it threw, and [createTable] throws a plain [Error] whose
    message is [Failed to create table '<name>': ] followed by the text of
    what was thrown. *)
Theorem createTable_errors (E : Engine)
  (buildQuery : TableSchema -> res string)
  (tableSchema : TableSchema) (w w' : world E) (e : error) :
  createTable E buildQuery tableSchema w = (w', Throw e) ->
  (validateTableSchema tableSchema = inl e /\ w' = w
   /\ err_name e = "Error")
  \/ (validateTableSchema tableSchema = inr tt
      /\ buildQuery tableSchema = inl e /\ w' = w)
  \/ (validateTableSchema tableSchema = inr tt
      /\ exists queryString name cause,
           buildQuery tableSchema = inr queryString
           /\ tbl_name tableSchema = Some name
           /\ bind (prepare E queryString) (fun _ =>
              bind (stmt_run E queryString []) (fun _ =>
              finalize E queryString)) w = (w', Throw cause)
           /\ e = Error ("Failed to create table '" ++ name ++ "': "
                         ++ error_to_string cause)).
Proof.
  unfold createTable. intros H.
  destruct (validateTableSchema_result tableSchema) as [Hv | [msg Hv]].
  - right.
    destruct (validateTableSchema_named tableSchema Hv) as [name Hname].
    rewrite Hv in H. rewrite (bind_ok _ _ w w tt eq_refl) in H.
    destruct (buildQuery tableSchema) as [thrown | queryString] eqn:Hq.
    + left. unfold bind, lift_res, throw in H. injection H as <- <-.
      split; [exact Hv | split; reflexivity].
    + right. split; [exact Hv |].
      rewrite (bind_ok _ _ w w queryString eq_refl) in H.
      rewrite Hname in H. unfold try_catch in H.
      match type of H with
      | context [match ?m w with _ => _ end] =>
          destruct (m w) as [w1 [a | cause |]] eqn:Hbody
      end; try discriminate H.
      unfold throw in H. injection H as <- <-.
      exists queryString, name, cause.
      split; [reflexivity |]. split; [exact Hname |].
      split; [exact Hbody | reflexivity].
  - rewrite Hv in H. unfold bind, lift_res, throw in H.
    injection H as <- <-.
    left. split; [exact Hv | split; reflexivity].
Qed.

Lemma createTable_errors_witness :
  exists w' e,
    createTable rejectingEngine (printedCreateTableQuery MiniJson.impl)
      {| tbl_name := Some "Users"; tbl_columns := Some usersSchema |}
      rejectingWorld = (w', Throw e)
    /\ e = Error ("Failed to create table 'Users': "
                  ++ "SQLiteError: UNIQUE constraint failed: Users.id")
    /\ ((validateTableSchema
           {| tbl_name := Some "Users"; tbl_columns := Some usersSchema |}
         = inl e /\ w' = rejectingWorld /\ err_name e = "Error")
        \/ (validateTableSchema
              {| tbl_name := Some "Users"; tbl_columns := Some usersSchema |}
            = inr tt
            /\ printedCreateTableQuery MiniJson.impl
                 {| tbl_name := Some "Users"; tbl_columns := Some usersSchema |}
               = inl e
            /\ w' = rejectingWorld)
        \/ (validateTableSchema
              {| tbl_name := Some "Users"; tbl_columns := Some usersSchema |}
            = inr tt
            /\ exists queryString name cause,
                 printedCreateTableQuery MiniJson.impl
                   {| tbl_name := Some "Users";
                      tbl_columns := Some usersSchema |}
                 = inr queryString
                 /\ Some "Users" = Some name
                 /\ bind (prepare rejectingEngine queryString) (fun _ =>
                    bind (stmt_run rejectingEngine queryString []) (fun _ =>
                    finalize rejectingEngine queryString)) rejectingWorld
                    = (w', Throw cause)
                 /\ e = Error ("Failed to create table '" ++ name ++ "': "
                               ++ error_to_string cause))).
Proof.
  eexists. eexists. split; [lazy; reflexivity |].
  split; [reflexivity |].
  apply (createTable_errors rejectingEngine
           (printedCreateTableQuery MiniJson.impl)
           {| tbl_name := Some "Users"; tbl_columns := Some usersSchema |}
           rejectingWorld).
  reflexivity.
Defined.

Lemma in_default_constraint (J : Runtime) (column : ColumnsSchema)
  (constraint : string) :
  In constraint
     (match col_default column with
      | VUndefined => []
      | d => [("DEFAULT " ++ formatDefaultValue J d (col_type column))%string]
      end) ->
  exists text, constraint = "DEFAULT " ++ text.
Proof.
  destruct (col_default column); simpl; intros H;
    try contradiction; destruct H as [<- | []]; eexists; reflexivity.
Qed.

Lemma in_flag (b : bool) (c x : string) :
  In x (if b then [c] else []) <-> b = true /\ c = x.
Proof.
  destruct b; simpl; split.
  - intros [H | []]. split; [reflexivity | exact H].
  - intros [_ H]. left. exact H.
  - contradiction.
  - intros [H _]. discriminate H.
Qed.

Lemma in_columnConstraints (J : Runtime) (column : ColumnsSchema)
  (x : string) :
  (forall text, x <> "DEFAULT " ++ text) ->
  In x (columnConstraints J column)
  <-> (col_primary column = true /\ "PRIMARY KEY" = x)
      \/ (column_type_eqb (col_type column) TNumber
          && col_autoIncrement column = true /\ "AUTOINCREMENT" = x)
      \/ (negb (col_nullable column) && negb (col_primary column) = true
          /\ "NOT NULL" = x)
      \/ (col_unique column && negb (col_primary column) = true
          /\ "UNIQUE" = x).
Proof.
  intros Hx. unfold columnConstraints.
  rewrite !in_app_iff, !in_flag. split.
  - intros [H | [H | [H | [H | H]]]]; try tauto.
    apply in_default_constraint in H. destruct H as [text H].
    exfalso. exact (Hx text H).
  - tauto.
Qed.

(** X8. The constraints of a column: [PRIMARY KEY] exactly on a primary
    column, [AUTOINCREMENT] exactly on a [number] column flagged so,
    [NOT NULL] exactly on a column that is neither nullable nor primary,
    [UNIQUE] exactly on a unique column that is not primary.  A primary
    column never gets [NOT NULL] or [UNIQUE]. *)
Theorem columnConstraints_characterized (J : Runtime) (column : ColumnsSchema) :
  (In "PRIMARY KEY" (columnConstraints J column)
   <-> col_primary column = true)
  /\ (In "AUTOINCREMENT" (columnConstraints J column)
      <-> col_type column = TNumber /\ col_autoIncrement column = true)
  /\ (In "NOT NULL" (columnConstraints J column)
      <-> col_nullable column = false /\ col_primary column = false)
  /\ (In "UNIQUE" (columnConstraints J column)
      <-> col_unique column = true /\ col_primary column = false).
Proof.
  split; [| split; [| split]];
    (rewrite in_columnConstraints by (intros text; discriminate));
    destruct (col_primary column), (col_type column),
      (col_autoIncrement column), (col_nullable column),
      (col_unique column);
    cbn [column_type_eqb andb negb];
    (split;
     [ intros [[H1 H2] | [[H1 H2] | [[H1 H2] | [H1 H2]]]];
       try discriminate H1; try discriminate H2;
       try (split; reflexivity); reflexivity
     | intros H;
       repeat match goal with Hc : _ /\ _ |- _ => destruct Hc end;
       try discriminate; tauto ]).
Qed.

Lemma get_restoreDataTypes (J : Runtime) (schema : list ColumnsSchema)
  (row : obj) (key : string) :
  get (restoreDataTypes J schema row) key
  = match find_column schema key with
    | Some column =>
        if has row key
        then restoreColumnValue J (col_type column) (get row key)
        else VUndefined
    | None => get row key
    end.
Proof.
  unfold restoreDataTypes, has.
  induction row as [| [k v] rest IH]; cbn [map get existsb fst snd orb].
  - destruct (find_column schema key); reflexivity.
  - destruct (String.eqb_spec k key) as [-> | Hne].
    + destruct (find_column schema key) as [column |];
        cbn [fst snd get]; rewrite String.eqb_refl; reflexivity.
    + cbn [orb]. rewrite <- IH.
      destruct (find_column schema k); cbn [fst snd get];
        (destruct (String.eqb_spec k key); [contradiction | reflexivity]).
Qed.


(* ===================================================================== *)
(** * 23. Theorems: the accounting of the JSON import *)
(* ===================================================================== *)

Lemma batch_total_concat (batches : list (list value)) :
  batch_total batches = Z.of_nat (List.length (List.concat batches)).
Proof.
  induction batches as [| batch batches IH]; [reflexivity |].
  cbn [batch_total fold_right List.concat].
  fold (batch_total batches). rewrite IH, length_app. lia.
Qed.



(* ===================================================================== *)
(** * 24. Theorems: the identifiers of a bulk insert *)
(* ===================================================================== *)

Section Throws.

Context {St : Type}.
Variable Q : error -> Prop.

Lemma throws_only_ret {A : Type} (a : A) : throws_only Q (@ret St A a).
Proof. intros s s' e H. discriminate H. Qed.

Lemma throws_only_throw {A : Type} (e : error) :
  Q e -> throws_only Q (@throw St A e).
Proof. intros HQ s s' e' H. injection H as _ <-. exact HQ. Qed.

Lemma throws_only_lift_res {A : Type} (r : res A) :
  (forall e, r = inl e -> Q e) -> throws_only Q (@lift_res St A r).
Proof.
  intros H. destruct r as [e | a]; [| apply throws_only_ret].
  apply throws_only_throw, H. reflexivity.
Qed.

Lemma throws_only_bind {A B : Type} (m : M St A) (f : A -> M St B) :
  throws_only Q m -> (forall a, throws_only Q (f a)) ->
  throws_only Q (bind m f).
Proof.
  intros Hm Hf s s' e. unfold bind.
  destruct (m s) as [s1 [a | e1 |]] eqn:H1; intros H.
  - exact (Hf a s1 s' e H).
  - injection H as _ <-. exact (Hm s s1 e1 H1).
  - discriminate H.
Qed.

Lemma throws_only_try_catch {A : Type} (m : M St A) (h : error -> M St A) :
  throws_only Q m -> (forall e, Q e -> throws_only Q (h e)) ->
  throws_only Q (try_catch m h).
Proof.
  intros Hm Hh s s' e. unfold try_catch.
  destruct (m s) as [s1 [a | e1 |]] eqn:H1; intros H; try discriminate H.
  exact (Hh e1 (Hm s s1 e1 H1) s1 s' e H).
Qed.

Lemma throws_only_for_each {A : Type} (xs : list A) (body : A -> M St unit) :
  (forall x, throws_only Q (body x)) -> throws_only Q (for_each xs body).
Proof.
  intros H. induction xs as [| x xs IH]; cbn [for_each].
  - apply throws_only_ret.
  - apply throws_only_bind; [apply H | intros _; exact IH].
Qed.

End Throws.

(** A callback that never throws a lock error runs once. *)
Lemma retryLoop_unlocked {St A : Type} (n : nat) (callback : M St A) :
  throws_only unlocked callback ->
  forall s, retryLoop (S n) callback s = callback s.
Proof.
  intros Hc s. cbn [retryLoop]. unfold try_catch.
  destruct (callback s) as [s1 [a | e |]] eqn:H1; try reflexivity.
  rewrite (Hc s s1 e H1). reflexivity.
Qed.

Section Growth.

Context {St X : Type}.

Lemma grows_eq {A : Type} (k k' : nat) (m : M (St * list X) A) :
  k = k' -> grows k m -> grows k' m.
Proof. intros <- H. exact H. Qed.

Lemma grows_ret {A : Type} (a : A) : grows 0 (@ret (St * list X) A a).
Proof. intros s s' a' H. injection H as <- _. lia. Qed.

Lemma grows_lift_res {A : Type} (r : res A) :
  grows 0 (@lift_res (St * list X) A r).
Proof.
  destruct r as [e | a]; [| apply grows_ret].
  intros s s' a H. discriminate H.
Qed.

Lemma grows_on_fst {A : Type} (m : M St A) : grows 0 (@on_fst St (list X) A m).
Proof.
  intros s s' a. unfold on_fst. destruct (m (fst s)) as [s1 r].
  intros H. injection H as <- _. simpl. lia.
Qed.

Lemma grows_push (x : X) :
  grows 1 (@modify_snd St (list X) (fun ids => (ids ++ [x])%list)).
Proof.
  intros s s' a. unfold modify_snd. intros H. injection H as <-.
  simpl. rewrite length_app. reflexivity.
Qed.

Lemma grows_bind {A B : Type} (k1 k2 : nat) (m : M (St * list X) A)
  (f : A -> M (St * list X) B) :
  grows k1 m -> (forall a, grows k2 (f a)) -> grows (k1 + k2) (bind m f).
Proof.
  intros Hm Hf s s'' b H.
  destruct (bind_ok_inv m f s s'' b H) as (s' & a & H1 & H2).
  rewrite (Hf a s' s'' b H2), (Hm s s' a H1). lia.
Qed.

Lemma grows_try_catch {A : Type} (k : nat) (m : M (St * list X) A)
  (h : error -> M (St * list X) A) :
  grows k m -> (forall e s s' a, h e s <> (s', Ok a)) ->
  grows k (try_catch m h).
Proof.
  intros Hm Hh s s' a. unfold try_catch.
  destruct (m s) as [s1 [a1 | e1 |]] eqn:H1; intros H.
  - injection H as <- <-. exact (Hm s s1 a1 H1).
  - exfalso. exact (Hh e1 s1 s' a H).
  - discriminate H.
Qed.

Lemma grows_for_each {A : Type} (k : A -> nat) (xs : list A)
  (body : A -> M (St * list X) unit) :
  (forall x, grows (k x) (body x)) ->
  grows (list_sum (map k xs)) (for_each xs body).
Proof.
  intros H. induction xs as [| x xs IH]; cbn [for_each map list_sum fold_right].
  - apply grows_ret.
  - apply grows_bind; [apply H | intros _; exact IH].
Qed.

End Growth.

Lemma list_sum_ones {A : Type} (xs : list A) :
  list_sum (map (fun _ => 1%nat) xs) = List.length xs.
Proof. induction xs as [| x xs IH]; simpl; [| rewrite IH]; reflexivity. Qed.

Lemma list_sum_lengths {A : Type} (xss : list (list A)) :
  list_sum (map (@List.length A) xss) = List.length (List.concat xss).
Proof.
  induction xss as [| xs xss IH]; simpl; [reflexivity |].
  rewrite length_app, IH. reflexivity.
Qed.

Lemma getMember_error (J : Runtime) (v : value) (k : string) (e : error) :
  getMember J v k = inl e -> is_locked e = false.
Proof.
  destruct v; simpl; intros H; try discriminate H;
    try (injection H as <-; reflexivity).
  - destruct (k =? "length"); [discriminate H |].
    destruct (index_of_key _ k); discriminate H.
  - destruct (k =? "length"); [discriminate H |].
    destruct (index_of_key _ k); discriminate H.
Qed.

Lemma formatRecordValuesForInsert_error (J : Runtime) (record : value)
  (columns : list string) (e : error) :
  formatRecordValuesForInsert J record columns = inl e -> is_locked e = false.
Proof.
  unfold formatRecordValuesForInsert.
  induction columns as [| column columns IH]; cbn [res_map];
    [discriminate |].
  destruct (getMember J record column) as [e1 | val] eqn:Hp; cbn [res_bind].
  - intros H. injection H as <-. exact (getMember_error _ _ _ _ Hp).
  - destruct (res_map _ columns) as [e2 | vals]; cbn [res_bind];
      [| discriminate].
    intros H. injection H as <-. apply IH. reflexivity.
Qed.

Lemma objectKeys_error (v : value) (e : error) :
  objectKeys v = inl e -> is_locked e = false.
Proof.
  destruct v; simpl; intros H; try discriminate H;
    injection H as <-; reflexivity.
Qed.

Section BulkFacts.

Variable E : Engine.
Variable J : Runtime.
Hypothesis Hengine : never_locked E.

Lemma throws_only_engine (c : call) : throws_only unlocked (engine E c).
Proof.
  intros w w' e. unfold engine.
  destruct (exec E (w_db E w) c) as [d' [e1 | rep]] eqn:Hx; intros H;
    [| discriminate H].
  injection H as _ <-. exact (Hengine _ _ _ _ Hx).
Qed.

Lemma throws_only_on_fst {X A : Type} (m : T E A) :
  throws_only unlocked m -> throws_only unlocked (@on_fst _ X A m).
Proof.
  intros Hm s s' e. unfold on_fst.
  destruct (m (fst s)) as [w1 r] eqn:H1. intros H. injection H as _ ->.
  exact (Hm _ _ _ H1).
Qed.

Lemma throws_only_unit_call (c : call) :
  throws_only unlocked (bind (engine E c) (fun _ => ret tt)).
Proof.
  apply throws_only_bind;
    [apply throws_only_engine | intros; apply throws_only_ret].
Qed.

Lemma throws_only_runRecord (q : string) (columns : list string)
  (record : value) :
  throws_only unlocked (runRecord E J q columns record).
Proof.
  unfold runRecord. apply throws_only_bind.
  - apply throws_only_lift_res. intros e.
    apply formatRecordValuesForInsert_error.
  - intros params. unfold stmt_run.
    apply throws_only_bind;
      [apply throws_only_engine | intros; apply throws_only_ret].
Qed.

(** One batch of [bulkInsert]: a transaction around the records. *)
Lemma throws_only_bulk_batch (q : string) (columns : list string)
  (batch : list value) :
  throws_only unlocked
    (transaction E (fun _ m => on_fst m)
       (for_each batch (fun record =>
          bind (on_fst (runRecord E J q columns record)) (fun rowid =>
          modify_snd (fun ids : list Z => (ids ++ [rowid])%list))))).
Proof.
  unfold transaction.
  apply throws_only_bind;
    [apply throws_only_on_fst, throws_only_engine | intros _].
  apply throws_only_try_catch.
  - apply throws_only_bind.
    + apply throws_only_for_each. intros record.
      apply throws_only_bind;
        [apply throws_only_on_fst, throws_only_runRecord | intros rowid].
      intros s s' e H. discriminate H.
    + intros a. apply throws_only_bind;
        [apply throws_only_on_fst, throws_only_engine
        | intros; apply throws_only_ret].
  - intros e He. apply throws_only_bind;
      [apply throws_only_on_fst, throws_only_engine
      | intros; apply throws_only_throw, He].
Qed.

Lemma grows_bulk_batch (q : string) (columns : list string)
  (batch : list value) :
  grows (List.length batch)
    (transaction E (fun _ m => on_fst m)
       (for_each batch (fun record =>
          bind (on_fst (runRecord E J q columns record)) (fun rowid =>
          modify_snd (fun ids : list Z => (ids ++ [rowid])%list))))).
Proof.
  unfold transaction.
  apply (grows_eq (0 + (List.length batch + (0 + 0)))); [lia |].
  apply grows_bind; [apply grows_on_fst | intros _].
  apply grows_try_catch.
  - apply grows_bind.
    + rewrite <- (list_sum_ones batch). apply grows_for_each.
      intros record. apply (grows_eq (0 + 1)); [reflexivity |].
      apply grows_bind; [apply grows_on_fst | intros rowid; apply grows_push].
    + intros a. apply grows_bind; [apply grows_on_fst | intros; apply grows_ret].
  - intros e s s' a. unfold bind, throw.
    destruct (on_fst (engine E TxRollback) s) as [s1 [r | e1 |]];
      discriminate.
Qed.

(** The callback that [bulkInsert] hands to the wrapper. *)
Lemma bulk_callback_ids (tableName : string) (sampleRecord : value)
  (batches : list (list value)) (s s' : world E * list Z) (ids : list Z) :
  bind (lift_res (objectKeys sampleRecord)) (fun columns =>
    bind (on_fst (prepare E (insertQuery tableName columns))) (fun _ =>
    bind (for_each batches (fun batch =>
            transaction E (fun _ m => on_fst m)
              (for_each batch (fun record =>
                 bind (on_fst (runRecord E J (insertQuery tableName columns)
                                 columns record))
                      (fun rowid =>
                 modify_snd (fun ids : list Z => (ids ++ [rowid])%list))))))
         (fun _ =>
    bind (on_fst (finalize E (insertQuery tableName columns))) (fun _ =>
    fun s => (s, Ok (snd s)))))) s = (s', Ok ids) ->
  ids = snd s'
  /\ List.length (snd s')
     = (List.length (snd s) + List.length (List.concat batches))%nat.
Proof.
  intros H.
  apply bind_ok_inv in H. destruct H as (s1 & columns & H1 & H).
  apply bind_ok_inv in H. destruct H as (s2 & [] & H2 & H).
  apply bind_ok_inv in H. destruct H as (s3 & [] & H3 & H).
  apply bind_ok_inv in H. destruct H as (s4 & [] & H4 & H).
  injection H as <- <-. split; [reflexivity |].
  apply grows_lift_res in H1. apply grows_on_fst in H2.
  apply grows_on_fst in H4.
  apply (grows_for_each (@List.length value)) in H3;
    [| intros batch; apply grows_bulk_batch].
  rewrite list_sum_lengths in H3. lia.
Qed.

Lemma throws_only_bulk_callback (tableName : string) (sampleRecord : value)
  (batches : list (list value)) :
  throws_only unlocked
    (bind (lift_res (objectKeys sampleRecord)) (fun columns =>
     bind (on_fst (prepare E (insertQuery tableName columns))) (fun _ =>
     bind (for_each batches (fun batch =>
             transaction E (fun _ m => on_fst m)
               (for_each batch (fun record =>
                  bind (on_fst (runRecord E J (insertQuery tableName columns)
                                  columns record))
                       (fun rowid =>
                  modify_snd (fun ids : list Z => (ids ++ [rowid])%list))))))
          (fun _ =>
     bind (on_fst (finalize E (insertQuery tableName columns))) (fun _ =>
     fun s : world E * list Z => (s, Ok (snd s))))))).
Proof.
  apply throws_only_bind.
  - apply throws_only_lift_res. intros e. apply objectKeys_error.
  - intros columns. apply throws_only_bind;
      [apply throws_only_on_fst, throws_only_unit_call | intros _].
    apply throws_only_bind.
    + apply throws_only_for_each. intros batch.
      apply throws_only_bulk_batch.
    + intros _. apply throws_only_bind;
        [apply throws_only_on_fst, throws_only_unit_call | intros _].
      intros s s' e H. discriminate H.
Qed.

Lemma bulkInsert_ids (tableName : string) (records : list value)
  (batchSize : Z) (w w' : world E) (ids : list Z) :
  bulkInsert E J tableName records batchSize w = (w', Ok ids) ->
  List.length ids = List.length records.
Proof.
  unfold bulkInsert. destruct records as [| sampleRecord rest];
    [discriminate |].
  destruct (chunk (sampleRecord :: rest) batchSize) as [batches |] eqn:Hchunk;
    [| discriminate].
  unfold executeWithErrorWrapper.
  rewrite (retryLoop_unlocked 2 _
             (throws_only_bulk_callback tableName sampleRecord batches)).
  match goal with
  | |- context [?m (w, @nil Z)] =>
      destruct (m (w, @nil Z)) as [[w1 ids1] r] eqn:Hcb
  end.
  intros H. injection H as <- ->.
  apply bulk_callback_ids in Hcb. destruct Hcb as [-> Hlen].
  cbn [snd] in *. rewrite Hlen.
  rewrite (chunk_concat _ _ _ Hchunk). reflexivity.
Qed.

End BulkFacts.



(* ===================================================================== *)
(** * 25. Theorems: pages, raw queries and the integrity check *)
(* ===================================================================== *)

Lemma returns_ret {S A : Type} (Q : A -> Prop) (a : A) :
  Q a -> returns Q (@ret S A a).
Proof. intros HQ s s' a' H. injection H as _ <-. exact HQ. Qed.

Lemma returns_bind {S A B : Type} (Q : B -> Prop) (m : M S A)
  (f : A -> M S B) :
  (forall a, returns Q (f a)) -> returns Q (bind m f).
Proof.
  intros Hf s s'' b H.
  destruct (bind_ok_inv m f s s'' b H) as (s' & a & _ & H2).
  exact (Hf a s' s'' b H2).
Qed.

Lemma returns_paginate (E : Engine) (J : Runtime) (tableName : string)
  (schema : list ColumnsSchema) (options : PaginateOptions) :
  returns (fun page =>
             pg_page page = po_page options
             /\ pg_pageSize page = po_pageSize options
             /\ pg_totalPages page
                = totalPagesOf (pg_total page) (po_pageSize options))
          (paginate E J tableName schema options).
Proof.
  unfold paginate.
  apply returns_bind. intros qp.
  apply returns_bind. intros total.
  apply returns_bind. intros query0.
  apply returns_bind. intros params.
  apply returns_bind. intros data.
  apply returns_ret. repeat split; reflexivity.
Qed.

Lemma totalPagesOf_ceiling (t pageSize : Z) :
  (0 < pageSize)%Z ->
  exists n, totalPagesOf (VNum t) pageSize = Some n
            /\ ((n - 1) * pageSize < t <= n * pageSize)%Z.
Proof.
  intros Hps. unfold totalPagesOf.
  destruct (pageSize =? 0)%Z eqn:Hz; [apply Z.eqb_eq in Hz; lia |].
  eexists. split; [reflexivity |].
  pose proof (Z.div_mod (- t) pageSize ltac:(lia)) as Hdm.
  pose proof (Z.mod_pos_bound (- t) pageSize Hps) as Hb.
  nia.
Qed.

(** X12. A page that [paginate] returns carries the page number and the
    page size of the request, and for a row count [t] and a positive page
    size its [totalPages] is the ceiling of [t / pageSize]: the least
    number of pages that hold [t] rows. *)
Theorem paginate_page_count (E : Engine) (J : Runtime) (tableName : string)
  (schema : list ColumnsSchema) (options : PaginateOptions)
  (w w' : world E) (page : Page) (t : Z) :
  paginate E J tableName schema options w = (w', Ok page) ->
  pg_total page = VNum t ->
  (0 < po_pageSize options)%Z ->
  pg_page page = po_page options
  /\ pg_pageSize page = po_pageSize options
  /\ exists n, pg_totalPages page = Some n
               /\ ((n - 1) * po_pageSize options < t
                   <= n * po_pageSize options)%Z.
Proof.
  intros Hrun Ht Hps.
  destruct (returns_paginate E J tableName schema options w w' page Hrun)
    as (Hp & Hs & Hn).
  split; [exact Hp | split; [exact Hs |]].
  rewrite Hn, Ht. apply totalPagesOf_ceiling, Hps.
Qed.

Lemma paginate_page_count_witness :
  exists w' page,
    paginate quietEngine MiniJson.impl "Users" usersSchema
      {| po_page := 2; po_pageSize := 10; po_where := None;
         po_select := None; po_orderBy := None |} quietWorld = (w', Ok page)
    /\ pg_page page = 2%Z
    /\ pg_pageSize page = 10%Z
    /\ exists n, pg_totalPages page = Some n
                 /\ ((n - 1) * 10 < 0 <= n * 10)%Z.
Proof.
  eexists. eexists. split; [lazy; reflexivity |].
  eapply (paginate_page_count quietEngine MiniJson.impl "Users" usersSchema
            {| po_page := 2; po_pageSize := 10; po_where := None;
               po_select := None; po_orderBy := None |} quietWorld).
  - lazy. reflexivity.
  - reflexivity.
  - reflexivity.
Defined.

Lemma toLowerCase_app (a b : string) :
  toLowerCase (a ++ b) = toLowerCase a ++ toLowerCase b.
Proof.
  induction a as [| c a IH]; cbn [toLowerCase append];
    [reflexivity | rewrite IH; reflexivity].
Qed.

Lemma substring_prefix (sub b : string) :
  substring 0 (String.length sub) (sub ++ b) = sub.
Proof.
  induction sub as [| c sub IH]; cbn [String.length append substring].
  - destruct b; reflexivity.
  - rewrite IH. reflexivity.
Qed.

Lemma substring_infix (a sub b : string) :
  substring (String.length a) (String.length sub) (a ++ sub ++ b) = sub.
Proof.
  induction a as [| c a IH]; cbn [String.length append substring].
  - apply substring_prefix.
  - exact IH.
Qed.

Lemma includes_infix (a sub b : string) : includes (a ++ sub ++ b) sub = true.
Proof.
  unfold includes.
  destruct (String.index 0 sub (a ++ sub ++ b)) as [n |] eqn:Hi;
    [reflexivity |].
  destruct sub as [| c sub].
  - destruct (a ++ EmptyString ++ b); discriminate Hi.
  - exfalso.
    apply (index_correct3 0 (String.length a) _ _ Hi);
      [discriminate | lia | apply substring_infix].
Qed.

Lemma retryLoop_ext {S A : Type} (n : nat) (f g : M S A) :
  (forall s, f s = g s) -> forall s, retryLoop n f s = retryLoop n g s.
Proof.
  intros Hfg. induction n as [| n IH]; intros s; cbn [retryLoop];
    [reflexivity |].
  unfold try_catch. rewrite Hfg.
  destruct (g s) as [s' [a | e |]]; try reflexivity.
  destruct (is_locked e); [| reflexivity].
  destruct (Nat.eqb n 0); [reflexivity | apply IH].
Qed.

Lemma bind_ext {S A B : Type} (m : M S A) (f g : A -> M S B) :
  (forall a s, f a s = g a s) -> forall s, bind m f s = bind m g s.
Proof.
  intros Hfg s. unfold bind.
  destruct (m s) as [s' [a | e |]]; [apply Hfg | reflexivity | reflexivity].
Qed.

Lemma buildSelectQuery_mentions_table (tableName : string)
  (options : SelectOptions) (query : string) :
  buildSelectQuery tableName options = inr query ->
  exists before_ after_, query = before_ ++ tableName ++ after_.
Proof.
  unfold buildSelectQuery.
  set (columns := match so_select options with
                  | Some sel =>
                      join ", " (filter (fun col => truthy (get sel col))
                                        (map fst sel))
                  | None => "*"
                  end).
  destruct (match so_where options with
            | Some where_ =>
                res_bind (buildWhereClause where_) (fun w => inr (" " ++ w))
            | None => inr EmptyString
            end) as [e | wherePart]; cbn [res_bind]; intros H;
    [discriminate H |].
  exists ("SELECT " ++ columns ++ " FROM ").
  eexists. rewrite !string_app_assoc.
  injection H as <-. reflexivity.
Qed.

(** X13. [rawQuery] on the statement and the parameters that [select]
    compiles for its options behaves as that [select]: same calls, same
    outcome, same decoded rows. *)
Theorem rawQuery_of_compiled_select
  (E : Engine) (J : Runtime) (tableName : string)
  (schema : list ColumnsSchema) (options : SelectOptions)
  (query : string) (params : list value) (w : world E) :
  validateSelectOptions options = inr tt ->
  whereHasEmptyOr (so_where options) = false ->
  buildSelectQuery tableName options = inr query ->
  extractQueryParameters J (so_where options) = inr params ->
  rawQuery E J tableName schema query params w
  = select E J tableName schema options w.
Proof.
  intros Hvalid Hor Hq Hp. unfold select, rawQuery.
  rewrite Hvalid, Hor, Hq, Hp.
  rewrite !(bind_ok _ _ w w _ eq_refl).
  apply retryLoop_ext. intros s.
  apply bind_ext. intros _ s1.
  apply bind_ext. intros results s2.
  apply bind_ext. intros _ s3.
  assert (Hin : includes (toLowerCase query) (toLowerCase tableName) = true).
  { destruct (buildSelectQuery_mentions_table tableName options query Hq)
      as (before_ & after_ & ->).
    rewrite !toLowerCase_app. apply includes_infix. }
  rewrite Hin, andb_true_r.
  destruct results; reflexivity.
Qed.

Lemma rawQuery_of_compiled_select_witness :
  rawQuery quietEngine MiniJson.impl "Users" usersSchema
    "SELECT * FROM Users WHERE name = ? LIMIT 5" [VStr "Ann"] quietWorld
  = select quietEngine MiniJson.impl "Users" usersSchema
      {| so_where := Some [("name", VStr "Ann")]; so_select := None;
         so_limit := Some 5%Z; so_skip := None |} quietWorld.
Proof.
  apply (rawQuery_of_compiled_select quietEngine MiniJson.impl "Users"
           usersSchema
           {| so_where := Some [("name", VStr "Ann")]; so_select := None;
              so_limit := Some 5%Z; so_skip := None |});
    reflexivity.
Defined.

(** X14. [checkIntegrity] never throws: whatever the engine does, it
    returns a report; a report that says valid carries no error, and when
    the engine throws the report says invalid and carries one message. *)
Theorem checkIntegrity_always_reports (E : Engine) (w : world E) :
  exists w' report,
    checkIntegrity E w = (w', Ok report)
    /\ (isValid report = true -> integrityErrors report = [])
    /\ (forall d e,
          exec E (w_db E w) (Prepare "PRAGMA integrity_check") = (d, inl e) ->
          report
          = {| isValid := false;
               integrityErrors :=
                 [VStr ("Integrity check failed: " ++ error_to_string e)] |}).
Proof.
  cbv beta iota delta [checkIntegrity try_catch bind stmt_all engine ret].
  destruct (exec E (w_db E w) (Prepare "PRAGMA integrity_check"))
    as [d1 [e1 | r1]]; cbn [w_db w_log].
  - eexists. eexists. split; [reflexivity |].
    split; [discriminate |].
    intros d e H. injection H as _ <-. reflexivity.
  - destruct (exec E d1 (StmtAll "PRAGMA integrity_check" []))
      as [d2 [e2 | r2]].
    + eexists. eexists. split; [reflexivity |].
      split; [discriminate | intros d e H; discriminate H].
    + eexists. eexists. split; [reflexivity |].
      split; [| intros d e H; discriminate H].
      cbn [isValid integrityErrors]. intros ->. reflexivity.
Qed.

(* ===================================================================== *)
(** * 26. Theorems: more on the pool *)
(* ===================================================================== *)

Module PoolMore.
Import Pool.
Import PoolFacts.

(** ** What the maintenance of connections leaves alone *)

Lemma same_promises_refl (p : pool) : same_promises p p.
Proof. split; reflexivity. Qed.

Lemma same_promises_trans (p q r : pool) :
  same_promises p q -> same_promises q r -> same_promises p r.
Proof.
  intros [A1 A2 A3 A4 A5 A6] [B1 B2 B3 B4 B5 B6].
  split; congruence.
Qed.

Lemma same_destroyConnection (i : ident) (p : pool) :
  same_promises p (destroyConnection i p).
Proof.
  unfold destroyConnection.
  destruct (conn_get (connections p) i); split; reflexivity.
Qed.

Lemma same_fold {A : Type} (f : pool -> A -> pool) (xs : list A) (p : pool) :
  (forall q x, same_promises q (f q x)) ->
  same_promises p (fold_left f xs p).
Proof.
  intros Hf. revert p. induction xs as [| x xs IH]; intros p; simpl.
  - apply same_promises_refl.
  - eapply same_promises_trans; [apply Hf | apply IH].
Qed.

Lemma same_cleanupIdleConnections (cfg : PoolConfig) (now : Z) (p : pool) :
  same_promises p (cleanupIdleConnections cfg now p).
Proof.
  unfold cleanupIdleConnections. apply same_fold.
  intros q i. apply same_destroyConnection.
Qed.

Lemma same_performHealthChecks (healthy : ident -> bool) (p : pool) :
  same_promises p (performHealthChecks healthy p).
Proof.
  unfold performHealthChecks. apply same_fold.
  intros q c. destruct (negb (inUse c) && negb (healthy (id c)));
    [apply same_destroyConnection | apply same_promises_refl].
Qed.

Lemma ledger_same (p q : pool) : same_promises p q -> ledger q = ledger p.
Proof.
  intros [H1 H2 H3 H4 _ _]. unfold ledger. rewrite H1, H2, H3, H4.
  reflexivity.
Qed.

(** ** The window of acquire times *)

Lemma window_recordAcquireTime (time : Z) (p : pool) :
  List.length (acquireTimes p) <= 100 ->
  List.length (acquireTimes (recordAcquireTime time p)) <= 100.
Proof.
  intros H. unfold recordAcquireTime. unfold_pool.
  destruct (Nat.ltb 100 (List.length (acquireTimes p ++ [time]))) eqn:Hlt.
  - destruct (acquireTimes p ++ [time])%list as [| t ts] eqn:Hts;
      [simpl; lia |].
    assert (Hl : List.length (t :: ts) = S (List.length (acquireTimes p))).
    { rewrite <- Hts, length_app. simpl. lia. }
    simpl in *. lia.
  - apply Nat.ltb_ge in Hlt. exact Hlt.
Qed.

Lemma window_step (cfg : PoolConfig) (p : pool) (e : event) :
  List.length (acquireTimes p) <= 100 ->
  List.length (acquireTimes (step cfg p e)) <= 100.
Proof.
  intros H. destruct e; cbn [step].
  - exact H.
  - unfold acquire.
    change (availableConnections (alloc_promise p))
      with (availableConnections p).
    change (connections (alloc_promise p)) with (connections p).
    destruct (availableConnections p) as [| connectionId rest].
    + destruct (Nat.ltb _ _); [destruct opens |]; exact H.
    + destruct (conn_get _ connectionId); [| exact H].
      exact (window_recordAcquireTime 0 p H).
  - unfold resume. destruct (pending p) as [| pc rest]; [exact H |].
    destruct (pc_created pc); [| exact H].
    exact (window_recordAcquireTime (now - pc_startTime pc) p H).
  - unfold release.
    destruct (conn_get (connections p) connectionId) as [connection |];
      [| exact H].
    destruct (maxConnectionAge cfg <? now - createdAt connection)%Z.
    + rewrite (same_times _ _ (same_destroyConnection connectionId _)).
      exact H.
    + unfold_pool. pool_proj.
      destruct (waitingQueue p) as [| waiter rest]; [exact H |].
      exact (window_recordAcquireTime (now - timestamp waiter) p H).
  - unfold timeout. destruct (existsb _ _); exact H.
  - rewrite (same_times _ _ (same_cleanupIdleConnections cfg now p)). exact H.
  - rewrite (same_times _ _ (same_performHealthChecks healthy p)). exact H.
  - exact H.
  - unfold close.
    assert (Hf : forall q r,
               acquireTimes
                 (fold_left (fun r waiter => reject (promise waiter) PoolClosing r)
                            q r)
               = acquireTimes r).
    { induction q as [| x q IH]; intros r; simpl;
        [reflexivity | rewrite IH; reflexivity]. }
    unfold_pool. rewrite Hf. exact H.
Qed.

Lemma lastn_length {A : Type} (n : nat) (l : list A) :
  List.length (lastn n l) <= n.
Proof. unfold lastn. rewrite length_skipn. lia. Qed.

Lemma skipn_one {A : Type} (l : list A) : skipn 1 l = tl l.
Proof. destruct l; reflexivity. Qed.

Lemma lastn_snoc {A : Type} (n : nat) (h : list A) (t : A) :
  0 < n -> lastn n (lastn n h ++ [t]) = lastn n (h ++ [t]).
Proof.
  intros Hn. unfold lastn.
  rewrite !length_app, length_skipn. cbn [List.length].
  rewrite !skipn_app, skipn_skipn, length_skipn.
  f_equal.
  - f_equal. lia.
  - f_equal. lia.
Qed.

Lemma times_recordAcquireTime (time : Z) (p : pool) (h : list Z) :
  acquireTimes p = lastn 100 h ->
  acquireTimes (recordAcquireTime time p) = lastn 100 (h ++ [time]).
Proof.
  intros H. unfold recordAcquireTime. unfold_pool.
  rewrite <- (lastn_snoc 100 h time) by lia. rewrite <- H.
  pose proof (lastn_length 100 h) as Hlen. rewrite <- H in Hlen.
  unfold lastn. rewrite length_app. cbn [List.length].
  destruct (Nat.ltb 100 (List.length (acquireTimes p) + 1)) eqn:Hlt.
  - apply Nat.ltb_lt in Hlt.
    replace (List.length (acquireTimes p) + 1 - 100) with 1 by lia.
    symmetry. apply skipn_one.
  - apply Nat.ltb_ge in Hlt.
    replace (List.length (acquireTimes p) + 1 - 100) with 0 by lia.
    reflexivity.
Qed.

Lemma times_step (cfg : PoolConfig) (p : pool) (e : event) (h : list Z) :
  acquireTimes p = lastn 100 h ->
  acquireTimes (step cfg p e)
  = lastn 100 (h ++ match time_recorded cfg p e with
                    | Some time => [time]
                    | None => []
                    end).
Proof.
  intros H. destruct e; cbn [step time_recorded];
    try (rewrite app_nil_r).
  - exact H.
  - unfold acquire.
    change (availableConnections (alloc_promise p))
      with (availableConnections p).
    change (connections (alloc_promise p)) with (connections p).
    destruct (availableConnections p) as [| connectionId rest].
    + rewrite app_nil_r.
      destruct (Nat.ltb _ _); [destruct opens |]; exact H.
    + destruct (conn_get _ connectionId); [| rewrite app_nil_r; exact H].
      exact (times_recordAcquireTime 0 p h H).
  - unfold resume. destruct (pending p) as [| pc rest];
      [rewrite app_nil_r; exact H |].
    destruct (pc_created pc); [| rewrite app_nil_r; exact H].
    exact (times_recordAcquireTime (now - pc_startTime pc) p h H).
  - unfold release.
    destruct (conn_get (connections p) connectionId) as [connection |];
      [| rewrite app_nil_r; exact H].
    destruct (maxConnectionAge cfg <? now - createdAt connection)%Z.
    + rewrite (same_times _ _ (same_destroyConnection connectionId _)).
      rewrite app_nil_r. exact H.
    + unfold_pool. pool_proj.
      destruct (waitingQueue p) as [| waiter rest];
        [rewrite app_nil_r; exact H |].
      exact (times_recordAcquireTime (now - timestamp waiter) p h H).
  - unfold timeout. destruct (existsb _ _); exact H.
  - rewrite (same_times _ _ (same_cleanupIdleConnections cfg now p)). exact H.
  - rewrite (same_times _ _ (same_performHealthChecks healthy p)). exact H.
  - exact H.
  - unfold close.
    assert (Hf : forall q r,
               acquireTimes
                 (fold_left (fun r waiter => reject (promise waiter) PoolClosing r)
                            q r)
               = acquireTimes r).
    { induction q as [| x q IH]; intros r; simpl;
        [reflexivity | rewrite IH; reflexivity]. }
    unfold_pool. rewrite Hf. exact H.
Qed.

Lemma times_run (cfg : PoolConfig) (es : list event) :
  forall (p : pool) (h : list Z),
    acquireTimes p = lastn 100 h ->
    acquireTimes (run cfg p es) = lastn 100 (h ++ recorded cfg p es).
Proof.
  unfold run. induction es as [| e es IH]; intros p h H; cbn [fold_left recorded].
  - rewrite app_nil_r. exact H.
  - rewrite app_assoc. apply IH, times_step, H.
Qed.

(** X15. Whatever the events the pool goes through, its acquire times are
    the last hundred of the times handed to [recordAcquireTime] along the
    run, oldest first: every sample is appended, and only the oldest ones
    are dropped, once there are more than a hundred. *)
Theorem acquireTimes_window (cfg : PoolConfig) (es : list event) :
  acquireTimes (run cfg newPool es) = lastn 100 (recorded cfg newPool es)
  /\ List.length (acquireTimes (run cfg newPool es)) <= 100.
Proof.
  assert (H : acquireTimes (run cfg newPool es)
              = lastn 100 (recorded cfg newPool es)).
  { exact (times_run cfg es newPool [] eq_refl). }
  split; [exact H |]. rewrite H. apply lastn_length.
Qed.

(** ** Promises are settled at most once *)

Lemma count_remove_waiter (w : nat) (q : list Waiter) (x : nat) :
  existsb (fun y => Nat.eqb (promise y) w) q = true ->
  count_occ Nat.eq_dec (map promise (remove_waiter w q)) x
  + (if Nat.eq_dec w x then 1 else 0)
  = count_occ Nat.eq_dec (map promise q) x.
Proof.
  induction q as [| y q IH]; [discriminate |].
  cbn [existsb remove_waiter map].
  destruct (Nat.eqb_spec (promise y) w) as [Heq | Hne]; cbn [orb].
  - intros _. cbn [count_occ]. rewrite Heq.
    destruct (Nat.eq_dec w x); lia.
  - intros H. specialize (IH H). cbn [map count_occ].
    destruct (Nat.eq_dec (promise y) x); lia.
Qed.

Lemma close_fields (q : list Waiter) (p : pool) :
  let p' := fold_left (fun r waiter => reject (promise waiter) PoolClosing r)
                      q p in
  pending p' = pending p /\ resolved p' = resolved p
  /\ nextPromise p' = nextPromise p
  /\ map fst (rejected p') = (map fst (rejected p) ++ map promise q)%list.
Proof.
  revert p. induction q as [| x q IH]; intros p; cbn [fold_left].
  - cbv zeta. rewrite app_nil_r. repeat split; reflexivity.
  - destruct (IH (reject (promise x) PoolClosing p)) as (H1 & H2 & H3 & H4).
    cbv zeta. rewrite H1, H2, H3, H4. unfold reject. pool_proj.
    rewrite map_app, <- app_assoc. repeat split; reflexivity.
Qed.

Ltac count_cases x :=
  rewrite ?map_app, ?count_occ_app;
  cbn [map fst count_occ pc_promise promise];
  repeat match goal with
         | |- context [Nat.eq_dec ?a x] => destruct (Nat.eq_dec a x)
         end;
  rewrite ?count_occ_app; try lia.

Ltac ledger_count :=
  apply (proj2 (Permutation_count_occ Nat.eq_dec _ _));
  let x := fresh "x" in
  intros x; unfold ledger, createConnection; unfold_pool; pool_proj;
  count_cases x.

(** What one step does to the ledger: it permutes it, or allocates one
    promise and adds it, or allocates one promise and loses it. *)
Lemma ledger_step (cfg : PoolConfig) (p : pool) (e : event) :
  (Permutation (ledger (step cfg p e)) (ledger p)
   /\ nextPromise (step cfg p e) = nextPromise p)
  \/ (Permutation (ledger (step cfg p e)) (nextPromise p :: ledger p)
      /\ nextPromise (step cfg p e) = S (nextPromise p))
  \/ (ledger (step cfg p e) = ledger p
      /\ nextPromise (step cfg p e) = S (nextPromise p)).
Proof.
  destruct e; cbn [step].
  - left. split; [apply Permutation_refl | reflexivity].
  - right. unfold acquire.
    change (availableConnections (alloc_promise p))
      with (availableConnections p).
    change (connections (alloc_promise p)) with (connections p).
    destruct (availableConnections p) as [| connectionId rest].
    + left.
      destruct (Nat.ltb _ _); [destruct opens |];
        (split; [ledger_count | reflexivity]).
    + destruct (conn_get _ connectionId).
      * left. split; [ledger_count | reflexivity].
      * right. split; reflexivity.
  - left. unfold resume. destruct (pending p) as [| pc rest] eqn:Hp.
    + split; [apply Permutation_refl | reflexivity].
    + destruct (pc_created pc).
      * split; [| reflexivity]. unfold ledger. rewrite Hp. ledger_count.
      * split; [| reflexivity]. unfold ledger. rewrite Hp. ledger_count.
  - left. unfold release.
    destruct (conn_get (connections p) connectionId) as [connection |];
      [| split; [apply Permutation_refl | reflexivity]].
    destruct (maxConnectionAge cfg <? now - createdAt connection)%Z.
    + rewrite (ledger_same _ _ (same_destroyConnection connectionId _)),
        (same_next _ _ (same_destroyConnection connectionId _)).
      split; [apply Permutation_refl | reflexivity].
    + unfold_pool. pool_proj.
      destruct (waitingQueue p) as [| waiter rest] eqn:Hq.
      * split; [| reflexivity]. unfold ledger. unfold_pool. pool_proj.
        rewrite Hq. apply Permutation_refl.
      * split; [| reflexivity]. unfold ledger. unfold_pool. pool_proj. rewrite Hq.
        ledger_count.
  - left. unfold timeout.
    destruct (existsb _ (waitingQueue p)) eqn:Hw;
      [| split; [apply Permutation_refl | reflexivity]].
    split; [| reflexivity].
    apply (proj2 (Permutation_count_occ Nat.eq_dec _ _)). intros x.
    unfold ledger. unfold_pool. pool_proj.
    rewrite ?map_app, ?count_occ_app. cbn [map fst count_occ].
    pose proof (count_remove_waiter w (waitingQueue p) x Hw) as Hc.
    destruct (Nat.eq_dec w x); lia.
  - left.
    rewrite (ledger_same _ _ (same_cleanupIdleConnections cfg now p)),
      (same_next _ _ (same_cleanupIdleConnections cfg now p)).
    split; [apply Permutation_refl | reflexivity].
  - left.
    rewrite (ledger_same _ _ (same_performHealthChecks healthy p)),
      (same_next _ _ (same_performHealthChecks healthy p)).
    split; [apply Permutation_refl | reflexivity].
  - left. split; [apply Permutation_refl | reflexivity].
  - left. unfold close.
    destruct (close_fields (waitingQueue p) p) as (H1 & H2 & H3 & H4).
    cbv zeta in *. split; [| unfold_pool; exact H3].
    apply (proj2 (Permutation_count_occ Nat.eq_dec _ _)). intros x.
    unfold ledger. unfold_pool. rewrite H1, H2, H4.
    rewrite ?count_occ_app. cbn [map count_occ]. lia.
Qed.

Lemma settled_once_step (cfg : PoolConfig) (p : pool) (e : event) :
  NoDup (ledger p) /\ Forall (fun w => w < nextPromise p) (ledger p) ->
  NoDup (ledger (step cfg p e))
  /\ Forall (fun w => w < nextPromise (step cfg p e)) (ledger (step cfg p e)).
Proof.
  intros [Hnd Hlt].
  destruct (ledger_step cfg p e) as [[Hp ->] | [[Hp ->] | [-> ->]]].
  - apply Permutation_sym in Hp. split.
    + exact (Permutation_NoDup Hp Hnd).
    + exact (Permutation_Forall Hp Hlt).
  - apply Permutation_sym in Hp.
    assert (Hnd' : NoDup (nextPromise p :: ledger p)).
    { constructor; [| exact Hnd]. intros Hin.
      rewrite Forall_forall in Hlt. specialize (Hlt _ Hin). lia. }
    assert (Hlt' : Forall (fun w => w < S (nextPromise p))
                          (nextPromise p :: ledger p)).
    { constructor; [lia |]. eapply Forall_impl; [| exact Hlt].
      intros a Ha. simpl in Ha. lia. }
    split.
    + exact (Permutation_NoDup Hp Hnd').
    + exact (Permutation_Forall Hp Hlt').
  - split; [exact Hnd |]. eapply Forall_impl; [| exact Hlt].
    intros a Ha. simpl in Ha. lia.
Qed.

(** X16. Whatever the events, a promise of [acquire] is in at most one
    place and there at most once: no caller is resolved twice, resolved
    and rejected, or settled while it still waits. *)
Theorem promises_settled_at_most_once (cfg : PoolConfig) (es : list event) :
  NoDup (ledger (run cfg newPool es))
  /\ Forall (fun w => w < nextPromise (run cfg newPool es))
            (ledger (run cfg newPool es)).
Proof.
  unfold run.
  assert (H : NoDup (ledger newPool)
              /\ Forall (fun w => w < nextPromise newPool) (ledger newPool)).
  { split; constructor. }
  revert H. generalize newPool.
  induction es as [| e es IH]; intros p H; simpl; [exact H |].
  apply IH, settled_once_step, H.
Qed.

(** ** The size of the pool *)

Lemma conn_set_length_le (cs : list PooledConnection) (c : PooledConnection) :
  List.length (conn_set cs c) <= S (List.length cs).
Proof.
  induction cs as [| c' cs IH]; cbn [conn_set List.length]; [lia |].
  destruct (Nat.eqb (id c') (id c)); cbn [List.length]; lia.
Qed.

Lemma connections_destroyConnection (i : ident) (p : pool) :
  connections (destroyConnection i p) = conn_delete (connections p) i.
Proof.
  unfold destroyConnection.
  destruct (conn_get (connections p) i) as [c |] eqn:Hget; [reflexivity |].
  unfold conn_get, conn_delete in *.
  induction (connections p) as [| c cs IH]; [reflexivity |].
  cbn [find filter] in *.
  destruct (Nat.eqb (id c) i); [discriminate Hget |].
  cbn [negb]. rewrite <- IH by exact Hget. reflexivity.
Qed.

Lemma size_destroyConnection (i : ident) (p : pool) :
  List.length (connections (destroyConnection i p))
  <= List.length (connections p).
Proof. rewrite connections_destroyConnection. apply filter_length_le. Qed.

Lemma size_fold {A : Type} (f : pool -> A -> pool) (xs : list A) (p : pool) :
  (forall q x, List.length (connections (f q x))
               <= List.length (connections q)) ->
  List.length (connections (fold_left f xs p)) <= List.length (connections p).
Proof.
  intros Hf. revert p. induction xs as [| x xs IH]; intros p; simpl; [lia |].
  specialize (IH (f p x)). specialize (Hf p x). lia.
Qed.

Lemma size_step (cfg : PoolConfig) (p : pool) (e : event) :
  is_create e = false ->
  List.length (connections (step cfg p e))
  <= Nat.max (List.length (connections p)) (maxConnections cfg).
Proof.
  intros He. destruct e; cbn [step]; try discriminate He.
  - unfold acquire.
    change (availableConnections (alloc_promise p))
      with (availableConnections p).
    change (connections (alloc_promise p)) with (connections p).
    destruct (availableConnections p) as [| connectionId rest].
    + destruct (Nat.ltb (List.length (connections p)) (maxConnections cfg))
        eqn:Hlt.
      * apply Nat.ltb_lt in Hlt. destruct opens; [| simpl; lia].
        unfold createConnection. unfold_pool. pool_proj.
        pose proof (conn_set_length_le (connections p)
                      {| id := uuid; createdAt := now; lastUsed := now;
                         inUse := false; queryCount := 0; errorCount := 0 |}).
        lia.
      * unfold_pool. pool_proj. lia.
    + destruct (conn_get _ connectionId); unfold_pool; pool_proj;
        rewrite ?conn_update_length; lia.
  - unfold resume. destruct (pending p) as [| pc rest]; [lia |].
    destruct (pc_created pc); unfold_pool; pool_proj;
      rewrite ?conn_update_length; lia.
  - unfold release.
    destruct (conn_get (connections p) connectionId) as [connection |];
      [| lia].
    destruct (maxConnectionAge cfg <? now - createdAt connection)%Z.
    + etransitivity; [apply size_destroyConnection |].
      unfold_pool. pool_proj. rewrite conn_update_length. lia.
    + unfold_pool. pool_proj.
      destruct (waitingQueue p); unfold_pool; pool_proj;
        rewrite ?conn_update_length; lia.
  - unfold timeout. destruct (existsb _ _); unfold_pool; pool_proj; lia.
  - unfold cleanupIdleConnections.
    etransitivity; [apply size_fold | lia].
    intros q i. apply size_destroyConnection.
  - unfold performHealthChecks.
    etransitivity; [apply size_fold | lia].
    intros q c. destruct (negb (inUse c) && negb (healthy (id c)));
      [apply size_destroyConnection | lia].
  - unfold_pool. pool_proj. lia.
  - unfold close. unfold_pool. simpl. lia.
Qed.

(** X17. Once its first connections are open, the pool never holds more
    connections than the larger of that number and [maxConnections]:
    [acquire] is the only event that opens one, and only below the
    limit. *)
Theorem pool_size_bounded (cfg : PoolConfig) (es : list event) (p : pool) :
  forallb (fun e => negb (is_create e)) es = true ->
  List.length (connections (run cfg p es))
  <= Nat.max (List.length (connections p)) (maxConnections cfg).
Proof.
  unfold run. revert p.
  induction es as [| e es IH]; intros p Hes; cbn [fold_left]; [lia |].
  cbn [forallb] in Hes. apply andb_true_iff in Hes. destruct Hes as [He Hes].
  apply negb_true_iff in He.
  specialize (IH (step cfg p e) Hes).
  pose proof (size_step cfg p e He). lia.
Qed.

Lemma pool_size_bounded_witness :
  List.length
    (connections (run saturatedConfig newPool fairnessEvents))
  <= Nat.max (List.length (connections newPool))
             (maxConnections saturatedConfig).
Proof.
  apply (pool_size_bounded saturatedConfig fairnessEvents newPool).
  reflexivity.
Defined.

(** ** What the reaper and the health check destroy *)

Lemma filter_filter {A : Type} (f g : A -> bool) (l : list A) :
  filter f (filter g l) = filter (fun a => g a && f a) l.
Proof.
  induction l as [| a l IH]; [reflexivity |]. cbn [filter].
  destruct (g a); cbn [filter andb]; [destruct (f a) |]; rewrite IH;
    reflexivity.
Qed.

Lemma connections_fold_destroy (ids : list ident) (p : pool) :
  connections (fold_left (fun q i => destroyConnection i q) ids p)
  = filter (fun c => negb (existsb (Nat.eqb (id c)) ids)) (connections p).
Proof.
  revert p. induction ids as [| i ids IH]; intros p; cbn [fold_left].
  - cbn [existsb negb]. symmetry. apply forallb_filter_id.
    apply forallb_forall. reflexivity.
  - rewrite IH, connections_destroyConnection. unfold conn_delete.
    rewrite filter_filter. apply filter_ext. intros c. cbn [existsb].
    rewrite negb_orb. reflexivity.
Qed.

Lemma fold_destroy_selected (select_ : PooledConnection -> bool)
  (cs : list PooledConnection) (p : pool) :
  fold_left (fun q c => if select_ c then destroyConnection (id c) q else q)
            cs p
  = fold_left (fun q i => destroyConnection i q) (map id (filter select_ cs)) p.
Proof.
  revert p. induction cs as [| c cs IH]; intros p; [reflexivity |].
  cbn [fold_left filter]. rewrite IH.
  destruct (select_ c); reflexivity.
Qed.

Lemma unique_id_eq (cs : list PooledConnection) (c c' : PooledConnection) :
  NoDup (map id cs) -> In c cs -> In c' cs -> id c = id c' -> c = c'.
Proof.
  induction cs as [| a cs IH]; [contradiction |].
  cbn [map]. intros Hnd [-> | Hc] [-> | Hc'] Hid.
  - reflexivity.
  - exfalso. inversion Hnd as [| ? ? Hnotin _]. apply Hnotin.
    rewrite Hid. apply in_map, Hc'.
  - exfalso. inversion Hnd as [| ? ? Hnotin _]. apply Hnotin.
    rewrite <- Hid. apply in_map, Hc.
  - inversion Hnd. apply IH; assumption.
Qed.

(** With unique ids, destroying the selected connections leaves exactly
    the others. *)
Lemma connections_destroy_selected (select_ : PooledConnection -> bool)
  (p : pool) :
  unique_ids p ->
  connections
    (fold_left (fun q i => destroyConnection i q)
       (map id (filter select_ (connections p))) p)
  = filter (fun c => negb (select_ c)) (connections p).
Proof.
  intros Hu. rewrite connections_fold_destroy.
  apply filter_ext_in. intros c Hc. f_equal.
  destruct (select_ c) eqn:Hs.
  - apply existsb_exists. exists (id c). split; [| apply Nat.eqb_refl].
    apply in_map. apply filter_In. split; assumption.
  - destruct (existsb _ _) eqn:Hex; [| reflexivity].
    apply existsb_exists in Hex. destruct Hex as (i & Hi & Heq).
    apply Nat.eqb_eq in Heq. apply in_map_iff in Hi.
    destruct Hi as (c' & Hid & Hc'). apply filter_In in Hc'.
    destruct Hc' as [Hc' Hs'].
    assert (c = c') as <-.
    { apply (unique_id_eq (connections p)); try assumption. congruence. }
    congruence.
Qed.

Lemma connections_cleanupIdleConnections (cfg : PoolConfig) (now : Z)
  (p : pool) :
  unique_ids p ->
  connections (cleanupIdleConnections cfg now p)
  = filter (fun c =>
              negb (idle_expired cfg now c
                    && Nat.ltb (minConnections cfg)
                               (List.length (connections p))))
           (connections p).
Proof.
  intros Hu. unfold cleanupIdleConnections, idle_expired.
  apply (connections_destroy_selected
           (fun c => negb (inUse c) && (idleTimeout cfg <? now - lastUsed c)%Z
                     && Nat.ltb (minConnections cfg)
                                (List.length (connections p)))).
  exact Hu.
Qed.

Lemma connections_performHealthChecks (healthy : ident -> bool) (p : pool) :
  unique_ids p ->
  connections (performHealthChecks healthy p)
  = filter (fun c => negb (negb (inUse c) && negb (healthy (id c))))
           (connections p).
Proof.
  intros Hu. unfold performHealthChecks.
  rewrite (fold_destroy_selected
             (fun c => negb (inUse c) && negb (healthy (id c)))).
  apply connections_destroy_selected, Hu.
Qed.

(** X18. In a pool with unique ids, neither the reaper nor the health
    check destroys a connection that is in use. *)
Theorem maintenance_spares_connections_in_use
  (cfg : PoolConfig) (now : Z) (healthy : ident -> bool) (p : pool)
  (c : PooledConnection) :
  unique_ids p ->
  In c (connections p) ->
  inUse c = true ->
  In c (connections (cleanupIdleConnections cfg now p))
  /\ In c (connections (performHealthChecks healthy p)).
Proof.
  intros Hu Hc Huse.
  rewrite connections_cleanupIdleConnections,
    connections_performHealthChecks by exact Hu.
  unfold idle_expired.
  split; apply filter_In; (split; [exact Hc |]); rewrite Huse; reflexivity.
Qed.

(** X19. The reaper compares [minConnections] with the size of the pool
    before it destroys anything: at or below the minimum it changes
    nothing, and above it every connection that is idle past the timeout
    goes, however few are left. *)
Theorem reaper_checks_minimum_once (cfg : PoolConfig) (now : Z) (p : pool) :
  unique_ids p ->
  (List.length (connections p) <= minConnections cfg ->
   cleanupIdleConnections cfg now p = p)
  /\ (minConnections cfg < List.length (connections p) ->
      connections (cleanupIdleConnections cfg now p)
      = filter (fun c => negb (idle_expired cfg now c)) (connections p)).
Proof.
  intros Hu. split.
  - intros Hle. unfold cleanupIdleConnections.
    apply Nat.ltb_ge in Hle. rewrite Hle.
    assert (Hnone : filter
                      (fun connection =>
                         negb (inUse connection)
                         && (idleTimeout cfg <? now - lastUsed connection)%Z
                         && false) (connections p) = []).
    { clear Hle Hu. induction (connections p) as [| c cs IH];
        [reflexivity |].
      cbn [filter]. rewrite andb_false_r. exact IH. }
    rewrite Hnone. reflexivity.
  - intros Hlt. rewrite connections_cleanupIdleConnections by exact Hu.
    apply Nat.ltb_lt in Hlt. rewrite Hlt.
    apply filter_ext. intros c. rewrite andb_true_r. reflexivity.
Qed.

Lemma maintenance_spares_connections_in_use_witness :
  let p := run saturatedConfig newPool [Acquire 0 10 true; Resume 0] in
  let c := {| id := 10; createdAt := 0; lastUsed := 0; inUse := true;
              queryCount := 0; errorCount := 0 |} in
  In c (connections (cleanupIdleConnections saturatedConfig 100000 p))
  /\ In c (connections (performHealthChecks (fun _ => false) p)).
Proof.
  apply (maintenance_spares_connections_in_use saturatedConfig 100000
           (fun _ => false)
           (run saturatedConfig newPool [Acquire 0 10 true; Resume 0])).
  - repeat constructor. intros [].
  - left. reflexivity.
  - reflexivity.
Defined.

Lemma reaper_checks_minimum_once_witness :
  let p := run defaultConfig newPool [Create 0 1; Create 0 2; Create 0 3] in
  connections (cleanupIdleConnections defaultConfig 100000 p) = [].
Proof.
  cbv zeta.
  destruct (reaper_checks_minimum_once defaultConfig 100000
              (run defaultConfig newPool [Create 0 1; Create 0 2; Create 0 3]))
    as [_ Habove].
  - repeat constructor; simpl; intuition discriminate.
  - rewrite Habove; [reflexivity | simpl; lia].
Defined.

(** ** Releasing twice *)

Lemma conn_get_update (cs : list PooledConnection) (i : ident)
  (f : PooledConnection -> PooledConnection) (c : PooledConnection) :
  (forall c', id (f c') = id c') ->
  conn_get cs i = Some c ->
  conn_get (conn_update cs i f) i = Some (f c).
Proof.
  intros Hf. unfold conn_get, conn_update.
  induction cs as [| c' cs IH]; [discriminate |].
  cbn [find map].
  destruct (Nat.eqb (id c') i) eqn:Hi.
  - intros H. injection H as <-. rewrite Hf, Hi. reflexivity.
  - rewrite Hi. exact IH.
Qed.

(** A release that finds no waiter puts the connection back, whether or
    not it was out. *)
Lemma release_to_pool (cfg : PoolConfig) (i : ident) (now : Z) (p : pool)
  (c : PooledConnection) :
  conn_get (connections p) i = Some c ->
  (maxConnectionAge cfg <? now - createdAt c)%Z = false ->
  waitingQueue p = [] ->
  conn_get (connections (release cfg i now p)) i
  = Some (set_lastUsed now (set_inUse false c))
  /\ availableConnections (release cfg i now p)
     = (availableConnections p ++ [i])%list
  /\ waitingQueue (release cfg i now p) = []
  /\ resolved (release cfg i now p) = resolved p
  /\ nextPromise (release cfg i now p) = nextPromise p.
Proof.
  intros Hget Hage Hq. unfold release. rewrite Hget, Hage.
  unfold_pool. pool_proj. rewrite Hq. unfold_pool. pool_proj.
  repeat split; try assumption.
  apply (conn_get_update _ i
           (fun c0 => set_lastUsed now (set_inUse false c0)) c);
    [reflexivity | exact Hget].
Qed.

(** An acquire that finds an id in the available list resolves with it. *)
Lemma acquire_from_pool (cfg : PoolConfig) (now : Z) (uuid : ident)
  (opens : bool) (p : pool) (i : ident) (rest : list ident)
  (c : PooledConnection) :
  availableConnections p = i :: rest ->
  conn_get (connections p) i = Some c ->
  conn_get (connections (acquire cfg now uuid opens p)) i
  = Some (set_lastUsed now (set_inUse true c))
  /\ availableConnections (acquire cfg now uuid opens p) = rest
  /\ resolved (acquire cfg now uuid opens p)
     = (resolved p ++ [(nextPromise p, i)])%list
  /\ nextPromise (acquire cfg now uuid opens p) = S (nextPromise p).
Proof.
  intros Hav Hget. unfold acquire.
  change (availableConnections (alloc_promise p))
    with (availableConnections p).
  rewrite Hav.
  change (connections (with_available rest (alloc_promise p)))
    with (connections p).
  rewrite Hget. unfold_pool. pool_proj.
  repeat split.
  apply (conn_get_update _ i
           (fun c0 => set_lastUsed now (set_inUse true c0)) c);
    [reflexivity | exact Hget].
Qed.

(** X20. [release] does not look at [inUse]: a connection released twice
    while nobody waits is listed twice as available, and the next two
    callers of [acquire] are both resolved with it. *)
Theorem release_twice_serves_two_callers
  (cfg : PoolConfig) (i : ident) (now1 now2 now3 now4 : Z)
  (uuid1 uuid2 : ident) (opens1 opens2 : bool) (p : pool)
  (c : PooledConnection) :
  conn_get (connections p) i = Some c ->
  waitingQueue p = [] ->
  availableConnections p = [] ->
  (maxConnectionAge cfg <? now1 - createdAt c)%Z = false ->
  (maxConnectionAge cfg <? now2 - createdAt c)%Z = false ->
  resolved (run cfg p [Release i now1; Release i now2;
                       Acquire now3 uuid1 opens1; Acquire now4 uuid2 opens2])
  = (resolved p ++ [(nextPromise p, i); (S (nextPromise p), i)])%list.
Proof.
  intros Hget Hq Hav Hage1 Hage2. unfold run. cbn [fold_left step].
  destruct (release_to_pool cfg i now1 p c Hget Hage1 Hq)
    as (G1 & A1 & Q1 & R1 & N1).
  set (p1 := release cfg i now1 p) in *.
  destruct (release_to_pool cfg i now2 p1 _ G1 Hage2 Q1)
    as (G2 & A2 & Q2 & R2 & N2).
  set (p2 := release cfg i now2 p1) in *.
  rewrite A1, Hav in A2. cbn [app] in A2.
  destruct (acquire_from_pool cfg now3 uuid1 opens1 p2 i [i] _ A2 G2)
    as (G3 & A3 & R3 & N3).
  set (p3 := acquire cfg now3 uuid1 opens1 p2) in *.
  destruct (acquire_from_pool cfg now4 uuid2 opens2 p3 i [] _ A3 G3)
    as (_ & _ & R4 & _).
  rewrite R4, R3, N3, R2, N2, R1, N1, <- app_assoc. reflexivity.
Qed.

Lemma release_twice_serves_two_callers_witness :
  let p := run saturatedConfig newPool [Acquire 0 10 true; Resume 0] in
  resolved (run saturatedConfig p
              [Release 10 5; Release 10 6;
               Acquire 7 11 true; Acquire 8 12 true])
  = (resolved p ++ [(nextPromise p, 10); (S (nextPromise p), 10)])%list.
Proof.
  apply (release_twice_serves_two_callers saturatedConfig 10 5 6 7 8 11 12
           true true
           (run saturatedConfig newPool [Acquire 0 10 true; Resume 0])
           {| id := 10; createdAt := 0; lastUsed := 0; inUse := true;
              queryCount := 0; errorCount := 0 |});
    reflexivity.
Defined.

(** ** Conservation and service order, for every run *)

(** X21. In every run without [close] in which connection ids are drawn
    fresh, the ids of the pool stay unique and the counters stay
    consistent: created minus destroyed is the number of connections,
    active plus idle is the total, and the waiting count is the length of
    the queue. *)
Theorem pool_sound_until_close (cfg : PoolConfig) (es : list event) :
  forallb (fun e => negb (is_close e)) es = true ->
  admissible cfg newPool es ->
  NoDup (map id (connections (run cfg newPool es)))
  /\ conservation (run cfg newPool es).
Proof.
  intros Hnc Hadm.
  exact (sound_run cfg es newPool Hnc Hadm sound_newPool).
Qed.

Lemma pool_sound_until_close_witness :
  NoDup (map id (connections (run saturatedConfig newPool fairnessEvents)))
  /\ conservation (run saturatedConfig newPool fairnessEvents).
Proof.
  apply (pool_sound_until_close saturatedConfig fairnessEvents).
  - reflexivity.
  - simpl. repeat split.
Defined.

End PoolMore.

(** X22. Waiters are served in the order of their arrival in every run,
    [close] included: if a waiter was pushed before another that has been
    resolved, it was resolved earlier, or its timer fired, or the pool
    closed on it. *)
Theorem waiters_fifo_with_close
  (cfg : Pool.PoolConfig) (es : list Pool.event) (w1 w2 : nat) :
  Pool.before (Pool.enqueued (Pool.run cfg Pool.newPool es)) w1 w2 ->
  In w2 (Pool.resolvedPromises (Pool.run cfg Pool.newPool es)) ->
  Pool.before (Pool.resolvedPromises (Pool.run cfg Pool.newPool es)) w1 w2
  \/ In w1 (Pool.rejectedWith Pool.AcquireTimeout
              (Pool.run cfg Pool.newPool es))
  \/ In w1 (Pool.rejectedWith Pool.PoolClosing
              (Pool.run cfg Pool.newPool es)).
Proof. apply FifoFacts.fifo_general. Qed.

Lemma waiters_fifo_with_close_witness :
  Pool.before
    (Pool.resolvedPromises
       (Pool.run Pool.saturatedConfig Pool.newPool
          (Pool.fairnessEvents ++ [Pool.Close]))) 2 3
  \/ In 2 (Pool.rejectedWith Pool.AcquireTimeout
             (Pool.run Pool.saturatedConfig Pool.newPool
                (Pool.fairnessEvents ++ [Pool.Close])))
  \/ In 2 (Pool.rejectedWith Pool.PoolClosing
             (Pool.run Pool.saturatedConfig Pool.newPool
                (Pool.fairnessEvents ++ [Pool.Close]))).
Proof.
  apply (waiters_fifo_with_close Pool.saturatedConfig
           (Pool.fairnessEvents ++ [Pool.Close]) 2 3).
  - exists [], [], []. reflexivity.
  - simpl. right. right. right. left. reflexivity.
Defined.

(* ===================================================================== *)
(** * 27. Theorems: the caches of the pool *)
(* ===================================================================== *)

Module CacheFacts.
Import PoolCaches.

Lemma map_get_set {V : Type} (m : list (string * V)) (key : string) (v : V) :
  map_get (map_set m key v) key = Some v.
Proof.
  induction m as [| [k v'] m IH]; cbn [map_set map_get].
  - rewrite String.eqb_refl. reflexivity.
  - destruct (k =? key) eqn:Hk; cbn [map_get]; rewrite Hk;
      [reflexivity | exact IH].
Qed.

Lemma map_set_keys {V : Type} (m : list (string * V)) (key : string) (v : V) :
  map fst (map_set m key v)
  = if existsb (String.eqb key) (map fst m) then map fst m
    else (map fst m ++ [key])%list.
Proof.
  induction m as [| [k v'] m IH]; cbn [map_set map fst existsb app];
    [reflexivity |].
  rewrite (String.eqb_sym key k).
  destruct (String.eqb_spec k key) as [-> | Hne]; cbn [map fst orb];
    [reflexivity |].
  rewrite IH. destruct (existsb (String.eqb key) (map fst m)); reflexivity.
Qed.

Lemma map_set_length {V : Type} (m : list (string * V)) (key : string)
  (v : V) :
  List.length (map_set m key v) <= S (List.length m).
Proof.
  induction m as [| [k v'] m IH]; cbn [map_set List.length]; [lia |].
  destruct (k =? key); cbn [List.length]; lia.
Qed.

Lemma map_set_nodup {V : Type} (m : list (string * V)) (key : string)
  (v : V) :
  NoDup (map fst m) -> NoDup (map fst (map_set m key v)).
Proof.
  intros H. rewrite map_set_keys.
  destruct (existsb (String.eqb key) (map fst m)) eqn:Hex; [exact H |].
  apply NoDup_app; [exact H | constructor; [intros [] | constructor] |].
  intros k Hk [<- | []].
  assert (Hin : existsb (String.eqb key) (map fst m) = true).
  { apply existsb_exists. exists key. split; [exact Hk |].
    apply String.eqb_refl. }
  congruence.
Qed.

Lemma filter_keys_nodup {V : Type} (f : string * V -> bool)
  (m : list (string * V)) :
  NoDup (map fst m) -> NoDup (map fst (filter f m)).
Proof.
  induction m as [| [k v] m IH]; cbn [map fst filter]; [intros H; exact H |].
  intros H. inversion H as [| ? ? Hnotin Hnd]. subst.
  destruct (f (k, v)); cbn [map fst]; [| apply IH, Hnd].
  constructor; [| apply IH, Hnd].
  intros Hin. apply Hnotin. apply in_map_iff in Hin.
  destruct Hin as (kv & Hk & Hkv). apply filter_In in Hkv.
  apply in_map_iff. exists kv. split; [exact Hk | apply Hkv].
Qed.

Lemma filter_keys_incl {V : Type} (f : string * V -> bool)
  (m : list (string * V)) (k : string) :
  In k (map fst (filter f m)) -> In k (map fst m).
Proof.
  intros Hin. apply in_map_iff in Hin. destruct Hin as (kv & Hk & Hkv).
  apply filter_In in Hkv. apply in_map_iff. exists kv.
  split; [exact Hk | apply Hkv].
Qed.

(** Deleting the first key of a map without duplicates removes its head. *)
Lemma map_delete_head {V : Type} (k : string) (v : V)
  (m : list (string * V)) :
  NoDup (map fst ((k, v) :: m)) -> map_delete ((k, v) :: m) k = m.
Proof.
  intros H. inversion H as [| ? ? Hnotin _]. subst.
  unfold map_delete. cbn [filter fst]. rewrite String.eqb_refl. cbn [negb].
  apply forallb_filter_id. apply forallb_forall. intros [k' v'] Hin.
  cbn [fst]. destruct (String.eqb_spec k' k) as [-> |]; [| reflexivity].
  exfalso. apply Hnotin. apply in_map_iff. exists (k, v').
  split; [reflexivity | exact Hin].
Qed.

Lemma map_get_delete {V : Type} (m : list (string * V)) (key : string) :
  map_get (map_delete m key) key = None.
Proof.
  unfold map_delete. induction m as [| [k v] m IH]; [reflexivity |].
  cbn [filter fst].
  destruct (k =? key) eqn:Hk; cbn [negb map_get]; [exact IH |].
  rewrite Hk. exact IH.
Qed.

(** X23. With the result cache on, a result stored under a key is what
    [getCachedQuery] returns for that key as long as no more than its time
    to live has passed, and the hit is counted; once more has passed the
    entry is dropped and nothing is returned.  Either way the request is
    counted. *)
Theorem cache_round_trip (cfg : CacheConfig) (now later : Z) (key : string)
  (result : list value) (ttl : Z) (c : QueryCache) :
  enableQueryCache cfg = true ->
  let stored := setCachedQuery cfg now key result ttl c in
  let fresh := (later - now <=? ttl)%Z in
  snd (getCachedQuery cfg later key stored)
  = (if fresh then Some result else None)
  /\ cacheHits (fst (getCachedQuery cfg later key stored))
     = (if fresh then S (cacheHits c) else cacheHits c)
  /\ cacheRequests (fst (getCachedQuery cfg later key stored))
     = S (cacheRequests c)
  /\ map_get (queryCache (fst (getCachedQuery cfg later key stored))) key
     = (if fresh
        then Some {| ce_result := result; ce_timestamp := now; ce_ttl := ttl |}
        else None).
Proof.
  intros Hon. cbv zeta. unfold getCachedQuery, setCachedQuery.
  rewrite Hon. cbn [negb queryCache cacheHits cacheRequests].
  rewrite map_get_set. unfold fresh_enough.
  cbn [ce_timestamp ce_ttl ce_result].
  destruct (later - now <=? ttl)%Z;
    cbn [fst snd queryCache cacheHits cacheRequests].
  - repeat split. apply map_get_set.
  - repeat split. apply map_get_delete.
Qed.

Lemma cache_round_trip_witness :
  let stored := setCachedQuery smallCache 0 "users" [VNum 1] 300000 emptyCache in
  let fresh := (1000 - 0 <=? 300000)%Z in
  snd (getCachedQuery smallCache 1000 "users" stored)
  = (if fresh then Some [VNum 1] else None)
  /\ cacheHits (fst (getCachedQuery smallCache 1000 "users" stored))
     = (if fresh then S (cacheHits emptyCache) else cacheHits emptyCache)
  /\ cacheRequests (fst (getCachedQuery smallCache 1000 "users" stored))
     = S (cacheRequests emptyCache)
  /\ map_get (queryCache (fst (getCachedQuery smallCache 1000 "users" stored)))
             "users"
     = (if fresh
        then Some {| ce_result := [VNum 1]; ce_timestamp := 0;
                     ce_ttl := 300000 |}
        else None).
Proof.
  apply (cache_round_trip smallCache 0 1000 "users" [VNum 1] 300000
           emptyCache).
  reflexivity.
Defined.

(** ** The size of the result cache *)

Lemma cache_ok_get (cfg : CacheConfig) (now : Z) (key : string)
  (c : QueryCache) :
  cache_ok cfg c -> cache_ok cfg (fst (getCachedQuery cfg now key c)).
Proof.
  intros [Hu Hn Hs Hh]. unfold getCachedQuery.
  destruct (negb (enableQueryCache cfg)); [split; assumption |].
  destruct (map_get (queryCache c) key) as [cached |].
  - destruct (fresh_enough now cached); cbn [fst].
    + split; cbn [queryCache cacheHits cacheRequests];
        [assumption | assumption | assumption | lia].
    + split; cbn [queryCache cacheHits cacheRequests].
      * apply filter_keys_nodup, Hu.
      * apply Forall_forall. intros k Hk.
        rewrite Forall_forall in Hn. apply Hn.
        exact (filter_keys_incl _ _ _ Hk).
      * unfold map_delete.
        pose proof (PoolFacts.filter_length_le
                      (fun kv : string * CacheEntry => negb (fst kv =? key))
                      (queryCache c)).
        lia.
      * lia.
  - split; cbn [fst queryCache cacheHits cacheRequests];
      [assumption | assumption | assumption | lia].
Qed.

Lemma cache_ok_set (cfg : CacheConfig) (now : Z) (key : string)
  (result : list value) (ttl : Z) (c : QueryCache) :
  1 <= maxCacheSize cfg ->
  key <> EmptyString ->
  cache_ok cfg c -> cache_ok cfg (setCachedQuery cfg now key result ttl c).
Proof.
  intros Hmax Hkey [Hu Hn Hs Hh]. unfold setCachedQuery.
  destruct (negb (enableQueryCache cfg)); [split; assumption |].
  set (evicted :=
         if Nat.leb (maxCacheSize cfg) (List.length (queryCache c))
         then match queryCache c with
              | (firstKey, _) :: _ =>
                  if firstKey =? EmptyString then queryCache c
                  else map_delete (queryCache c) firstKey
              | [] => []
              end
         else queryCache c).
  assert (He : NoDup (map fst evicted)
               /\ Forall (fun k => k <> EmptyString) (map fst evicted)
               /\ List.length evicted < maxCacheSize cfg).
  { subst evicted.
    destruct (Nat.leb (maxCacheSize cfg) (List.length (queryCache c))) eqn:Hfull.
    - destruct (queryCache c) as [| [firstKey v] m] eqn:Hqc.
      + repeat split; [constructor | constructor | simpl; lia].
      + assert (Hfk : firstKey <> EmptyString).
        { inversion Hn. assumption. }
        destruct (String.eqb_spec firstKey EmptyString) as [-> | _];
          [contradiction |].
        rewrite (map_delete_head firstKey v m Hu).
        inversion Hu. inversion Hn. subst.
        repeat split; [assumption | assumption |].
        cbn [List.length] in Hs. lia.
    - apply Nat.leb_gt in Hfull. repeat split; assumption. }
  destruct He as (Heu & Hen & Hes).
  split; cbn [queryCache cacheHits cacheRequests].
  - apply map_set_nodup, Heu.
  - rewrite map_set_keys.
    destruct (existsb (String.eqb key) (map fst evicted)); [exact Hen |].
    apply Forall_app. split; [exact Hen | constructor; [exact Hkey | constructor]].
  - pose proof (map_set_length evicted key
                  {| ce_result := result; ce_timestamp := now; ce_ttl := ttl |}).
    lia.
  - exact Hh.
Qed.

Lemma cache_ok_cleanup (cfg : CacheConfig) (now : Z) (c : QueryCache) :
  cache_ok cfg c -> cache_ok cfg (cleanupExpiredCache cfg now c).
Proof.
  intros [Hu Hn Hs Hh]. unfold cleanupExpiredCache.
  destruct (negb (enableQueryCache cfg)); [split; assumption |].
  split; cbn [queryCache cacheHits cacheRequests].
  - apply filter_keys_nodup, Hu.
  - apply Forall_forall. intros k Hk.
    rewrite Forall_forall in Hn. apply Hn.
    exact (filter_keys_incl _ _ _ Hk).
  - pose proof (PoolFacts.filter_length_le
                  (fun kv : string * CacheEntry => fresh_enough now (snd kv))
                  (queryCache c)).
    lia.
  - exact Hh.
Qed.

Lemma cache_ok_empty (cfg : CacheConfig) : cache_ok cfg emptyCache.
Proof. split; simpl; [constructor | constructor | lia | lia]. Qed.

Lemma cache_ok_run (cfg : CacheConfig) (ops : list cache_op) (c : QueryCache) :
  1 <= maxCacheSize cfg ->
  Forall (fun o => written_key o <> Some EmptyString) ops ->
  cache_ok cfg c -> cache_ok cfg (cache_run cfg c ops).
Proof.
  intros Hmax. unfold cache_run. revert c.
  induction ops as [| o ops IH]; intros c Hops Hc; cbn [fold_left];
    [exact Hc |].
  inversion Hops as [| ? ? Ho Hrest]. subst.
  apply IH; [exact Hrest |].
  destruct o; cbn [cache_step].
  - apply cache_ok_get, Hc.
  - apply cache_ok_set; [exact Hmax | | exact Hc].
    intros ->. apply Ho. reflexivity.
  - apply cache_ok_cleanup, Hc.
  - apply cache_ok_empty.
Qed.

(** X24. With room for at least one entry and keys that are not the empty
    string, the result cache never holds more than [maxCacheSize] entries,
    never two under one key, and never counts more hits than requests,
    whatever is stored, looked up, cleaned up or cleared. *)
Theorem cache_stays_within_bounds (cfg : CacheConfig) (ops : list cache_op) :
  1 <= maxCacheSize cfg ->
  Forall (fun o => written_key o <> Some EmptyString) ops ->
  List.length (queryCache (cache_run cfg emptyCache ops)) <= maxCacheSize cfg
  /\ NoDup (map fst (queryCache (cache_run cfg emptyCache ops)))
  /\ cacheHits (cache_run cfg emptyCache ops)
     <= cacheRequests (cache_run cfg emptyCache ops).
Proof.
  intros Hmax Hops.
  destruct (cache_ok_run cfg ops emptyCache Hmax Hops (cache_ok_empty cfg))
    as [Hu _ Hs Hh].
  repeat split; assumption.
Qed.

Lemma cache_stays_within_bounds_witness :
  List.length (queryCache (cache_run smallCache emptyCache threeStores))
  <= maxCacheSize smallCache
  /\ NoDup (map fst (queryCache (cache_run smallCache emptyCache threeStores)))
  /\ cacheHits (cache_run smallCache emptyCache threeStores)
     <= cacheRequests (cache_run smallCache emptyCache threeStores).
Proof.
  apply (cache_stays_within_bounds smallCache threeStores).
  - simpl. lia.
  - repeat constructor; discriminate.
Defined.

Lemma map_set_absent_length {V : Type} (m : list (string * V)) (key : string)
  (v : V) :
  map_get m key = None -> List.length (map_set m key v) = S (List.length m).
Proof.
  induction m as [| [k v'] m IH]; cbn [map_get map_set List.length];
    [reflexivity |].
  destruct (k =? key); [discriminate |].
  intros H. cbn [List.length]. rewrite IH by exact H. reflexivity.
Qed.

(** X25. The eviction of [setCachedQuery] tests the oldest key for
    truthiness: when that key is the empty string nothing is evicted, and
    storing under a new key makes a full cache grow past its bound. *)
Theorem empty_first_key_defeats_eviction (cfg : CacheConfig) (now : Z)
  (key : string) (result : list value) (ttl : Z) (c : QueryCache)
  (oldest : CacheEntry) (rest : list (string * CacheEntry)) :
  enableQueryCache cfg = true ->
  queryCache c = (EmptyString, oldest) :: rest ->
  maxCacheSize cfg <= List.length (queryCache c) ->
  map_get (queryCache c) key = None ->
  List.length (queryCache (setCachedQuery cfg now key result ttl c))
  = S (List.length (queryCache c))
  /\ maxCacheSize cfg
     < List.length (queryCache (setCachedQuery cfg now key result ttl c)).
Proof.
  intros Hon Hqc Hfull Hnew. unfold setCachedQuery. rewrite Hon.
  cbn [negb queryCache].
  apply Nat.leb_le in Hfull. rewrite Hfull.
  rewrite Hqc in *. cbn [String.eqb].
  rewrite map_set_absent_length by exact Hnew.
  apply Nat.leb_le in Hfull. split; [reflexivity | lia].
Qed.

Lemma empty_first_key_defeats_eviction_witness :
  let c := setCachedQuery smallCache 1 "posts" [] 10
             (setCachedQuery smallCache 0 EmptyString [] 10 emptyCache) in
  List.length (queryCache (setCachedQuery smallCache 2 "tags" [] 10 c))
  = S (List.length (queryCache c))
  /\ maxCacheSize smallCache
     < List.length (queryCache (setCachedQuery smallCache 2 "tags" [] 10 c)).
Proof.
  apply (empty_first_key_defeats_eviction smallCache 2 "tags" [] 10
           (setCachedQuery smallCache 1 "posts" [] 10
              (setCachedQuery smallCache 0 EmptyString [] 10 emptyCache))
           {| ce_result := []; ce_timestamp := 0; ce_ttl := 10 |}
           [("posts", {| ce_result := []; ce_timestamp := 1; ce_ttl := 10 |})]).
  - reflexivity.
  - reflexivity.
  - simpl. lia.
  - reflexivity.
Defined.

(** X26. With statement pooling on, the statement prepared first under a
    key is the one every later call with that key gets, whatever query
    text and whatever connection the later call passes. *)
Theorem first_prepared_statement_wins (cfg : CacheConfig)
  (prepare_error : nat -> string -> option error)
  (key query1 query2 : string) (database1 database2 : nat)
  (statements statements1 : list (string * Statement))
  (statement : Statement) :
  enableStatementPooling cfg = true ->
  getPreparedStatement cfg prepare_error key query1 database1 statements
  = (statements1, inr statement) ->
  getPreparedStatement cfg prepare_error key query2 database2 statements1
  = (statements1, inr statement).
Proof.
  intros Hon. unfold getPreparedStatement. rewrite Hon. cbn [negb].
  destruct (map_get statements key) as [cached |] eqn:Hget.
  - intros H. injection H as <- <-. rewrite Hget. reflexivity.
  - destruct (prepare_error database1 query1); [discriminate |].
    intros H. injection H as <- <-. rewrite map_get_set. reflexivity.
Qed.

Lemma first_prepared_statement_wins_witness :
  getPreparedStatement smallCache (fun _ _ => None) "byId"
    "SELECT * FROM posts WHERE id = ?" 2
    [("byId", {| st_query := "SELECT * FROM users WHERE id = ?"; st_db := 1 |})]
  = ([("byId", {| st_query := "SELECT * FROM users WHERE id = ?"; st_db := 1 |})],
     inr {| st_query := "SELECT * FROM users WHERE id = ?"; st_db := 1 |}).
Proof.
  apply (first_prepared_statement_wins smallCache (fun _ _ => None) "byId"
           "SELECT * FROM users WHERE id = ?"
           "SELECT * FROM posts WHERE id = ?" 1 2 []);
    reflexivity.
Defined.

End CacheFacts.

(* ===================================================================== *)
(** * 28. Theorems: placeholders, limits and malformed imports *)
(* ===================================================================== *)

Lemma question_marks_app (a b : string) :
  question_marks (a ++ b) = question_marks a + question_marks b.
Proof.
  induction a as [| c a IH]; cbn [append question_marks];
    [reflexivity | rewrite IH; lia].
Qed.

Lemma question_marks_join (sep : string) (xs : list string) :
  question_marks sep = 0 ->
  question_marks (join sep xs) = list_sum (map question_marks xs).
Proof.
  intros Hsep. induction xs as [| x xs IH]; [reflexivity |].
  destruct xs as [| y ys].
  - cbn [join map list_sum fold_right]. lia.
  - change (join sep (x :: y :: ys)) with (x ++ sep ++ join sep (y :: ys)).
    rewrite !question_marks_app, Hsep, IH. reflexivity.
Qed.

Lemma list_sum_app (l l' : list nat) :
  list_sum (l ++ l') = list_sum l + list_sum l'.
Proof. induction l as [| a l IH]; simpl; [reflexivity | rewrite IH; lia]. Qed.

Lemma list_sum_zero_ones_atoms (atoms : list atom) :
  Forall (fun a => question_marks (a_field a) = 0
                   /\ question_marks (a_op a) = 0) atoms ->
  list_sum (map question_marks (map render_atom atoms)) = List.length atoms.
Proof.
  induction 1 as [| a atoms [Hf Ho] _ IH]; [reflexivity |].
  cbn [map list_sum fold_right List.length]. fold (list_sum (map question_marks (map render_atom atoms))).
  rewrite IH. unfold render_atom.
  rewrite !question_marks_app, Hf, Ho. reflexivity.
Qed.

Lemma question_marks_alternatives (alts : list (list atom)) :
  Forall (fun a => question_marks (a_field a) = 0
                   /\ question_marks (a_op a) = 0) (List.concat alts) ->
  list_sum
    (map question_marks
       (map (fun alt => join " AND " (map render_atom alt)) alts))
  = List.length (List.concat (map (map a_value) alts)).
Proof.
  induction alts as [| alt alts IH]; [reflexivity |].
  cbn [List.concat map]. intros H.
  apply Forall_app in H. destruct H as [Ha Hrest].
  cbn [list_sum fold_right].
  fold (list_sum
          (map question_marks
             (map (fun alt => join " AND " (map render_atom alt)) alts))).
  rewrite length_app, length_map, (IH Hrest).
  rewrite question_marks_join by reflexivity.
  rewrite (list_sum_zero_ones_atoms alt Ha). reflexivity.
Qed.

Lemma question_marks_clause (c : clause) :
  Forall (fun a => question_marks (a_field a) = 0
                   /\ question_marks (a_op a) = 0) (clause_atoms c) ->
  question_marks (render_clause c) = List.length (clause_values c).
Proof.
  destruct c as [a | alts]; cbn [clause_atoms render_clause clause_values].
  - intros H. inversion H as [| ? ? [Hf Ho] _]. subst. unfold render_atom.
    rewrite !question_marks_app, Hf, Ho. reflexivity.
  - intros H. rewrite !question_marks_app.
    rewrite question_marks_join by reflexivity.
    rewrite (question_marks_alternatives alts H).
    change (question_marks "(") with 0.
    change (question_marks ")") with 0. lia.
Qed.

Lemma question_marks_where (cs : list clause) :
  Forall (fun a => question_marks (a_field a) = 0
                   /\ question_marks (a_op a) = 0)
         (List.concat (map clause_atoms cs)) ->
  question_marks (render_where cs) = List.length (bound_values cs).
Proof.
  intros H. unfold render_where, bound_values.
  assert (Hsum : list_sum (map question_marks (map render_clause cs))
                 = List.length (List.concat (map clause_values cs))).
  { induction cs as [| c cs IH]; [reflexivity |].
    cbn [map List.concat] in *. apply Forall_app in H. destruct H as [Hc Hcs].
    cbn [list_sum fold_right]. rewrite length_app.
    rewrite (question_marks_clause c Hc). f_equal. apply IH, Hcs. }
  destruct cs as [| c cs]; [reflexivity |].
  rewrite question_marks_app, question_marks_join by reflexivity.
  rewrite Hsum. reflexivity.
Qed.

Lemma atoms_of_ops (op : string) (kvs : list (string * value)) :
  Forall (fun a => a_op a = op) (atoms_of op kvs).
Proof.
  unfold atoms_of. apply Forall_forall. intros a Ha.
  apply in_map_iff in Ha. destruct Ha as (kv & <- & _). reflexivity.
Qed.

(** The operators the compiler writes hold no placeholder. *)
Lemma compiled_ops_plain (where_ : obj) :
  Forall (fun a => question_marks (a_op a) = 0)
         (List.concat (map clause_atoms (equality_last_order where_))).
Proof.
  assert (Hop : forall k op,
             question_marks op = 0 ->
             Forall (fun a => question_marks (a_op a) = 0)
                    (List.concat (map clause_atoms (operator_clauses where_ k op)))).
  { intros k op Hq. unfold operator_clauses.
    destruct (present where_ k); [| constructor].
    rewrite map_map. cbn [clause_atoms].
    pose proof (atoms_of_ops op (entries (get where_ k))) as Hall.
    rewrite Forall_forall in Hall.
    apply Forall_forall. intros b Hb.
    apply in_concat in Hb. destruct Hb as (l' & Hl' & Hb).
    apply in_map_iff in Hl'. destruct Hl' as (a' & <- & Ha').
    destruct Hb as [<- | []]. rewrite (Hall a' Ha').
    exact Hq. }
  unfold equality_last_order, like_clauses, comparison_clauses, or_clauses,
    equality_clauses.
  rewrite !map_app, !concat_app.
  repeat (apply Forall_app; split); try (apply Hop; reflexivity).
  - destruct (orAlternatives where_) as [alts |]; [| constructor].
    cbn [map clause_atoms List.concat]. rewrite app_nil_r.
    apply Forall_forall. intros a Ha.
    apply in_concat in Ha. destruct Ha as (alt & Halt & Ha).
    apply in_map_iff in Halt. destruct Halt as (condition & <- & _).
    unfold alternative_atoms in Ha.
    destruct (isLikeCondition condition);
      [pose proof (atoms_of_ops "LIKE" (entries (prop condition "LIKE"))) as Hall
      | pose proof (atoms_of_ops "=" (entries condition)) as Hall];
      rewrite Forall_forall in Hall; rewrite (Hall a Ha); reflexivity.
  - rewrite map_map. cbn [clause_atoms].
    apply Forall_forall. intros a Ha.
    apply in_concat in Ha. destruct Ha as (l & Hl & Ha).
    apply in_map_iff in Hl. destruct Hl as (key & <- & _).
    destruct Ha as [<- | []]. reflexivity.
Qed.

(** X27. When no field name of a predicate holds a question mark, the
    clause that [buildWhereClause] compiles has exactly as many
    placeholders as [extractWhereParameters] binds values. *)
Theorem placeholders_match_parameters (J : Runtime) (where_ : obj)
  (clause_ : string) (params : list value) :
  Forall (fun a => question_marks (a_field a) = 0)
         (List.concat (map clause_atoms (equality_last_order where_))) ->
  buildWhereClause where_ = inr clause_ ->
  extractWhereParameters J where_ = inr params ->
  question_marks clause_ = List.length params.
Proof.
  intros Hfields Hb Hp.
  rewrite buildWhereClause_clauses in Hb.
  rewrite extractWhereParameters_clauses in Hp.
  destruct (has_nullish_alternative where_); [discriminate Hb |].
  injection Hb as <-. injection Hp as <-.
  rewrite parseParameters_length. apply question_marks_where.
  pose proof (compiled_ops_plain where_) as Hops.
  rewrite Forall_forall in *. intros a Ha.
  split; [apply Hfields, Ha | apply Hops, Ha].
Qed.

Lemma placeholders_match_parameters_witness :
  question_marks "WHERE name LIKE ? AND (age = ? OR age = ?) AND city = ?"
  = List.length [VStr "A%"; VNum 30; VNum 40; VStr "Oslo"].
Proof.
  apply (placeholders_match_parameters MiniJson.impl
           [("city", VStr "Oslo");
            ("OR", VArr [VObj [("age", VNum 30)]; VObj [("age", VNum 40)]]);
            ("LIKE", VObj [("name", VStr "A%")])]).
  - repeat constructor.
  - reflexivity.
  - reflexivity.
Defined.

(** X28. A [limit] of zero is no limit: [select] with [limit: 0] is
    [select] without a limit, for every table, engine and other option,
    and so is a [skip] of zero. *)
Theorem zero_limit_means_no_limit (E : Engine) (J : Runtime)
  (tableName : string) (schema : list ColumnsSchema)
  (where_ sel : option obj) (other : option Z) (w : world E) :
  select E J tableName schema
    {| so_where := where_; so_select := sel; so_limit := Some 0%Z;
       so_skip := other |} w
  = select E J tableName schema
      {| so_where := where_; so_select := sel; so_limit := None;
         so_skip := other |} w
  /\ select E J tableName schema
       {| so_where := where_; so_select := sel; so_limit := other;
          so_skip := Some 0%Z |} w
     = select E J tableName schema
         {| so_where := where_; so_select := sel; so_limit := other;
            so_skip := None |} w.
Proof.
  unfold select, validateSelectOptions, buildSelectQuery.
  cbn [so_where so_select so_limit so_skip negative_option truthy_number
       Z.eqb negb andb].
  split; [reflexivity |].
  destruct (negative_option other); reflexivity.
Qed.

(** X29. An import whose input is an object without a [data] array makes
    no call to the engine and reports nothing imported, nothing skipped
    and the one error that says so. *)
Theorem importFromJson_rejects_missing_data
  (E : Engine) (J : Runtime) (tableName : string)
  (schema : list ColumnsSchema) (fields : obj) (options : ImportOptions)
  (w : world E) :
  isArray (get fields "data") = false ->
  importFromJson E J tableName schema (VObj fields) options w
  = (w, Ok {| imported := 0; skipped := 0;
              errors := ["Import failed: Error: Invalid JSON format: expected 'data' array"] |}).
Proof.
  intros Hdata. unfold importFromJson.
  match goal with
  | |- context [try_catch ?m ?h ?s] =>
      assert (Hbody : m s
                      = (s, Throw (Error "Invalid JSON format: expected 'data' array")))
  end.
  { rewrite (bind_ok (ret (VObj fields)) _ _ _ _ eq_refl). cbv beta.
    cbn [getProp].
    rewrite (bind_ok (lift_res (inr (get fields "data"))) _ _ _ _ eq_refl).
    cbv beta. destruct (get fields "data"); try reflexivity.
    discriminate Hdata. }
  unfold try_catch at 1. rewrite Hbody. reflexivity.
Qed.

Lemma importFromJson_rejects_missing_data_witness :
  importFromJson quietEngine MiniJson.impl "Users" usersSchema
    (VObj [("rows", VArr [])]) ignoreOptions quietWorld
  = (quietWorld,
     Ok {| imported := 0; skipped := 0;
           errors := ["Import failed: Error: Invalid JSON format: expected 'data' array"] |}).
Proof.
  apply (importFromJson_rejects_missing_data quietEngine MiniJson.impl
           "Users" usersSchema [("rows", VArr [])] ignoreOptions quietWorld).
  reflexivity.
Defined.
